(** * Cpp2C: soundness of turning macro invocations into function calls

    A verification development over the big-step semantics of
    [proof_of_soundness/EvalRules.v] and the theorems of
    [proof_of_soundness/Theorems.v].  The semantic relations ([MSub],
    [MacroSubst], [EvalExpr], [EvalExprList], [EvalStmt]) are the source's
    own, rule for rule.  The files the source imports next to them
    (syntax, configuration variables, the static analyzers and the
    transformation relation) are given here so that the development
    stands alone; each such definition says where it comes from.  The
    functions of [implementation/src/Utils/Logging/TransformerMessages.cc]
    that write the transformer's log close the definitions. *)

From Stdlib Require Import
  FSets.FMapList
  FSets.FMapFacts
  Structures.OrderedTypeEx
  Lists.List
  Strings.String
  Strings.Ascii
  Bool.Bool
  ZArith.ZArith.

Import ListNotations.

(** ** Configuration variables

    The source keeps stores, environments and the two definition tables in
    finite maps of the standard library ([Coq.FSets.FMapList]), and compares
    stores with [NatMap.Equal]. *)

Module NatMap := FMapList.Make(Nat_as_OT).
Module NatMapProperties := WProperties_fun Nat_as_OT NatMap.
Module NatMapFacts := NatMapProperties.F.

Module StringMap := FMapList.Make(String_as_OT).
Module StringMapProperties := WProperties_fun String_as_OT StringMap.
Module StringMapFacts := StringMapProperties.F.

(** A store maps L-values (locations) to R-values. *)
Definition store : Type := NatMap.t Z.

(** An environment maps variable names to L-values. *)
Definition environment : Type := StringMap.t nat.

(** ** Map lemmas *)

Lemma StringMap_mapsto_in :
  forall (A : Type) (k : string) (v : A) (m : StringMap.t A),
  StringMap.MapsTo k v m -> StringMap.In k m.
Proof.
  intros A k v m Hm. exists v. exact Hm.
Qed.

Lemma NatMap_mapsto_in :
  forall (A : Type) (k : nat) (v : A) (m : NatMap.t A),
  NatMap.MapsTo k v m -> NatMap.In k m.
Proof.
  intros A k v m Hm. exists v. exact Hm.
Qed.

(** Restricting a store to itself gives the store back. *)
Lemma NatMap_restrict_refl :
  forall (S : store), NatMap.Equal (NatMapProperties.restrict S S) S.
Proof.
  intros S. apply NatMapFacts.Equal_mapsto_iff. intros k v.
  rewrite NatMapProperties.restrict_mapsto_iff. split.
  - intros [Hm _]. exact Hm.
  - intros Hm. split; [exact Hm | exists v; exact Hm].
Qed.

(** Extending a store with disjoint bindings and restricting the result to
    the store gives the store back: this is how a function call frees the
    L-values of its arguments. *)
Lemma NatMap_disjoint_restrict_Equal :
  forall (S1 S2 : store),
  NatMapProperties.Disjoint S1 S2 ->
  NatMap.Equal (NatMapProperties.restrict (NatMapProperties.update S1 S2) S1) S1.
Proof.
  intros S1 S2 Hd. apply NatMapFacts.Equal_mapsto_iff. intros k v.
  rewrite NatMapProperties.restrict_mapsto_iff.
  rewrite NatMapProperties.update_mapsto_iff. split.
  - intros [[H2 | [H1 _]] Hin].
    + exfalso. apply (Hd k). split; [exact Hin | exists v; exact H2].
    + exact H1.
  - intros H1. split.
    + right. split; [exact H1 |].
      intros Hin. apply (Hd k). split; [exists v; exact H1 | exact Hin].
    + exists v. exact H1.
Qed.

(** Updating a store with the empty store changes nothing. *)
Lemma NatMap_update_empty_Equal :
  forall (S : store),
  NatMap.Equal (NatMapProperties.update S (NatMap.empty Z)) S.
Proof.
  intros S. apply NatMapFacts.Equal_mapsto_iff. intros k v.
  rewrite NatMapProperties.update_mapsto_iff. split.
  - intros [H | [H _]]; [| exact H].
    apply NatMapFacts.empty_mapsto_iff in H. contradiction.
  - intros H. right. split; [exact H |].
    intros [w Hw]. apply NatMapFacts.empty_mapsto_iff in Hw. exact Hw.
Qed.

(** Looking a location up in an updated store: the update wins. *)
Lemma NatMap_find_update :
  forall (S1 S2 : store) l,
  NatMap.find l (NatMapProperties.update S1 S2) =
  match NatMap.find l S2 with
  | Some v => Some v
  | None => NatMap.find l S1
  end.
Proof.
  intros S1 S2 l.
  destruct (NatMap.find l S2) as [v |] eqn:H2.
  - apply NatMap.find_1. apply NatMapProperties.update_mapsto_iff.
    left. apply NatMap.find_2. exact H2.
  - destruct (NatMap.find l S1) as [v |] eqn:H1.
    + apply NatMap.find_1. apply NatMapProperties.update_mapsto_iff.
      right. split; [apply NatMap.find_2; exact H1 |].
      intros Hin. apply NatMapFacts.in_find_iff in Hin. contradiction.
    + apply NatMapFacts.not_find_in_iff. intros Hin.
      apply NatMapProperties.update_in_iff in Hin.
      destruct Hin as [Hin | Hin];
        apply NatMapFacts.in_find_iff in Hin; contradiction.
Qed.

(** Looking a location up in a store restricted to the locations of
    another. *)
Lemma NatMap_find_restrict :
  forall (S1 S2 : store) l,
  NatMap.find l (NatMapProperties.restrict S1 S2) =
  if NatMap.mem l S2 then NatMap.find l S1 else None.
Proof.
  intros S1 S2 l.
  destruct (NatMap.mem l S2) eqn:Hm.
  - apply NatMapFacts.mem_in_iff in Hm.
    destruct (NatMap.find l S1) as [v |] eqn:H1.
    + apply NatMap.find_1. apply NatMapProperties.restrict_mapsto_iff.
      split; [apply NatMap.find_2; exact H1 | exact Hm].
    + apply NatMapFacts.not_find_in_iff. intros Hin.
      apply NatMapProperties.restrict_in_iff in Hin.
      destruct Hin as [Hin _].
      apply NatMapFacts.in_find_iff in Hin. contradiction.
  - apply NatMapFacts.not_find_in_iff. intros Hin.
    apply NatMapProperties.restrict_in_iff in Hin.
    destruct Hin as [_ Hin].
    apply NatMapFacts.mem_in_iff in Hin. congruence.
Qed.

Lemma NatMap_Equal_In :
  forall (S1 S2 : store) l,
  NatMap.Equal S1 S2 -> NatMap.In l S1 -> NatMap.In l S2.
Proof.
  intros S1 S2 l Heq Hin. rewrite <- Heq. exact Hin.
Qed.

(** Writing one location leaves the others as they are. *)
Lemma NatMap_find_update_singleton_other :
  forall (S : store) l v l0,
  l0 <> l ->
  NatMap.find l0
    (NatMapProperties.update S (NatMap.add l v (NatMap.empty Z))) =
  NatMap.find l0 S.
Proof.
  intros S l v l0 Hne. rewrite NatMap_find_update.
  rewrite NatMapFacts.add_neq_o by (intros Heq; apply Hne; symmetry; exact Heq).
  rewrite NatMapFacts.empty_o. reflexivity.
Qed.

(** ** Strings *)

Lemma append_assoc :
  forall a b c : string, ((a ++ b) ++ c = a ++ (b ++ c))%string.
Proof.
  intros a b c. induction a as [| ch a IH]; simpl.
  - reflexivity.
  - rewrite IH. reflexivity.
Qed.

Lemma append_inv_head :
  forall a b c : string, (a ++ b = a ++ c)%string -> b = c.
Proof.
  intros a b c. induction a as [| ch a IH]; simpl; intros H.
  - exact H.
  - injection H as H. exact (IH H).
Qed.

Lemma list_ascii_of_string_append :
  forall a b : string,
  list_ascii_of_string (a ++ b) =
  (list_ascii_of_string a ++ list_ascii_of_string b)%list.
Proof.
  intros a b. induction a as [| ch a IH]; simpl.
  - reflexivity.
  - rewrite IH. reflexivity.
Qed.

Lemma list_ascii_of_string_inj :
  forall a b : string,
  list_ascii_of_string a = list_ascii_of_string b -> a = b.
Proof.
  intros a b H.
  rewrite <- (string_of_list_ascii_of_string a),
          <- (string_of_list_ascii_of_string b), H.
  reflexivity.
Qed.

Lemma append_inv_tail :
  forall a b c : string, (a ++ c = b ++ c)%string -> a = b.
Proof.
  intros a b c H. apply list_ascii_of_string_inj.
  apply (f_equal list_ascii_of_string) in H.
  rewrite !list_ascii_of_string_append in H.
  exact (app_inv_tail _ _ _ H).
Qed.

(** Two strings that are cut at the first occurrence of a character agree
    before it and after it. *)
Lemma append_delimiter_inv :
  forall (ch : ascii) (a1 a2 r1 r2 : string),
  ~ In ch (list_ascii_of_string a1) ->
  ~ In ch (list_ascii_of_string a2) ->
  (a1 ++ String ch r1 = a2 ++ String ch r2)%string ->
  a1 = a2 /\ r1 = r2.
Proof.
  intros ch a1. induction a1 as [| c1 a1 IH]; intros a2 r1 r2 H1 H2 H.
  - destruct a2 as [| c2 a2]; simpl in H.
    + injection H as H. split; [reflexivity | exact H].
    + injection H as Hc _. exfalso. apply H2. left. symmetry. exact Hc.
  - destruct a2 as [| c2 a2]; simpl in H.
    + injection H as Hc _. exfalso. apply H1. left. exact Hc.
    + injection H as Hc H. subst c2.
      destruct (IH a2 r1 r2) as [Ha Hr].
      * intros Hin. apply H1. right. exact Hin.
      * intros Hin. apply H2. right. exact Hin.
      * exact H.
      * subst a2. split; [reflexivity | exact Hr].
Qed.

Section Cpp2C.

Set Default Proof Using "Type".

(** ** Syntax

    The operator sets of the language and their meaning on integers are
    parameters of the development: the semantics only ever applies
    [unop_to_op] and [binop_to_op], and the analyzers never look at an
    operator. *)

Variables unop binop : Type.
Variable unop_to_op : unop -> Z -> Z.
Variable binop_to_op : binop -> Z -> Z -> Z.

(** Modelled from the spec: the expression type of [Syntax.v], which is not
    among the source files.  The constructors are the ones the evaluation
    rules of [EvalRules.v] match on; the spec calls them [Num], [Var],
    [Paren], [Unary], [Binary], [Assign] and [Invocation]. *)
Inductive expr : Type :=
  | Num (z : Z)
  | Var (x : string)
  | ParenExpr (e0 : expr)
  | UnExpr (uo : unop) (e0 : expr)
  | BinExpr (bo : binop) (e1 e2 : expr)
  | Assign (x : string) (e0 : expr)
  | CallOrInvocation (x : string) (es : list expr).

(** Modelled from the spec: the statement type of [Syntax.v], with the
    constructors the statement rules of [EvalRules.v] match on. *)
Inductive stmt : Type :=
  | Skip
  | Expr (e0 : expr)
  | IfElse (cond : expr) (s1 s2 : stmt)
  | While (cond : expr) (s0 : stmt)
  | Compound (ss : list stmt).

(** A function has formal parameters, a statement body and a return
    expression; a macro has formal parameters and an expression body. *)
Definition function_definition : Type := (list string * stmt * expr)%type.
Definition function_table : Type := StringMap.t function_definition.
Definition macro_definition : Type := (list string * expr)%type.
Definition macro_table : Type := StringMap.t macro_definition.

(** Induction over expressions that also reaches the arguments of an
    invocation. *)
Section expr_nested_ind.
Variable P : expr -> Prop.
Hypothesis HNum : forall z, P (Num z).
Hypothesis HVar : forall x, P (Var x).
Hypothesis HParen : forall e0, P e0 -> P (ParenExpr e0).
Hypothesis HUn : forall uo e0, P e0 -> P (UnExpr uo e0).
Hypothesis HBin : forall bo e1 e2, P e1 -> P e2 -> P (BinExpr bo e1 e2).
Hypothesis HAssign : forall x e0, P e0 -> P (Assign x e0).
Hypothesis HCall : forall x es, Forall P es -> P (CallOrInvocation x es).

Fixpoint expr_nested_ind (e : expr) : P e :=
  match e with
  | Num z => HNum z
  | Var x => HVar x
  | ParenExpr e0 => HParen e0 (expr_nested_ind e0)
  | UnExpr uo e0 => HUn uo e0 (expr_nested_ind e0)
  | BinExpr bo e1 e2 =>
      HBin bo e1 e2 (expr_nested_ind e1) (expr_nested_ind e2)
  | Assign x e0 => HAssign x e0 (expr_nested_ind e0)
  | CallOrInvocation x es =>
      HCall x es
        ((fix args (l : list expr) : Forall P l :=
            match l with
            | nil => Forall_nil P
            | a :: l' => Forall_cons a (expr_nested_ind a) (args l')
            end) es)
  end.
End expr_nested_ind.

(** ** Macro substitution ([EvalRules.v])

    Macro substitution, one parameter at a time. *)
Inductive MSub : string -> expr -> expr -> expr -> Prop :=
  | MS_Num : forall p e z,
    MSub p e (Num z) (Num z)
  | MS_Var_Replace : forall p e x,
    p = x ->
    MSub p e (Var x) e
  | MS_Var_No_Replace : forall p e x,
    p <> x ->
    MSub p e (Var x) (Var x)
  | MS_PareExpr : forall p e e0 e0',
    MSub p e e0 e0' ->
    MSub p e (ParenExpr e0) (ParenExpr e0')
  | MS_UnExpr : forall p e uo e0 e0',
    MSub p e e0 e0' ->
    MSub p e (UnExpr uo e0) (UnExpr uo e0')
  | MS_BinExpr : forall p e bo e1 e2 e1' e2',
    MSub p e e1 e1' ->
    MSub p e e2 e2' ->
    MSub p e (BinExpr bo e1 e2) (BinExpr bo e1' e2')
  | MS_Assign_Replace : forall p e x y e0 e0',
    p = x ->
    e = Var y ->
    MSub p e e0 e0' ->
    MSub p e (Assign x e0) (Assign y e0')
  | MS_Assign_No_Replace : forall p e x e0 e0',
    p <> x ->
    MSub p e e0 e0' ->
    MSub p e (Assign x e0) (Assign x e0')
  | MS_Call_Or_Invocation : forall p e x es es',
    MSubList p e es es' ->
    MSub p e (CallOrInvocation x es) (CallOrInvocation x es')
with MSubList : string -> expr -> list expr -> list expr -> Prop :=
  | MSL_nil : forall p e,
    MSubList p e nil nil
  | MSL_cons : forall p e e0 e0' es0 es0',
    MSub p e e0 e0' ->
    MSubList p e es0 es0' ->
    MSubList p e (e0::es0) (e0'::es0').

(** Macro substitution for a list of parameters and the expressions to
    replace them with. *)
Inductive MacroSubst :
  list string -> list expr -> expr -> expr -> Prop :=
  | MacroSubst_nil : forall mexpr,
    MacroSubst nil nil mexpr mexpr
  | MacroSubst_cons : forall p e ps es mexpr ef ef',
    MSub p e mexpr ef ->
    MacroSubst ps es ef ef' ->
    MacroSubst (p::ps) (e::es) mexpr ef'.

(** ** Big-step evaluation ([EvalRules.v])

    A term that fails to evaluate is stuck: no rule applies to it. *)
Inductive EvalExpr :
  store -> environment -> environment ->
  function_table -> macro_table ->
  expr ->
  Z -> store -> Prop :=
  | E_Num : forall S E G F M z S',
    NatMap.Equal S S' ->
    EvalExpr S E G F M (Num z) z S'
  | E_LocalVar : forall S E G F M x l v S',
    NatMap.Equal S S' ->
    StringMap.MapsTo x l E ->
    NatMap.MapsTo l v S ->
    EvalExpr S E G F M (Var x) v S'
  | E_GlobalVar : forall S E G F M x l v S',
    NatMap.Equal S S' ->
    ~ StringMap.In x E ->
    StringMap.MapsTo x l G ->
    NatMap.MapsTo l v S ->
    EvalExpr S E G F M (Var x) v S'
  | E_ParenExpr : forall S E G F M e0 v S',
    EvalExpr S E G F M e0 v S' ->
    EvalExpr S E G F M (ParenExpr e0) v S'
  | E_UnExpr : forall S E G F M S' uo e0 v,
    EvalExpr S E G F M e0 v S' ->
    EvalExpr S E G F M (UnExpr uo e0) ((unop_to_op uo) v) S'
  | E_BinExpr : forall S E G F M bo e1 e2 v1 v2 S' S'',
    EvalExpr S E G F M e1 v1 S' ->
    EvalExpr S' E G F M e2 v2 S'' ->
    EvalExpr S E G F M (BinExpr bo e1 e2) ((binop_to_op bo) v1 v2) S''
  | E_Assign_Local : forall S E G F M l x e0 v S' S'',
    StringMap.MapsTo x l E ->
    EvalExpr S E G F M e0 v S' ->
    NatMap.Equal S'' (NatMapProperties.update S (NatMap.add l v (NatMap.empty Z))) ->
    EvalExpr S E G F M (Assign x e0) v S''
  | E_Assign_Global : forall S E G F M l x e0 v S' S'',
    ~ StringMap.In x E ->
    StringMap.MapsTo x l G ->
    EvalExpr S E G F M e0 v S' ->
    NatMap.Equal S'' (NatMapProperties.update S (NatMap.add l v (NatMap.empty Z))) ->
    EvalExpr S E G F M (Assign x e0) v S''
  | E_FunctionCall :
    forall S E G F M x es params fstmt fexpr l ls
           Ef Sargs S' S'' S''' S'''' S''''' v vs,
    ~ StringMap.In x M ->
    StringMap.MapsTo x (params, fstmt, fexpr) F ->
    NoDup params ->
    EvalExprList S E G F M params es vs S' Ef Sargs l ls ->
    StringMap.Equal Ef (StringMapProperties.of_list (combine params ls)) ->
    NatMap.Equal Sargs (NatMapProperties.of_list (combine ls vs)) ->
    NatMapProperties.Disjoint S' Sargs ->
    NatMap.Equal S'' (NatMapProperties.update S' Sargs) ->
    EvalStmt S'' Ef G F M fstmt S''' ->
    EvalExpr S''' Ef G F M fexpr v S'''' ->
    NatMap.Equal S''''' (NatMapProperties.restrict S'''' S) ->
    EvalExpr S E G F M (CallOrInvocation x es) v S'''''
  | E_MacroInvocation :
    forall S E G F M x params es mexpr M' ef S' v,
    StringMap.MapsTo x (params, mexpr) M ->
    M' = (StringMap.remove x M) ->
    NoDup params ->
    MacroSubst params es mexpr ef ->
    EvalExpr S E G F M' ef v S' ->
    EvalExpr S E G F M (CallOrInvocation x es) v S'
with EvalExprList :
  store -> environment -> environment -> function_table -> macro_table ->
  list string -> list expr -> list Z -> store -> environment -> store ->
  nat -> list nat -> Prop :=
  | E_ExprList_nil : forall Sprev Ecaller G F M Snext,
    NatMap.Equal Sprev Snext ->
    EvalExprList Sprev Ecaller G F M nil nil nil Snext (StringMap.empty nat) (NatMap.empty Z)
      1 (0 :: nil)
  | E_ExprList_cons : forall Sprev Ecaller G F M p e v Snext ps es vs Sfinal Ef' Sargs' l ls,
    EvalExpr Sprev Ecaller G F M e v Snext ->
    EvalExprList Snext Ecaller G F M ps es vs Sfinal Ef' Sargs' l ls ->
    ~ NatMap.In l Sargs' ->
    NoDup (p::ps) ->
    ~ StringMap.In p Ef' ->
    EvalExprList  Sprev Ecaller G F M (p::ps) (e::es) (v::vs) Sfinal
                  (StringMap.add p l Ef') (NatMap.add l v Sargs') l ( l :: ls)
with EvalStmt :
  store -> environment -> environment ->
  function_table -> macro_table ->
  stmt ->
  store -> Prop :=
  | E_Skip : forall S E G F M S',
    NatMap.Equal S S' ->
    EvalStmt S E G F M Skip S'
  | E_Expr : forall S E G F M e0 v S',
    EvalExpr S E G F M e0 v S' ->
    EvalStmt S E G F M (Expr e0) S'
  | E_IfElseFalse : forall S E G F M cond v S' s1 s2 S'',
    EvalExpr S E G F M cond v S' ->
    v = 0%Z ->
    EvalStmt S' E G F M s2 S'' ->
    EvalStmt S E G F M (IfElse cond s1 s2) S''
  | E_IfElseTrue : forall S E G F M cond v S' s1 s2 S'',
    EvalExpr S E G F M cond v S' ->
    v <> 0%Z ->
    EvalStmt S' E G F M s1 S'' ->
    EvalStmt S E G F M (IfElse cond s1 s2) S''
  | E_WhileFalse : forall S E G F M cond v S' s0,
    EvalExpr S E G F M cond v S' ->
    v = 0%Z ->
    EvalStmt S E G F M (While cond s0) S'
  | E_WhileTrue : forall S E G F M cond v S' s0 S'' S''',
    EvalExpr S E G F M cond v S' ->
    v <> 0%Z ->
    EvalStmt S' E G F M s0 S'' ->
    EvalStmt S'' E G F M (While cond s0) S''' ->
    EvalStmt S E G F M (While cond s0) S'''
  | E_CompoundStmt_nil : forall S E G F M S',
    NatMap.Equal S S' ->
    EvalStmt S E G F M (Compound nil) S'
  | E_CompoundStmt_cons : forall S E G F M s ss S' S'',
    EvalStmt S E G F M s S' ->
    EvalStmt S' E G F M (Compound ss) S'' ->
    EvalStmt S E G F M (Compound (s::ss)) S''.

(** Induction schemes that give hypotheses for all the relations a rule
    mentions. *)
Scheme MSub_mut := Induction for MSub Sort Prop
with MSubList_mut := Induction for MSubList Sort Prop.

Scheme EvalExpr_mut := Induction for EvalExpr Sort Prop
with EvalStmt_mut := Induction for EvalStmt Sort Prop
with EvalExprList_mut := Induction for EvalExprList Sort Prop.

Scheme EvalExpr_min := Minimality for EvalExpr Sort Prop
with EvalStmt_min := Minimality for EvalStmt Sort Prop
with EvalExprList_min := Minimality for EvalExprList Sort Prop.

Combined Scheme Eval_mutind from EvalExpr_min, EvalStmt_min, EvalExprList_min.

(** ** Evaluation and the function table

    A function table [F2] extends [F] when every definition of [F] is a
    definition of [F2].  Evaluation only ever looks definitions up, so a
    derivation under [F] is a derivation under any extension of [F]. *)
Definition F_extends (F F2 : function_table) : Prop :=
  forall x fdef, StringMap.MapsTo x fdef F -> StringMap.MapsTo x fdef F2.

(** ** The static analyzers

    The transformation decides on three analyses of an expression.  The
    source keeps them in [SideEffects.v], [NoVarsInEnvironment.v] and
    [NoMacroInvocations.v]; [Theorems.v] uses them as the predicates
    [ExprHasSideEffects e], [ExprNoVarsInEnvironment e E] and
    [ExprNoMacroInvocations e F M].  Each is given here as that predicate
    and as a function to [bool] that decides it. *)

(** Modelled from the spec: the side-effect analyzer of [SideEffects.v],
    which is not among the source files.  Purely structural: numerals and
    variables have no side effects, a parenthesis or a unary operator has
    those of its operand, a binary operator those of either operand, an
    assignment always has one.  The analyzer is given the expression alone,
    with no table to resolve a callee in, so an invocation is judged the
    conservative way: it is flagged.  [Theorems.v] relies on exactly that:
    it closes the invocation case of a side-effect-free expression by
    contradiction and concludes from [~ ExprHasSideEffects e] that [e] calls
    no function and invokes no macro. *)
Fixpoint ExprHasSideEffects (e : expr) : Prop :=
  match e with
  | Num z => False
  | Var x => False
  | ParenExpr e0 => ExprHasSideEffects e0
  | UnExpr uo e0 => ExprHasSideEffects e0
  | BinExpr bo e1 e2 => ExprHasSideEffects e1 \/ ExprHasSideEffects e2
  | Assign x e0 => True
  | CallOrInvocation x es => True
  end.

(** The analyzer as a function ([HasSideEffects(expr) -> bool] in the
    spec). *)
Fixpoint has_side_effects (e : expr) : bool :=
  match e with
  | Num z => false
  | Var x => false
  | ParenExpr e0 => has_side_effects e0
  | UnExpr uo e0 => has_side_effects e0
  | BinExpr bo e1 e2 => has_side_effects e1 || has_side_effects e2
  | Assign x e0 => true
  | CallOrInvocation x es => true
  end.

(** An expression contains an assignment when it is one, or when one of its
    operands or arguments contains one. *)
Inductive ContainsAssign : expr -> Prop :=
  | CA_Assign : forall x e0, ContainsAssign (Assign x e0)
  | CA_ParenExpr : forall e0, ContainsAssign e0 -> ContainsAssign (ParenExpr e0)
  | CA_UnExpr : forall uo e0, ContainsAssign e0 -> ContainsAssign (UnExpr uo e0)
  | CA_BinExpr_l : forall bo e1 e2,
    ContainsAssign e1 -> ContainsAssign (BinExpr bo e1 e2)
  | CA_BinExpr_r : forall bo e1 e2,
    ContainsAssign e2 -> ContainsAssign (BinExpr bo e1 e2)
  | CA_CallOrInvocation : forall x es,
    Exists ContainsAssign es -> ContainsAssign (CallOrInvocation x es).

(** Modelled from the spec: the scope analyzer of [NoVarsInEnvironment.v],
    which is not among the source files.  [ExprNoVarsInEnvironment e E]
    holds when no [Var] node of [e] names an identifier bound in the local
    environment [E]; it is compositional over the other nodes, arguments
    included, and [Var] is the only node that can falsify it. *)
Inductive ExprNoVarsInEnvironment : expr -> environment -> Prop :=
  | NV_Num : forall z E,
    ExprNoVarsInEnvironment (Num z) E
  | NV_Var : forall x E,
    ~ StringMap.In x E ->
    ExprNoVarsInEnvironment (Var x) E
  | NV_ParenExpr : forall e0 E,
    ExprNoVarsInEnvironment e0 E ->
    ExprNoVarsInEnvironment (ParenExpr e0) E
  | NV_UnExpr : forall uo e0 E,
    ExprNoVarsInEnvironment e0 E ->
    ExprNoVarsInEnvironment (UnExpr uo e0) E
  | NV_BinExpr : forall bo e1 e2 E,
    ExprNoVarsInEnvironment e1 E ->
    ExprNoVarsInEnvironment e2 E ->
    ExprNoVarsInEnvironment (BinExpr bo e1 e2) E
  | NV_Assign : forall x e0 E,
    ExprNoVarsInEnvironment e0 E ->
    ExprNoVarsInEnvironment (Assign x e0) E
  | NV_CallOrInvocation : forall x es E,
    ExprListNoVarsInEnvironment es E ->
    ExprNoVarsInEnvironment (CallOrInvocation x es) E
with ExprListNoVarsInEnvironment : list expr -> environment -> Prop :=
  | NV_ExprList_nil : forall E,
    ExprListNoVarsInEnvironment nil E
  | NV_ExprList_cons : forall e es E,
    ExprNoVarsInEnvironment e E ->
    ExprListNoVarsInEnvironment es E ->
    ExprListNoVarsInEnvironment (e :: es) E.

(** The scope analyzer as a function
    ([NoVarsInEnvironment(expr, callerEnv) -> bool] in the spec). *)
Fixpoint no_vars_in_environment (e : expr) (E : environment) : bool :=
  match e with
  | Num z => true
  | Var x => negb (StringMap.mem x E)
  | ParenExpr e0 => no_vars_in_environment e0 E
  | UnExpr uo e0 => no_vars_in_environment e0 E
  | BinExpr bo e1 e2 =>
      no_vars_in_environment e1 E && no_vars_in_environment e2 E
  | Assign x e0 => no_vars_in_environment e0 E
  | CallOrInvocation x es =>
      forallb (fun a => no_vars_in_environment a E) es
  end.

(** Modelled from the spec: the nested-invocation analyzer of
    [NoMacroInvocations.v], which is not among the source files.
    [ExprNoMacroInvocations e F M] holds when no invocation inside [e], or
    inside its arguments, resolves to an entry of the macro table [M]; an
    invocation that is not bound in [M] does not falsify it. *)
Inductive ExprNoMacroInvocations :
  expr -> function_table -> macro_table -> Prop :=
  | NM_Num : forall z F M,
    ExprNoMacroInvocations (Num z) F M
  | NM_Var : forall x F M,
    ExprNoMacroInvocations (Var x) F M
  | NM_ParenExpr : forall e0 F M,
    ExprNoMacroInvocations e0 F M ->
    ExprNoMacroInvocations (ParenExpr e0) F M
  | NM_UnExpr : forall uo e0 F M,
    ExprNoMacroInvocations e0 F M ->
    ExprNoMacroInvocations (UnExpr uo e0) F M
  | NM_BinExpr : forall bo e1 e2 F M,
    ExprNoMacroInvocations e1 F M ->
    ExprNoMacroInvocations e2 F M ->
    ExprNoMacroInvocations (BinExpr bo e1 e2) F M
  | NM_Assign : forall x e0 F M,
    ExprNoMacroInvocations e0 F M ->
    ExprNoMacroInvocations (Assign x e0) F M
  | NM_CallOrInvocation : forall x es F M,
    ~ StringMap.In x M ->
    ExprListNoMacroInvocations es F M ->
    ExprNoMacroInvocations (CallOrInvocation x es) F M
with ExprListNoMacroInvocations :
  list expr -> function_table -> macro_table -> Prop :=
  | NM_ExprList_nil : forall F M,
    ExprListNoMacroInvocations nil F M
  | NM_ExprList_cons : forall e es F M,
    ExprNoMacroInvocations e F M ->
    ExprListNoMacroInvocations es F M ->
    ExprListNoMacroInvocations (e :: es) F M.

(** The nested-invocation analyzer as a function
    ([NoMacroInvocations(expr, functionTable, macroTable) -> bool] in the
    spec). *)
Fixpoint no_macro_invocations
  (e : expr) (F : function_table) (M : macro_table) : bool :=
  match e with
  | Num z => true
  | Var x => true
  | ParenExpr e0 => no_macro_invocations e0 F M
  | UnExpr uo e0 => no_macro_invocations e0 F M
  | BinExpr bo e1 e2 =>
      no_macro_invocations e1 F M && no_macro_invocations e2 F M
  | Assign x e0 => no_macro_invocations e0 F M
  | CallOrInvocation x es =>
      negb (StringMap.mem x M) &&
      forallb (fun a => no_macro_invocations a F M) es
  end.

(** ** Expressions that reach none of a set of new definitions

    Modelled from the spec: the predicates of [NoCallsFromFunctionTable.v],
    which is not among the source files.  The spec asks that a generated
    function get a fresh name, one that collides with nothing visible when
    it is emitted.  [ExprNoCallsFromFunctionTable e F M F'] says so for the
    new definitions [F']: evaluating [e] under the function table [F] and
    the macro table [M] calls no name of [F'], neither in [e] itself, nor in
    the body of a function it calls, nor in the expansion of a macro it
    invokes. *)
Inductive ExprNoCallsFromFunctionTable :
  expr -> function_table -> macro_table -> function_table -> Prop :=
  | NC_Num : forall z F M F',
    ExprNoCallsFromFunctionTable (Num z) F M F'
  | NC_Var : forall x F M F',
    ExprNoCallsFromFunctionTable (Var x) F M F'
  | NC_ParenExpr : forall e0 F M F',
    ExprNoCallsFromFunctionTable e0 F M F' ->
    ExprNoCallsFromFunctionTable (ParenExpr e0) F M F'
  | NC_UnExpr : forall uo e0 F M F',
    ExprNoCallsFromFunctionTable e0 F M F' ->
    ExprNoCallsFromFunctionTable (UnExpr uo e0) F M F'
  | NC_BinExpr : forall bo e1 e2 F M F',
    ExprNoCallsFromFunctionTable e1 F M F' ->
    ExprNoCallsFromFunctionTable e2 F M F' ->
    ExprNoCallsFromFunctionTable (BinExpr bo e1 e2) F M F'
  | NC_Assign : forall x e0 F M F',
    ExprNoCallsFromFunctionTable e0 F M F' ->
    ExprNoCallsFromFunctionTable (Assign x e0) F M F'
  | NC_FunctionCall : forall x es F M F' params fstmt fexpr,
    ~ StringMap.In x M ->
    ~ StringMap.In x F' ->
    StringMap.MapsTo x (params, fstmt, fexpr) F ->
    ExprListNoCallsFromFunctionTable es F M F' ->
    StmtNoCallsFromFunctionTable fstmt F M F' ->
    ExprNoCallsFromFunctionTable fexpr F M F' ->
    ExprNoCallsFromFunctionTable (CallOrInvocation x es) F M F'
  | NC_MacroInvocation : forall x es F M F' params mexpr ef,
    StringMap.MapsTo x (params, mexpr) M ->
    MacroSubst params es mexpr ef ->
    ExprNoCallsFromFunctionTable ef F (StringMap.remove x M) F' ->
    ExprNoCallsFromFunctionTable (CallOrInvocation x es) F M F'
with ExprListNoCallsFromFunctionTable :
  list expr -> function_table -> macro_table -> function_table -> Prop :=
  | NC_ExprList_nil : forall F M F',
    ExprListNoCallsFromFunctionTable nil F M F'
  | NC_ExprList_cons : forall e es F M F',
    ExprNoCallsFromFunctionTable e F M F' ->
    ExprListNoCallsFromFunctionTable es F M F' ->
    ExprListNoCallsFromFunctionTable (e :: es) F M F'
with StmtNoCallsFromFunctionTable :
  stmt -> function_table -> macro_table -> function_table -> Prop :=
  | NC_Skip : forall F M F',
    StmtNoCallsFromFunctionTable Skip F M F'
  | NC_Expr : forall e0 F M F',
    ExprNoCallsFromFunctionTable e0 F M F' ->
    StmtNoCallsFromFunctionTable (Expr e0) F M F'
  | NC_IfElse : forall cond s1 s2 F M F',
    ExprNoCallsFromFunctionTable cond F M F' ->
    StmtNoCallsFromFunctionTable s1 F M F' ->
    StmtNoCallsFromFunctionTable s2 F M F' ->
    StmtNoCallsFromFunctionTable (IfElse cond s1 s2) F M F'
  | NC_While : forall cond s0 F M F',
    ExprNoCallsFromFunctionTable cond F M F' ->
    StmtNoCallsFromFunctionTable s0 F M F' ->
    StmtNoCallsFromFunctionTable (While cond s0) F M F'
  | NC_Compound_nil : forall F M F',
    StmtNoCallsFromFunctionTable (Compound nil) F M F'
  | NC_Compound_cons : forall s ss F M F',
    StmtNoCallsFromFunctionTable s F M F' ->
    StmtNoCallsFromFunctionTable (Compound ss) F M F' ->
    StmtNoCallsFromFunctionTable (Compound (s :: ss)) F M F'.

(** ** Macro substitution as a function

    [MSub] and [MacroSubst] are relations in the source.  They are
    functional, and partial only at an assignment to the parameter when the
    argument is not a variable; [msub] and [macro_subst] compute them. *)
Fixpoint msub (p : string) (e : expr) (m : expr) : option expr :=
  match m with
  | Num z => Some (Num z)
  | Var x => if string_dec p x then Some e else Some (Var x)
  | ParenExpr e0 => option_map ParenExpr (msub p e e0)
  | UnExpr uo e0 => option_map (UnExpr uo) (msub p e e0)
  | BinExpr bo e1 e2 =>
      match msub p e e1, msub p e e2 with
      | Some e1', Some e2' => Some (BinExpr bo e1' e2')
      | _, _ => None
      end
  | Assign x e0 =>
      if string_dec p x then
        match e with
        | Var y => option_map (Assign y) (msub p e e0)
        | _ => None
        end
      else option_map (Assign x) (msub p e e0)
  | CallOrInvocation x es =>
      option_map (CallOrInvocation x)
        ((fix msub_list (l : list expr) : option (list expr) :=
            match l with
            | nil => Some nil
            | a :: l' =>
                match msub p e a, msub_list l' with
                | Some a', Some l'' => Some (a' :: l'')
                | _, _ => None
                end
            end) es)
  end.

Fixpoint msub_list (p : string) (e : expr) (l : list expr)
  : option (list expr) :=
  match l with
  | nil => Some nil
  | a :: l' =>
      match msub p e a, msub_list p e l' with
      | Some a', Some l'' => Some (a' :: l'')
      | _, _ => None
      end
  end.

Fixpoint macro_subst (ps : list string) (es : list expr) (m : expr)
  : option expr :=
  match ps, es with
  | nil, nil => Some m
  | p :: ps', e :: es' =>
      match msub p e m with
      | Some ef => macro_subst ps' es' ef
      | None => None
      end
  | _, _ => None
  end.

(** ** The transformability decision procedure

    Modelled from the spec: the decision procedure and the code generator
    of the C++ implementation, which are not among the source files
    (section 4.4 and 4.5 of the spec).  The input is one macro invocation:
    the resolved macro definition, the argument expressions, the tables and
    the caller's local environment.  The conditions are checked in the
    order of the spec's decision table, and the first one that fails gives
    the reason of the rejection.  Where [Theorems.v] and the test programs
    show what the implementation accepts, the procedure follows them:
    - the scope condition is asked of every macro, function-like ones
      included: the function-like case of [Theorems.v] rests on
      [not_ExprSideEffects_ExprNoVarsInEnvironment_call_by_name_call_by_value],
      which asks [ExprNoVarsInEnvironment] of the body in the caller's
      environment, as the object-like case does;
    - a function-like macro is accepted in the one shape that case has, a
      single parameter and a body that is a variable: the test program on
      conditional evaluation says of the invocations of [A_THEN_B], a macro
      of two parameters, that they are not transformed, and that
      transforming the safe ones is left for later. *)
Inductive Strategy : Type :=
  | ObjectLikeToNullaryFunction
  | FunctionLikeToFunction.

Inductive Reason : Type :=
  | ArityMismatch
  | MalformedMacro
  | NestedMacro
  | CapturesCallerScope
  | UnsafeArgument
  | SideEffectingBody.

Inductive Verdict : Type :=
  | Transformable (strategy : Strategy)
  | NotTransformable (reason : Reason).

Definition is_bare_variable (e : expr) : bool :=
  match e with
  | Var _ => true
  | _ => false
  end.

(** Condition 5: each argument has no side effects and invokes no macro. *)
Definition argument_is_safe
  (F : function_table) (M : macro_table) (a : expr) : bool :=
  negb (has_side_effects a) && no_macro_invocations a F M.

(** Condition 2: the parameter names contain no duplicates. *)
Fixpoint no_duplicates (l : list string) : bool :=
  match l with
  | nil => true
  | a :: l' => negb (existsb (String.eqb a) l') && no_duplicates l'
  end.

(** The conditions in the order of the decision table.  Condition 4, the
    scope condition, is asked of every macro.  Condition 5 accepts a single
    argument that has no side effects and invokes no macro; a macro of two
    or more parameters is rejected under it.  Condition 6 asks of an
    object-like macro that its body has no side effects, and of a
    function-like macro that its body is a variable, the body that relies
    on condition 5 alone. *)
Definition decide_transformable
  (F : function_table) (M : macro_table) (callerEnv : environment)
  (mdef : macro_definition) (args : list expr) : Verdict :=
  let (params, body) := mdef in
  if negb (Nat.eqb (List.length args) (List.length params)) then
    NotTransformable ArityMismatch
  else if negb (no_duplicates params) then
    NotTransformable MalformedMacro
  else if negb (no_macro_invocations body F M) then
    NotTransformable NestedMacro
  else if negb (no_vars_in_environment body callerEnv) then
    NotTransformable CapturesCallerScope
  else
    match params with
    | nil =>
        if has_side_effects body then NotTransformable SideEffectingBody
        else Transformable ObjectLikeToNullaryFunction
    | _ :: nil =>
        if negb (forallb (argument_is_safe F M) args) then
          NotTransformable UnsafeArgument
        else if negb (is_bare_variable body) then
          NotTransformable SideEffectingBody
        else Transformable FunctionLikeToFunction
    | _ :: _ :: _ => NotTransformable UnsafeArgument
    end.

(** The function generated for a transformable macro: the macro's
    parameters, an empty body, and the macro body, not substituted, as the
    return expression. *)
Definition generated_definition (mdef : macro_definition)
  : function_definition :=
  (fst mdef, Skip, snd mdef).

(** ** The transformation

    Modelled from the spec: the transformation relation of
    [Transformations.v], which is not among the source files.
    [TransformExpr M F e F' e'] relates an expression [e] under the
    function table [F] to its transformation [e'] under the table [F'];
    [Theorems.v] states the soundness theorem over it and over its
    companions for argument lists and statements.  The rules are:
    - numerals and variables are left as they are, and the other nodes are
      transformed operand by operand, the tables threaded from left to
      right; what one step adds to the table is never reached by what is
      evaluated under the table of another step;
    - a function call transforms its arguments and the definition of its
      callee;
    - a macro invocation may always be left untransformed (a rejected site
      is left as it is);
    - a transformable invocation is rewritten into a call of a generated
      function with a fresh name, the arguments carried over unchanged:
      [ObjectLikeToNullaryFunction] gives a function with no parameter,
      body [Skip] and the macro body as return expression;
      [FunctionLikeToFunction] gives a function with the macro's parameter,
      body [Skip] and the macro body, not substituted, as return
      expression.  As in [Theorems.v], the function-like rule covers a
      macro with one parameter whose body is a variable.
    The relation is not given the caller's environment, so the scope
    condition of the decision table is asked of every environment in which
    the invocation evaluates. *)
Inductive TransformExpr :
  macro_table -> function_table -> expr -> function_table -> expr -> Prop :=
  | Transform_Num : forall M F z,
    TransformExpr M F (Num z) F (Num z)
  | Transform_Var : forall M F x,
    TransformExpr M F (Var x) F (Var x)
  | Transform_ParenExpr : forall M F e0 F' e0',
    TransformExpr M F e0 F' e0' ->
    TransformExpr M F (ParenExpr e0) F' (ParenExpr e0')
  | Transform_UnExpr : forall M F e0 F' e0' uo,
    TransformExpr M F e0 F' e0' ->
    TransformExpr M F (UnExpr uo e0) F' (UnExpr uo e0')
  | Transform_BinExpr :
    forall bo M F e1 e2 F' F'' e1' e2' F1result F2result,
    (*  Transform the left operand *)
    TransformExpr M F e1 F' e1' ->
    F' = StringMapProperties.update F F1result ->
    (*  Transform the right operand *)
    TransformExpr M F' e2 F'' e2' ->
    F'' = StringMapProperties.update F' F2result ->
    (*  The right operand reaches nothing that the left one added *)
    ExprNoCallsFromFunctionTable e2 F M F1result ->
    (*  The transformed left operand reaches nothing that the right one
        added *)
    ExprNoCallsFromFunctionTable e1' F' M F2result ->
    TransformExpr M F (BinExpr bo e1 e2) F'' (BinExpr bo e1' e2')
  | Transform_Assign : forall M F x e F' e',
    TransformExpr M F e F' e' ->
    TransformExpr M F (Assign x e) F' (Assign x e')
  | Transform_FunctionCall :
    forall F M x es F' F'' F''' F'''' es' newdef
           params fstmt fexpr fstmt' fexpr'
           Fesresult Fstmtresult Fexprresult,
    (*  A function call, not a macro invocation *)
    ~ StringMap.In x M ->
    StringMap.MapsTo x (params, fstmt, fexpr) F ->
    (*  Transform the arguments *)
    TransformExprList M F es F' es' ->
    F' = StringMapProperties.update F Fesresult ->
    (*  Transform the body of the callee *)
    TransformStmt M F' fstmt F'' fstmt' ->
    F'' = StringMapProperties.update F' Fstmtresult ->
    (*  Transform the return expression of the callee *)
    TransformExpr M F'' fexpr F''' fexpr' ->
    F''' = StringMapProperties.update F'' Fexprresult ->
    (*  The callee gets its transformed definition *)
    newdef = (params, fstmt', fexpr') ->
    F'''' = StringMapProperties.update F'''
              (StringMap.add x newdef (StringMap.empty function_definition)) ->
    (*  What each step adds is reached by nothing evaluated under the
        table of another step *)
    ExprListNoCallsFromFunctionTable es' F' M Fstmtresult ->
    ExprListNoCallsFromFunctionTable es' F'' M Fexprresult ->
    ExprListNoCallsFromFunctionTable es' F''' M
      (StringMap.add x newdef (StringMap.empty function_definition)) ->
    StmtNoCallsFromFunctionTable fstmt F M Fesresult ->
    StmtNoCallsFromFunctionTable fstmt' F'' M Fexprresult ->
    StmtNoCallsFromFunctionTable fstmt' F''' M
      (StringMap.add x newdef (StringMap.empty function_definition)) ->
    ExprNoCallsFromFunctionTable fexpr F M Fesresult ->
    ExprNoCallsFromFunctionTable fexpr F' M Fstmtresult ->
    ExprNoCallsFromFunctionTable fexpr' F''' M
      (StringMap.add x newdef (StringMap.empty function_definition)) ->
    TransformExpr M F (CallOrInvocation x es) F'''' (CallOrInvocation x es')
  | Transform_MacroIdentity : forall F M x es params mexpr,
    StringMap.MapsTo x (params, mexpr) M ->
    TransformExpr M F (CallOrInvocation x es) F (CallOrInvocation x es)
  | Transform_FunctionLikeMacro1ArgNoSideEffectsBodyVar :
    forall F M x F' p e y fname newdef,
    (*  A macro with one parameter whose body is a variable *)
    StringMap.MapsTo x (p :: nil, Var y) M ->
    (*  The argument has no side effects *)
    ~ ExprHasSideEffects e ->
    (*  The body names no variable of the caller's environment; its own
        parameter does not count as one *)
    (forall S E G v S',
      EvalExpr S E G F M (CallOrInvocation x (e :: nil)) v S' ->
      ExprNoVarsInEnvironment (Var y) (StringMap.remove p E)) ->
    (*  The generated function gets a fresh name *)
    ~ StringMap.In fname M ->
    ~ StringMap.In fname F ->
    newdef = (p :: nil, Skip, Var y) ->
    F' = StringMap.add fname newdef F ->
    TransformExpr M F (CallOrInvocation x (e :: nil))
      F' (CallOrInvocation fname (e :: nil))
  | Transform_ObjectLikeMacroNoSideEffectsNoSharedVarsNoNestedMacros :
    forall F M x F' mexpr fname newdef,
    (*  A macro with no parameter *)
    StringMap.MapsTo x (nil, mexpr) M ->
    (*  The body has no side effects *)
    ~ ExprHasSideEffects mexpr ->
    (*  The body names no variable of the caller's environment *)
    (forall S E G v S',
      EvalExpr S E G F M (CallOrInvocation x nil) v S' ->
      ExprNoVarsInEnvironment mexpr E) ->
    (*  The body invokes no macro *)
    ExprNoMacroInvocations mexpr F M ->
    (*  The generated function gets a fresh name *)
    ~ StringMap.In fname M ->
    ~ StringMap.In fname F ->
    newdef = (nil, Skip, mexpr) ->
    F' = StringMap.add fname newdef F ->
    TransformExpr M F (CallOrInvocation x nil) F' (CallOrInvocation fname nil)
with TransformExprList :
  macro_table -> function_table -> list expr ->
  function_table -> list expr -> Prop :=
  | TransformExprList_Nil : forall M F,
    TransformExprList M F nil F nil
  | TransformExprList_Cons :
    forall M F e es F' F'' e' es' Feresult Fesresult,
    (*  Transform the first expression *)
    TransformExpr M F e F' e' ->
    F' = StringMapProperties.update F Feresult ->
    (*  Transform the remaining expressions *)
    TransformExprList M F' es F'' es' ->
    F'' = StringMapProperties.update F' Fesresult ->
    ExprListNoCallsFromFunctionTable es F M Feresult ->
    ExprNoCallsFromFunctionTable e' F' M Fesresult ->
    TransformExprList M F (e :: es) F'' (e' :: es')
with TransformStmt :
  macro_table -> function_table -> stmt -> function_table -> stmt -> Prop :=
  | Transform_Skip : forall M F,
    TransformStmt M F Skip F Skip
  | Transform_Expr : forall M F e F' e',
    TransformExpr M F e F' e' ->
    TransformStmt M F (Expr e) F' (Expr e')
  | Transform_IfElse :
    forall M F cond s1 s2 F' F'' F''' cond' s1' s2'
           Fcondresult Fs1result Fs2result,
    TransformExpr M F cond F' cond' ->
    F' = StringMapProperties.update F Fcondresult ->
    TransformStmt M F' s1 F'' s1' ->
    F'' = StringMapProperties.update F' Fs1result ->
    TransformStmt M F'' s2 F''' s2' ->
    F''' = StringMapProperties.update F'' Fs2result ->
    ExprNoCallsFromFunctionTable cond' F' M Fs1result ->
    ExprNoCallsFromFunctionTable cond' F'' M Fs2result ->
    StmtNoCallsFromFunctionTable s1 F M Fcondresult ->
    StmtNoCallsFromFunctionTable s1' F'' M Fs2result ->
    StmtNoCallsFromFunctionTable s2 F M Fcondresult ->
    StmtNoCallsFromFunctionTable s2 F' M Fs1result ->
    TransformStmt M F (IfElse cond s1 s2) F''' (IfElse cond' s1' s2')
  | Transform_While :
    forall M F cond s0 F' F'' cond' s0' Fcondresult Fs0result,
    TransformExpr M F cond F' cond' ->
    F' = StringMapProperties.update F Fcondresult ->
    TransformStmt M F' s0 F'' s0' ->
    F'' = StringMapProperties.update F' Fs0result ->
    ExprNoCallsFromFunctionTable cond' F' M Fs0result ->
    StmtNoCallsFromFunctionTable s0 F M Fcondresult ->
    TransformStmt M F (While cond s0) F'' (While cond' s0')
  | Transform_Compound_nil : forall M F,
    TransformStmt M F (Compound nil) F (Compound nil)
  | Transform_Compound_cons :
    forall M F s ss F' F'' s' ss' Fsresult Fssresult,
    TransformStmt M F s F' s' ->
    F' = StringMapProperties.update F Fsresult ->
    TransformStmt M F' (Compound ss) F'' (Compound ss') ->
    F'' = StringMapProperties.update F' Fssresult ->
    StmtNoCallsFromFunctionTable s' F' M Fssresult ->
    StmtNoCallsFromFunctionTable (Compound ss) F M Fsresult ->
    TransformStmt M F (Compound (s :: ss)) F'' (Compound (s' :: ss')).

Scheme TransformExpr_min := Minimality for TransformExpr Sort Prop
with TransformExprList_min := Minimality for TransformExprList Sort Prop
with TransformStmt_min := Minimality for TransformStmt Sort Prop.

Combined Scheme Transform_mutind from
  TransformExpr_min, TransformExprList_min, TransformStmt_min.

(** ** The log of the transformer ([Utils/Logging/TransformerMessages.cc])

    The transformer reports every macro definition, every expansion and
    every transformation on an output stream, one record on a line.  The
    five functions of [TransformerMessages.cc] that write the records are
    given here as they are written.  The stream is the string written so
    far and [OS << s] writes [s] at its end.  The Clang types, their
    accessors and the helpers of [Utils/ExpansionUtils.hh] are not among
    the source files: they are variables, and a record is a string built
    from what they return. *)

Definition raw_fd_ostream : Type := string.

Definition write (OS : raw_fd_ostream) (s : string) : raw_fd_ostream :=
  (OS ++ s)%string.

Declare Scope stream_scope.
Delimit Scope stream_scope with stream.
Infix "<<" := write (at level 50, left associativity) : stream_scope.

(** The double quote, the line feed and the comma: the first two are
    escapes in the source. *)
Definition double_quote : ascii := ascii_of_nat 34.
Definition line_feed : ascii := ascii_of_nat 10.
Definition comma : ascii := ascii_of_nat 44.

Variables ASTContext SourceManager LangOptions : Type.
Variables MacroInfo SourceLocation Stmt : Type.
Variable getSourceManager : ASTContext -> SourceManager.
Variable getLangOpts : ASTContext -> LangOptions.
Variable getDefinitionLoc : MacroInfo -> SourceLocation.
Variable printToString : SourceLocation -> SourceManager -> string.
Variable hashMacro : MacroInfo -> SourceManager -> LangOptions -> string.
Variable getNameOfTopLevelVarOrFunctionDeclStmtExpandedIn :
  ASTContext -> option Stmt -> string.

Record SourceRange : Type := {
  getBegin : SourceLocation;
  getEnd : SourceLocation
}.

(** [MacroDirective] and [MacroDefinition] are read through
    [getMacroInfo] only. *)
Record MacroDirective : Type := {
  MacroDirective_getMacroInfo : MacroInfo
}.

Record MacroDefinition : Type := {
  MacroDefinition_getMacroInfo : MacroInfo
}.

Record MacroExpansionNode : Type := {
  getMI : MacroInfo;
  getSpellingRange : SourceRange;
  getStmtsRef : list Stmt
}.

(** A transformed definition holds the name it is emitted under, which
    [emitTransformedDefinitionMessage] writes to, the expansion it comes
    from, and whatever else its signature is printed from. *)
Variable TransformedDefinitionRest : Type.

Record TransformedDefinition : Type := {
  getEmittedName : string;
  getExpansion : MacroExpansionNode;
  getRest : TransformedDefinitionRest
}.

Definition setEmittedName (TD : TransformedDefinition) (name : string)
  : TransformedDefinition :=
  {| getEmittedName := name;
     getExpansion := getExpansion TD;
     getRest := getRest TD |}.

Variable getExpansionSignatureOrDeclaration :
  TransformedDefinition -> ASTContext -> bool -> string.

Local Open Scope stream_scope.
Local Open Scope string_scope.

Definition emitUntransformedMessage
  (OS : raw_fd_ostream) (Ctx : ASTContext) (Expansion : MacroExpansionNode)
  (Category Reason : string) : raw_fd_ostream :=
  let SM := getSourceManager Ctx in
  let LO := getLangOpts Ctx in
  let ST := match getStmtsRef Expansion with
            | ST :: _ => Some ST
            | nil => None
            end in
  let s := getNameOfTopLevelVarOrFunctionDeclStmtExpandedIn Ctx ST in
  OS << "CPP2C:"
     << "Untransformed Expansion,"
     << String double_quote "" << hashMacro (getMI Expansion) SM LO
     << String double_quote ","
     << printToString (getBegin (getSpellingRange Expansion)) SM << ","
     << s << ","
     << Category << ","
     << Reason << String line_feed "".

Definition emitMacroDefinitionMessage
  (OS : raw_fd_ostream) (MD : MacroDirective)
  (SM : SourceManager) (LO : LangOptions) : raw_fd_ostream :=
  OS << "CPP2C:"
     << "Macro Definition,"
     << String double_quote ""
     << hashMacro (MacroDirective_getMacroInfo MD) SM LO
     << String double_quote "" << ","
     << printToString (getDefinitionLoc (MacroDirective_getMacroInfo MD)) SM
     << String line_feed "".

Definition emitMacroExpansionMessage
  (OS : raw_fd_ostream) (SpellingRange : SourceRange)
  (MD : MacroDefinition) (SM : SourceManager) (LO : LangOptions)
  : raw_fd_ostream :=
  let SpellingLoc := getBegin SpellingRange in
  OS << "CPP2C:"
     << "Macro Expansion,"
     << String double_quote ""
     << hashMacro (MacroDefinition_getMacroInfo MD) SM LO
     << String double_quote ","
     << printToString SpellingLoc SM << String line_feed "".

(** The function empties the emitted name, prints the signature, writes the
    record and puts the name back: it returns the stream and the
    definition as it leaves it. *)
Definition emitTransformedDefinitionMessage
  (OS : raw_fd_ostream) (TD : TransformedDefinition) (Ctx : ASTContext)
  (SM : SourceManager) (LO : LangOptions)
  : raw_fd_ostream * TransformedDefinition :=
  let temp := getEmittedName TD in
  let TD := setEmittedName TD "" in
  let TransformedSignatureNoName :=
    getExpansionSignatureOrDeclaration TD Ctx true in
  let OS :=
    OS << "CPP2C:"
       << "Transformed Definition,"
       << String double_quote ""
       << hashMacro (getMI (getExpansion TD)) SM LO
       << String double_quote ","
       << String double_quote "" << TransformedSignatureNoName
       << String double_quote ""
       << ","
       << temp << String line_feed "" in
  let TD := setEmittedName TD temp in
  (OS, TD).

(** The function reads the first statement of the expansion without asking
    whether there is one: on an expansion without statements it has no
    defined result. *)
Definition emitTransformedExpansionMessage
  (OS : raw_fd_ostream) (Expansion : MacroExpansionNode) (Ctx : ASTContext)
  (SM : SourceManager) (LO : LangOptions) : option raw_fd_ostream :=
  match getStmtsRef Expansion with
  | nil => None
  | ST :: _ =>
      let s := getNameOfTopLevelVarOrFunctionDeclStmtExpandedIn Ctx (Some ST) in
      Some
        (OS << "CPP2C:"
            << "Transformed Expansion,"
            << String double_quote "" << hashMacro (getMI Expansion) SM LO
            << String double_quote ","
            << printToString (getBegin (getSpellingRange Expansion)) SM << ","
            << s << String line_feed "")
  end.

Local Close Scope stream_scope.
Local Close Scope string_scope.

(** [contains ch s] tells whether the character [ch] occurs in [s]: the
    fields of a record are told apart by the quotes and commas between
    them. *)
Fixpoint contains (ch : ascii) (s : string) : bool :=
  match s with
  | EmptyString => false
  | String c s' => if Ascii.eqb c ch then true else contains ch s'
  end.

(** * Lemmas *)

Lemma F_extends_refl : forall F, F_extends F F.
Proof. intros F x fdef Hm. exact Hm. Qed.

Lemma F_extends_trans :
  forall F1 F2 F3, F_extends F1 F2 -> F_extends F2 F3 -> F_extends F1 F3.
Proof. intros F1 F2 F3 H12 H23 x fdef Hm. apply H23, H12, Hm. Qed.

Lemma F_extends_add :
  forall F x (fdef : function_definition),
  ~ StringMap.In x F -> F_extends F (StringMap.add x fdef F).
Proof.
  intros F x fdef Hnin y d Hm.
  apply StringMapFacts.add_mapsto_iff. right. split; [| exact Hm].
  intros Heq. subst y. apply Hnin. exists d. exact Hm.
Qed.

Lemma F_extends_update :
  forall F F' : function_table,
  StringMapProperties.Disjoint F F' ->
  F_extends F (StringMapProperties.update F F').
Proof.
  intros F F' Hd y d Hm.
  apply StringMapProperties.update_mapsto_iff. right. split; [exact Hm |].
  intros Hin. apply (Hd y). split; [exists d; exact Hm | exact Hin].
Qed.

Lemma Eval_F_extends :
  (forall S E G F M e v S',
    EvalExpr S E G F M e v S' ->
    forall F2, F_extends F F2 -> EvalExpr S E G F2 M e v S') /\
  (forall S E G F M s S',
    EvalStmt S E G F M s S' ->
    forall F2, F_extends F F2 -> EvalStmt S E G F2 M s S') /\
  (forall S E G F M ps es vs S' Ef Sargs l ls,
    EvalExprList S E G F M ps es vs S' Ef Sargs l ls ->
    forall F2, F_extends F F2 ->
    EvalExprList S E G F2 M ps es vs S' Ef Sargs l ls).
Proof.
  apply Eval_mutind; intros; try (econstructor; now eauto).
Qed.

(** ** Evaluation and equal stores

    Every rule reads and writes stores up to [NatMap.Equal], so a judgment
    can be moved along an equality of its initial store and along an
    equality of its final store. *)
Lemma Eval_store_Equal :
  (forall S E G F M e v S',
    EvalExpr S E G F M e v S' ->
    forall S2 S2', NatMap.Equal S S2 -> NatMap.Equal S' S2' ->
    EvalExpr S2 E G F M e v S2') /\
  (forall S E G F M s S',
    EvalStmt S E G F M s S' ->
    forall S2 S2', NatMap.Equal S S2 -> NatMap.Equal S' S2' ->
    EvalStmt S2 E G F M s S2') /\
  (forall S E G F M ps es vs S' Ef Sargs l ls,
    EvalExprList S E G F M ps es vs S' Ef Sargs l ls ->
    forall S2 S2', NatMap.Equal S S2 -> NatMap.Equal S' S2' ->
    EvalExprList S2 E G F M ps es vs S2' Ef Sargs l ls).
Proof.
  apply Eval_mutind; intros.
  - (* Num *)
    constructor. rewrite <- H0, <- H1. assumption.
  - (* local variable *)
    apply E_LocalVar with l; auto.
    + rewrite <- H2, <- H3. assumption.
    + rewrite <- H2. assumption.
  - (* global variable *)
    apply E_GlobalVar with l; auto.
    + rewrite <- H3, <- H4. assumption.
    + rewrite <- H3. assumption.
  - constructor. auto.
  - constructor. auto.
  - apply E_BinExpr with S'.
    + apply H0; [assumption | reflexivity].
    + apply H2; [reflexivity | assumption].
  - apply E_Assign_Local with l S'; auto.
    + apply H1; [assumption | reflexivity].
    + rewrite <- H4, <- H3. assumption.
  - apply E_Assign_Global with l S'; auto.
    + apply H2; [assumption | reflexivity].
    + rewrite <- H5, <- H4. assumption.
  - (* function call *)
    apply E_FunctionCall with
      params fstmt fexpr l ls Ef Sargs S' S'' S''' S'''' vs; auto.
    + apply H3; [assumption | reflexivity].
    + rewrite <- H14, <- H13. assumption.
  - (* macro invocation *)
    apply E_MacroInvocation with params mexpr M' ef; auto.
  - constructor. rewrite <- H0, <- H1. assumption.
  - apply E_Expr with v. auto.
  - apply E_IfElseFalse with v S'; auto.
    + apply H0; [assumption | reflexivity].
    + apply H3; [reflexivity | assumption].
  - apply E_IfElseTrue with v S'; auto.
    + apply H0; [assumption | reflexivity].
    + apply H3; [reflexivity | assumption].
  - apply E_WhileFalse with v; auto.
  - apply E_WhileTrue with v S' S''; [| assumption | assumption |].
    + apply H0; [assumption | reflexivity].
    + apply H5; [reflexivity | assumption].
  - constructor. rewrite <- H0, <- H1. assumption.
  - apply E_CompoundStmt_cons with S'.
    + apply H0; [assumption | reflexivity].
    + apply H2; [reflexivity | assumption].
  - constructor. rewrite <- H0, <- H1. assumption.
  - apply E_ExprList_cons with Snext; auto.
    + apply H0; [assumption | reflexivity].
    + apply H2; [reflexivity | assumption].
Qed.

Lemma S_Equal_EvalExpr : forall S_1 E G F M e v S',
  EvalExpr S_1 E G F M e v S' ->
  forall S_2, NatMap.Equal S_1 S_2 -> EvalExpr S_2 E G F M e v S'.
Proof.
  intros. destruct Eval_store_Equal as [He _].
  eapply He; eauto. reflexivity.
Qed.

Lemma S'_Equal_EvalExpr : forall S E G F M e v S'_1,
  EvalExpr S E G F M e v S'_1 ->
  forall S'_2, NatMap.Equal S'_1 S'_2 -> EvalExpr S E G F M e v S'_2.
Proof.
  intros. destruct Eval_store_Equal as [He _].
  eapply He; eauto. reflexivity.
Qed.

Lemma S_Equal_EvalStmt : forall S_1 E G F M st S',
  EvalStmt S_1 E G F M st S' ->
  forall S_2, NatMap.Equal S_1 S_2 -> EvalStmt S_2 E G F M st S'.
Proof.
  intros. destruct Eval_store_Equal as [_ [Hs _]].
  eapply Hs; eauto. reflexivity.
Qed.

Lemma S'_Equal_EvalStmt : forall S E G F M st S'_1,
  EvalStmt S E G F M st S'_1 ->
  forall S'_2, NatMap.Equal S'_1 S'_2 -> EvalStmt S E G F M st S'_2.
Proof.
  intros. destruct Eval_store_Equal as [_ [Hs _]].
  eapply Hs; eauto. reflexivity.
Qed.

Lemma S_Equal_EvalExprList :
  forall S_1 Ecaller G F M ps es vs Snext Ef Sargs l ls,
  EvalExprList S_1 Ecaller G F M ps es vs Snext Ef Sargs l ls ->
  forall S_2, NatMap.Equal S_1 S_2 ->
  EvalExprList S_2 Ecaller G F M ps es vs Snext Ef Sargs l ls.
Proof.
  intros. destruct Eval_store_Equal as [_ [_ Hl]].
  eapply Hl; eauto. reflexivity.
Qed.

(** ** Determinism of macro substitution *)

Lemma MSub_deterministic : forall p e mexpr ef,
  MSub p e mexpr ef ->
  forall ef0, MSub p e mexpr ef0 -> ef = ef0.
Proof.
  apply (MSub_mut
    (fun p e mexpr ef (_ : MSub p e mexpr ef) =>
      forall ef0, MSub p e mexpr ef0 -> ef = ef0)
    (fun p e es es' (_ : MSubList p e es es') =>
      forall es'0, MSubList p e es es'0 -> es' = es'0)).
  - intros p e z ef0 H0. inversion H0; reflexivity.
  - intros p e x Hpx ef0 H0. inversion H0; subst; [reflexivity | contradiction].
  - intros p e x Hpx ef0 H0. inversion H0; subst; [contradiction | reflexivity].
  - intros p e e0 e0' _ IH ef0 H0. inversion H0; subst. f_equal. auto.
  - intros p e uo e0 e0' _ IH ef0 H0. inversion H0; subst. f_equal. auto.
  - intros p e bo e1 e2 e1' e2' _ IH1 _ IH2 ef0 H0. inversion H0; subst.
    f_equal; auto.
  - intros p e x y e0 e0' Hpx Hey _ IH ef0 H0. inversion H0; subst.
    + match goal with
      | Hv : Var _ = Var _ |- _ => injection Hv as Hv; subst
      end.
      f_equal. auto.
    + contradiction.
  - intros p e x e0 e0' Hpx _ IH ef0 H0. inversion H0; subst.
    + contradiction.
    + f_equal. auto.
  - intros p e x es es' _ IH ef0 H0. inversion H0; subst. f_equal. auto.
  - intros p e es'0 H0. inversion H0. reflexivity.
  - intros p e e0 e0' es0 es0' _ IH1 _ IH2 es'0 H0. inversion H0; subst.
    f_equal; auto.
Qed.

Lemma MacroSubst_deterministic : forall params es mexpr ef,
  MacroSubst params es mexpr ef ->
  forall ef0, MacroSubst params es mexpr ef0 -> ef = ef0.
Proof.
  intros params es mexpr ef H. induction H; intros ef0 Hs.
  - inversion Hs. reflexivity.
  - inversion Hs; subst.
    assert (ef = ef1) by (eapply MSub_deterministic; eauto).
    subst ef1. auto.
Qed.

(** ** Determinism of evaluation

    The three judgments are proved deterministic together.  The statement
    lets the two derivations start from stores that are only equal as maps:
    that is what the second operand of a binary expression, the body of a
    callee and the next statement of a block start from. *)

Ltac functional_maps :=
  repeat match goal with
  | H1 : StringMap.MapsTo ?x ?a ?m, H2 : StringMap.MapsTo ?x ?b ?m |- _ =>
      let Heq := fresh "Heq" in
      assert (Heq : a = b) by (exact (StringMapFacts.MapsTo_fun H1 H2));
      clear H2; try (injection Heq as Heq); subst
  | H1 : StringMap.MapsTo ?x _ ?m, H2 : ~ StringMap.In ?x ?m |- _ =>
      exfalso; apply H2; eapply StringMap_mapsto_in; exact H1
  end.

Ltac use_IH IH :=
  match goal with
  | HS : NatMap.Equal _ _, Hev : EvalExpr _ _ _ _ _ _ _ _ |- _ =>
      let Hv := fresh "Hv" in
      let HS' := fresh "HS" in
      destruct (IH _ _ _ HS Hev) as [Hv HS']; clear Hev
  | HS : NatMap.Equal _ _, Hev : EvalStmt _ _ _ _ _ _ _ |- _ =>
      let HS' := fresh "HS" in
      assert (HS' := IH _ _ HS Hev); clear Hev
  | HS : NatMap.Equal _ _,
    Hev : EvalExprList _ _ _ _ _ _ _ _ _ _ _ _ _ |- _ =>
      let Hv := fresh "Hv" in
      let HS' := fresh "HS" in
      destruct (IH _ _ _ _ _ _ _ HS Hev) as (Hv & HS' & ? & ? & ? & ?);
      clear Hev
  end.

Lemma Eval_deterministic_mut :
  (forall S E G F M e v1 S1,
    EvalExpr S E G F M e v1 S1 ->
    forall S0 v2 S2, NatMap.Equal S S0 ->
    EvalExpr S0 E G F M e v2 S2 ->
    v1 = v2 /\ NatMap.Equal S1 S2) /\
  (forall S E G F M s S1,
    EvalStmt S E G F M s S1 ->
    forall S0 S2, NatMap.Equal S S0 ->
    EvalStmt S0 E G F M s S2 ->
    NatMap.Equal S1 S2) /\
  (forall S E G F M ps es vs1 S1 Ef1 Sargs1 l1 ls1,
    EvalExprList S E G F M ps es vs1 S1 Ef1 Sargs1 l1 ls1 ->
    forall S0 vs2 S2 Ef2 Sargs2 l2 ls2, NatMap.Equal S S0 ->
    EvalExprList S0 E G F M ps es vs2 S2 Ef2 Sargs2 l2 ls2 ->
    vs1 = vs2 /\ NatMap.Equal S1 S2 /\ Ef1 = Ef2 /\ Sargs1 = Sargs2 /\
    l1 = l2 /\ ls1 = ls2).
Proof.
  apply Eval_mutind.
  - (* Num *)
    intros S E G F M z S' Heq S0 v2 S2 HS Hev. inversion Hev; subst.
    split; [reflexivity |]. rewrite <- Heq, HS. assumption.
  - (* local variable *)
    intros S E G F M x l v S' Heq Hx Hl S0 v2 S2 HS Hev.
    inversion Hev; subst; functional_maps.
    rewrite HS in Hl.
    split; [eapply NatMapFacts.MapsTo_fun; eauto |].
    rewrite <- Heq, HS. assumption.
  - (* global variable *)
    intros S E G F M x l v S' Heq Hnx Hx Hl S0 v2 S2 HS Hev.
    inversion Hev; subst; functional_maps.
    rewrite HS in Hl.
    split; [eapply NatMapFacts.MapsTo_fun; eauto |].
    rewrite <- Heq, HS. assumption.
  - (* parenthesized expression *)
    intros S E G F M e0 v S' _ IH S0 v2 S2 HS Hev. inversion Hev; subst.
    eapply IH; eauto.
  - (* unary expression *)
    intros S E G F M S' uo e0 v _ IH S0 v2 S2 HS Hev. inversion Hev; subst.
    use_IH IH. subst. split; [reflexivity | assumption].

  - (* binary expression *)
    intros S E G F M bo e1 e2 v1 v2 S' S'' _ IH1 _ IH2 S0 w S2 HS Hev.
    inversion Hev; subst.
    use_IH IH1. subst. use_IH IH2. subst. split; [reflexivity | assumption].
  - (* local assignment *)
    intros S E G F M l x e0 v S' S'' Hx _ IH Heq S0 v2 S2 HS Hev.
    inversion Hev; subst; functional_maps.
    use_IH IH. subst. split; [reflexivity |].
    match goal with
    | H : NatMap.Equal S2 _ |- _ => rewrite H, Heq, HS; reflexivity
    end.
  - (* global assignment *)
    intros S E G F M l x e0 v S' S'' Hnx Hx _ IH Heq S0 v2 S2 HS Hev.
    inversion Hev; subst; functional_maps.
    use_IH IH. subst. split; [reflexivity |].
    match goal with
    | H : NatMap.Equal S2 _ |- _ => rewrite H, Heq, HS; reflexivity
    end.
  - (* function call *)
    intros S E G F M x es params fstmt fexpr l ls Ef Sargs
      S' S'' S''' S'''' S''''' v vs
      Hnx Hx Hnd _ IHl HEf HSargs Hdisj HS'' _ IHs _ IHe HS5 S0 v2 S2 HS Hev.
    inversion Hev; subst; functional_maps.
    use_IH IHl. subst.
    assert (HS2 : NatMap.Equal S'' S''0).
    { match goal with
      | H : NatMap.Equal S''0 _ |- _ => rewrite H, HS''
      end.
      match goal with
      | H : NatMap.Equal S' _ |- _ => rewrite H; reflexivity
      end. }
    use_IH IHs. use_IH IHe. subst. split; [reflexivity |].
    match goal with
    | H : NatMap.Equal S2 _ |- _ => rewrite H, HS5
    end.
    match goal with
    | H : NatMap.Equal S'''' _ |- _ => rewrite H, HS; reflexivity
    end.
  - (* macro invocation *)
    intros S E G F M x params es mexpr M' ef S' v
      Hx HM' Hnd Hsub _ IH S0 v2 S2 HS Hev.
    inversion Hev; subst; functional_maps.
    match goal with
    | H : MacroSubst _ _ _ ?ef0 |- _ =>
        assert (ef = ef0) by (eapply MacroSubst_deterministic; eauto)
    end.
    subst. eapply IH; eauto.
  - (* skip *)
    intros S E G F M S' Heq S0 S2 HS Hev. inversion Hev; subst.
    rewrite <- Heq, HS. assumption.
  - (* expression statement *)
    intros S E G F M e0 v S' _ IH S0 S2 HS Hev. inversion Hev; subst.
    use_IH IH. assumption.
  - (* if-else, false *)
    intros S E G F M cond v S' s1 s2 S'' _ IHc Hv _ IHs S0 S2 HS Hev.
    inversion Hev; subst; use_IH IHc; subst.
    + use_IH IHs. assumption.
    + contradiction.
  - (* if-else, true *)
    intros S E G F M cond v S' s1 s2 S'' _ IHc Hv _ IHs S0 S2 HS Hev.
    inversion Hev; subst; use_IH IHc; subst.
    + contradiction.
    + use_IH IHs. assumption.
  - (* while, false *)
    intros S E G F M cond v S' s0 _ IHc Hv S0 S2 HS Hev.
    inversion Hev; subst; use_IH IHc; subst.
    + assumption.
    + contradiction.
  - (* while, true *)
    intros S E G F M cond v S' s0 S'' S''' _ IHc Hv _ IHb _ IHw S0 S2 HS Hev.
    inversion Hev; subst; use_IH IHc; subst.
    + contradiction.
    + use_IH IHb. use_IH IHw. assumption.
  - (* empty block *)
    intros S E G F M S' Heq S0 S2 HS Hev. inversion Hev; subst.
    rewrite <- Heq, HS. assumption.
  - (* block *)
    intros S E G F M s ss S' S'' _ IH1 _ IH2 S0 S2 HS Hev.
    inversion Hev; subst.
    use_IH IH1. use_IH IH2. assumption.
  - (* no argument *)
    intros Sprev Ecaller G F M Snext Heq S0 vs2 S2 Ef2 Sargs2 l2 ls2 HS Hev.
    inversion Hev; subst.
    repeat split; try reflexivity. rewrite <- Heq, HS. assumption.
  - (* one more argument *)
    intros Sprev Ecaller G F M p e v Snext ps es vs Sfinal Ef' Sargs' l ls
      _ IHe _ IHl Hnl Hnd Hnp S0 vs2 S2 Ef2 Sargs2 l2 ls2 HS Hev.
    inversion Hev; subst.
    use_IH IHe. subst. use_IH IHl. subst.
    repeat split; try reflexivity. assumption.
Qed.

Lemma EvalExpr_deterministic : forall S E G F M e v1 S'1,
  EvalExpr S E G F M e v1 S'1 ->
  forall v2 S'2,
  EvalExpr S E G F M e v2 S'2 ->
  v1 = v2 /\ NatMap.Equal S'1 S'2.
Proof.
  intros S E G F M e v1 S'1 H1 v2 S'2 H2.
  destruct Eval_deterministic_mut as [He _].
  eapply He; eauto. reflexivity.
Qed.

(** ** Derived rules for calls

    A call of a function with no parameter and an empty body whose return
    expression leaves the store as it is. *)
Lemma NatMap_Disjoint_empty :
  forall (S : store), NatMapProperties.Disjoint S (NatMap.empty Z).
Proof.
  intros S k [_ Hin]. apply NatMapFacts.empty_in_iff in Hin. exact Hin.
Qed.

Lemma EvalExpr_nullary_call :
  forall S E G F M x fexpr v,
  ~ StringMap.In x M ->
  StringMap.MapsTo x (nil, Skip, fexpr) F ->
  EvalExpr S (StringMap.empty nat) G F M fexpr v S ->
  EvalExpr S E G F M (CallOrInvocation x nil) v S.
Proof.
  intros S E G F M x fexpr v Hnin Hx Hbody.
  apply E_FunctionCall with
    (params := nil) (fstmt := Skip) (fexpr := fexpr) (l := 1%nat)
    (ls := (0%nat :: nil)) (Ef := StringMap.empty nat)
    (Sargs := NatMap.empty Z) (S' := S) (S'' := S) (S''' := S)
    (S'''' := S) (vs := nil).
  - exact Hnin.
  - exact Hx.
  - constructor.
  - constructor. reflexivity.
  - reflexivity.
  - reflexivity.
  - apply NatMap_Disjoint_empty.
  - symmetry. apply NatMap_update_empty_Equal.
  - constructor. reflexivity.
  - exact Hbody.
  - symmetry. apply NatMap_restrict_refl.
Qed.

(** ** The analyzers' functions decide their predicates *)

Lemma has_side_effects_iff :
  forall e, has_side_effects e = true <-> ExprHasSideEffects e.
Proof.
  induction e; simpl.
  - split; [discriminate | contradiction].
  - split; [discriminate | contradiction].
  - exact IHe.
  - exact IHe.
  - rewrite orb_true_iff, IHe1, IHe2. reflexivity.
  - split; intros _; [exact I | reflexivity].
  - split; intros _; [exact I | reflexivity].
Qed.

Lemma has_side_effects_false_iff :
  forall e, has_side_effects e = false <-> ~ ExprHasSideEffects e.
Proof.
  intros e. rewrite <- has_side_effects_iff.
  destruct (has_side_effects e); split; intros H; try reflexivity;
    try discriminate; try (intros H'; discriminate H').
  exfalso. apply H. reflexivity.
Qed.

Lemma ExprListNoVarsInEnvironment_Forall :
  forall es E,
  ExprListNoVarsInEnvironment es E <->
  Forall (fun a => ExprNoVarsInEnvironment a E) es.
Proof.
  intros es E. split.
  - induction es as [| a es IH]; intros H; inversion H; subst; constructor; auto.
  - induction 1; constructor; auto.
Qed.

Lemma no_vars_in_environment_iff :
  forall e E,
  no_vars_in_environment e E = true <-> ExprNoVarsInEnvironment e E.
Proof.
  intros e E. induction e using expr_nested_ind; simpl.
  - split; [constructor | reflexivity].
  - rewrite negb_true_iff, <- StringMapFacts.not_mem_in_iff. split.
    + intros Hn. constructor. exact Hn.
    + intros Hn. inversion Hn; subst. assumption.
  - rewrite IHe. split; [constructor; assumption | inversion 1; assumption].
  - rewrite IHe. split; [constructor; assumption | inversion 1; assumption].
  - rewrite andb_true_iff, IHe1, IHe2. split.
    + intros [H1 H2]. constructor; assumption.
    + inversion 1; subst. split; assumption.
  - rewrite IHe. split; [constructor; assumption | inversion 1; assumption].
  - rewrite forallb_forall. split.
    + intros Hall. constructor. apply ExprListNoVarsInEnvironment_Forall.
      rewrite Forall_forall in *. intros a Ha. apply (H a Ha), Hall, Ha.
    + inversion 1; subst.
      match goal with
      | Hl : ExprListNoVarsInEnvironment _ _ |- _ =>
          apply ExprListNoVarsInEnvironment_Forall in Hl;
          rewrite Forall_forall in *; intros a Ha; apply (H a Ha), Hl, Ha
      end.
Qed.

Lemma ExprListNoMacroInvocations_Forall :
  forall es F M,
  ExprListNoMacroInvocations es F M <->
  Forall (fun a => ExprNoMacroInvocations a F M) es.
Proof.
  intros es F M. split.
  - induction es as [| a es IH]; intros H; inversion H; subst; constructor; auto.
  - induction 1; constructor; auto.
Qed.

Lemma no_macro_invocations_iff :
  forall e F M,
  no_macro_invocations e F M = true <-> ExprNoMacroInvocations e F M.
Proof.
  intros e F M. induction e using expr_nested_ind; simpl.
  - split; [constructor | reflexivity].
  - split; [constructor | reflexivity].
  - rewrite IHe. split; [constructor; assumption | inversion 1; assumption].
  - rewrite IHe. split; [constructor; assumption | inversion 1; assumption].
  - rewrite andb_true_iff, IHe1, IHe2. split.
    + intros [H1 H2]. constructor; assumption.
    + inversion 1; subst. split; assumption.
  - rewrite IHe. split; [constructor; assumption | inversion 1; assumption].
  - rewrite andb_true_iff, negb_true_iff, <- StringMapFacts.not_mem_in_iff,
      forallb_forall.
    split.
    + intros [Hx Hall]. constructor; [exact Hx |].
      apply ExprListNoMacroInvocations_Forall.
      rewrite Forall_forall in *. intros a Ha. apply (H a Ha), Hall, Ha.
    + inversion 1; subst. split; [assumption |].
      match goal with
      | Hl : ExprListNoMacroInvocations _ _ _ |- _ =>
          apply ExprListNoMacroInvocations_Forall in Hl;
          rewrite Forall_forall in *; intros a Ha; apply (H a Ha), Hl, Ha
      end.
Qed.

(** ** Expressions without side effects *)

(** An expression that the analyzer does not flag leaves the store as it
    found it. *)
Lemma not_ExprHasSideEffects_S_Equal :
  forall e,
  ~ ExprHasSideEffects e ->
  forall S E G F M v S',
  EvalExpr S E G F M e v S' ->
  NatMap.Equal S S'.
Proof.
  induction e; simpl; intros Hno S E G F M v S' Hev;
    inversion Hev; subst; try assumption; try (exfalso; apply Hno; exact I).
  - eapply IHe; eauto.
  - eapply IHe; eauto.
  - transitivity S'0.
    + eapply IHe1; eauto.
    + eapply IHe2; eauto.
Qed.

(** Neither does a [Skip] statement. *)
Lemma Skip_S_Equal :
  forall S E G F M S', EvalStmt S E G F M Skip S' -> NatMap.Equal S S'.
Proof. intros S E G F M S' H. inversion H; subst. assumption. Qed.

(** An expression without side effects holds no invocation, so it evaluates
    the same under any function table and any macro table. *)
Lemma not_ExprHasSideEffects_EvalExpr_tables :
  forall e,
  ~ ExprHasSideEffects e ->
  forall S E G F M v S',
  EvalExpr S E G F M e v S' ->
  forall F2 M2, EvalExpr S E G F2 M2 e v S'.
Proof.
  induction e; simpl; intros Hno S E G F M v S' Hev F2 M2;
    inversion Hev; subst; try (exfalso; apply Hno; exact I).
  - constructor. assumption.
  - eapply E_LocalVar; eauto.
  - eapply E_GlobalVar; eauto.
  - constructor. eapply IHe; eauto.
  - constructor. eapply IHe; eauto.
  - eapply E_BinExpr.
    + eapply IHe1; eauto.
    + eapply IHe2; eauto.
Qed.

(** Substituting an argument without side effects in a body without side
    effects gives an expression without side effects. *)
Lemma not_ExprHasSideEffects_MSub_not_ExprHasSideEffects :
  forall p e mexpr ef,
  MSub p e mexpr ef ->
  ~ ExprHasSideEffects mexpr ->
  ~ ExprHasSideEffects e ->
  ~ ExprHasSideEffects ef.
Proof.
  intros p e mexpr. revert p e.
  induction mexpr; intros p e ef Hsub Hm He; inversion Hsub; subst; simpl in *;
    try assumption; try (exfalso; apply Hm; exact I); eauto.
  intros [H1 | H2].
  - eapply IHmexpr1; eauto.
  - eapply IHmexpr2; eauto.
Qed.

Lemma not_ExprHasSideEffects_MacroSubst_not_ExprHasSideEffects :
  forall params es mexpr ef,
  MacroSubst params es mexpr ef ->
  ~ ExprHasSideEffects mexpr ->
  Forall (fun e => ~ ExprHasSideEffects e) es ->
  ~ ExprHasSideEffects ef.
Proof.
  intros params es mexpr ef Hsub. induction Hsub; intros Hm Hes.
  - assumption.
  - inversion Hes; subst. apply IHHsub; [| assumption].
    eapply not_ExprHasSideEffects_MSub_not_ExprHasSideEffects; eauto.
Qed.

(** A scope check that passes for an environment passes for a smaller
    one. *)
Lemma ExprNoVarsInEnvironment_remove :
  forall e E p,
  ExprNoVarsInEnvironment e E ->
  ExprNoVarsInEnvironment e (StringMap.remove p E).
Proof.
  intros e E p. induction e using expr_nested_ind; intros Hnv;
    inversion Hnv; subst; constructor; auto.
  - intros Hin. apply StringMapFacts.remove_in_iff in Hin.
    destruct Hin as [_ Hin]. contradiction.
  - apply ExprListNoVarsInEnvironment_Forall.
    match goal with
    | Hl : ExprListNoVarsInEnvironment _ _ |- _ =>
        apply ExprListNoVarsInEnvironment_Forall in Hl;
        rewrite Forall_forall in *; intros a Ha; apply (H a Ha), Hl, Ha
    end.
Qed.

(** ** Call-by-name and call-by-value

    The body of a one-parameter macro, evaluated after substitution in the
    caller's environment, against the same body evaluated as a function
    body: in the environment that binds the parameter to location 1, on the
    store extended with the value of the argument at that location.  The
    body may name the parameter and global variables; a variable of the
    caller's environment other than the parameter would be captured. *)
Lemma MSub_call_by_name_call_by_value :
  forall mexpr p e ef,
  MSub p e mexpr ef ->
  ~ ExprHasSideEffects mexpr ->
  ~ ExprHasSideEffects e ->
  forall Ecaller,
  ExprNoVarsInEnvironment mexpr (StringMap.remove p Ecaller) ->
  forall S G F M varg Snext,
  EvalExpr S Ecaller G F M e varg Snext ->
  forall S',
  NatMap.Equal S S' ->
  NatMapProperties.Disjoint S' (NatMap.add 1%nat varg (NatMap.empty Z)) ->
  forall v S1,
  EvalExpr S Ecaller G F M ef v S1 ->
  forall v0 S2,
  EvalExpr (NatMapProperties.update S' (NatMap.add 1%nat varg (NatMap.empty Z)))
    (StringMap.add p 1%nat (StringMap.empty nat)) G F M mexpr v0 S2 ->
  v = v0.
Proof.
  induction mexpr;
    intros p e ef Hsub Hm He Ecaller Hnv S G F M varg Snext Harg S' HS Hdisj
      v S1 Hcbn v0 S2 Hcbv;
    inversion Hsub; subst; simpl in Hm;
    try (exfalso; apply Hm; exact I).
  - (* numeral *)
    inversion Hcbn; subst. inversion Hcbv; subst. reflexivity.
  - (* the parameter: the argument stands in its place *)
    destruct (EvalExpr_deterministic _ _ _ _ _ _ _ _ Hcbn _ _ Harg) as [Hv _].
    subst v.
    inversion Hcbv; subst.
    + match goal with
      | Hx : StringMap.MapsTo _ ?l (StringMap.add _ _ _) |- _ =>
          apply StringMapFacts.add_mapsto_iff in Hx;
          destruct Hx as [[_ Hl1] | [Hne _]];
          [subst l | contradiction Hne; reflexivity]
      end.
      match goal with
      | Hu : NatMap.MapsTo 1%nat _ (NatMapProperties.update _ _) |- _ =>
          apply NatMapProperties.update_mapsto_iff in Hu;
          destruct Hu as [Hl | [_ Hnin]]
      end.
      * apply NatMapFacts.add_mapsto_iff in Hl.
        destruct Hl as [[_ Hl] | [Hne _]]; [congruence | contradiction Hne; reflexivity].
      * exfalso. apply Hnin. apply NatMapFacts.add_in_iff. left. reflexivity.
    + match goal with
      | Hn : ~ StringMap.In _ (StringMap.add _ _ _) |- _ =>
          exfalso; apply Hn; apply StringMapFacts.add_in_iff; left; reflexivity
      end.
  - (* another variable: it must be a global *)
    inversion Hnv; subst.
    assert (Hx : ~ StringMap.In x Ecaller).
    { intros Hin.
      match goal with
      | Hn : ~ StringMap.In x (StringMap.remove _ _) |- _ =>
          apply Hn; apply StringMapFacts.remove_in_iff; split; assumption
      end. }
    inversion Hcbn; subst; functional_maps.
    inversion Hcbv; subst.
    + match goal with
      | Hx : StringMap.MapsTo _ _ (StringMap.add _ _ _) |- _ =>
          apply StringMapFacts.add_mapsto_iff in Hx;
          destruct Hx as [[Heq _] | [_ Hx]];
          [contradiction | apply StringMapFacts.empty_mapsto_iff in Hx; contradiction]
      end.
    + functional_maps.
      match goal with
      | Hu : NatMap.MapsTo _ _ (NatMapProperties.update _ _) |- _ =>
          apply NatMapProperties.update_mapsto_iff in Hu;
          destruct Hu as [Hl | [Hl _]]
      end.
      * exfalso.
        match goal with
        | Hs : NatMap.MapsTo ?k _ S |- _ =>
            apply (Hdisj k); split;
            [ rewrite <- HS; eapply NatMap_mapsto_in; exact Hs
            | eapply NatMap_mapsto_in; exact Hl ]
        end.
      * rewrite <- HS in Hl. eapply NatMapFacts.MapsTo_fun; eassumption.
  - (* parenthesis *)
    inversion Hnv; subst. inversion Hcbn; subst. inversion Hcbv; subst.
    eapply IHmexpr; eauto.
  - (* unary operator *)
    inversion Hnv; subst. inversion Hcbn; subst. inversion Hcbv; subst.
    f_equal. eapply IHmexpr; eauto.
  - (* binary operator: neither operand moves the store *)
    inversion Hnv; subst. inversion Hcbn; subst. inversion Hcbv; subst.
    assert (Hm1 : ~ ExprHasSideEffects mexpr1) by tauto.
    assert (Hm2 : ~ ExprHasSideEffects mexpr2) by tauto.
    match goal with
    | H1 : EvalExpr S _ _ _ _ e1' _ ?Sa,
      H2 : EvalExpr ?Sa _ _ _ _ e2' _ _,
      H3 : EvalExpr (NatMapProperties.update _ _) _ _ _ _ mexpr1 _ ?Sb,
      H4 : EvalExpr ?Sb _ _ _ _ mexpr2 _ _ |- _ =>
        assert (Ha : NatMap.Equal S Sa) by
          (eapply not_ExprHasSideEffects_S_Equal; [| exact H1];
           eapply not_ExprHasSideEffects_MSub_not_ExprHasSideEffects;
           [eassumption | exact Hm1 | exact He]);
        assert (Hb : NatMap.Equal
                       (NatMapProperties.update S'
                          (NatMap.add 1%nat varg (NatMap.empty Z))) Sb) by
          (eapply not_ExprHasSideEffects_S_Equal; [exact Hm1 | exact H3]);
        symmetry in Ha; symmetry in Hb;
        pose proof (S_Equal_EvalExpr _ _ _ _ _ _ _ _ H2 _ Ha) as H2';
        pose proof (S_Equal_EvalExpr _ _ _ _ _ _ _ _ H4 _ Hb) as H4';
        f_equal;
        [ eapply IHmexpr1; eauto | eapply IHmexpr2; eauto ]
    end.
Qed.

(** The one-parameter case, as [Theorems.v] states it: the macro
    invocation evaluates the substituted body [ef] in the caller's
    environment; the function call evaluates the argument list, then the body
    in the callee's environment on the store extended with the arguments. *)
Lemma call_by_name_call_by_value_1 :
  forall mexpr,
  ~ ExprHasSideEffects mexpr ->
  forall Ecaller p,
  ExprNoVarsInEnvironment mexpr (StringMap.remove p Ecaller) ->
  forall e,
  ~ ExprHasSideEffects e ->
  forall ef,
  MacroSubst (p::nil) (e::nil) mexpr ef ->
  forall S G F M v S''',
  EvalExpr S Ecaller G F M ef v S''' ->
  forall v0_ S' Ef Sargs l ls,
  EvalExprList S Ecaller G F M (p::nil) (e::nil) (v0_::nil) S' Ef Sargs l ls ->
  NatMapProperties.Disjoint S' Sargs ->
  forall v0 S'''0,
  EvalExpr (NatMapProperties.update S' Sargs) Ef G F M mexpr v0 S'''0 ->
  v = v0.
Proof.
  intros mexpr Hm Ecaller p Hnv e He ef Hsub S G F M v S''' Hcbn
    v0_ S' Ef Sargs l ls Hargs Hdisj v0 S'''0 Hcbv.
  inversion Hsub as [| p0 e0 ps es mexpr0 ef1 ef' Hsub1 Hrest]; subst.
  inversion Hrest; subst.
  inversion Hargs as [| Sprev Ec G0 F0 M0 p0 e0 v1 Snext ps es vs Sfinal
                        Ef' Sargs' l0 ls0 Harg Hnil Hnl Hnd Hnp]; subst.
  inversion Hnil; subst.
  assert (HS : NatMap.Equal S S').
  { transitivity Snext; [| assumption].
    eapply not_ExprHasSideEffects_S_Equal; eauto. }
  eapply MSub_call_by_name_call_by_value with (mexpr := mexpr); eauto.
Qed.

(** ** Definitions that evaluation does not reach *)

(** An expression without side effects holds no invocation at all. *)
Lemma not_ExprHasSideEffects_ExprNoCallsFromFunctionTable :
  forall e,
  ~ ExprHasSideEffects e ->
  forall F M F', ExprNoCallsFromFunctionTable e F M F'.
Proof.
  induction e; simpl; intros Hno F M F';
    try (exfalso; apply Hno; exact I); constructor; auto.
Qed.

Lemma not_ExprHasSideEffects_ExprNoMacroInvocations :
  forall e,
  ~ ExprHasSideEffects e ->
  forall F M, ExprNoMacroInvocations e F M.
Proof.
  induction e; simpl; intros Hno F M;
    try (exfalso; apply Hno; exact I); constructor; auto.
Qed.

(** Evaluation does not see definitions it does not reach: they may be
    merged into the function table ... *)
Lemma Eval_NoCallsFromFunctionTable_update_F :
  (forall S E G F M e v S',
    EvalExpr S E G F M e v S' ->
    forall F', ExprNoCallsFromFunctionTable e F M F' ->
    EvalExpr S E G (StringMapProperties.update F F') M e v S') /\
  (forall S E G F M s S',
    EvalStmt S E G F M s S' ->
    forall F', StmtNoCallsFromFunctionTable s F M F' ->
    EvalStmt S E G (StringMapProperties.update F F') M s S') /\
  (forall S E G F M ps es vs S' Ef Sargs l ls,
    EvalExprList S E G F M ps es vs S' Ef Sargs l ls ->
    forall F', ExprListNoCallsFromFunctionTable es F M F' ->
    EvalExprList S E G (StringMapProperties.update F F') M ps es vs S'
      Ef Sargs l ls).
Proof.
  apply Eval_mutind; intros;
    match goal with
    | H : ExprNoCallsFromFunctionTable _ _ _ _ |- _ => inversion H; subst
    | H : StmtNoCallsFromFunctionTable _ _ _ _ |- _ => inversion H; subst
    | H : ExprListNoCallsFromFunctionTable _ _ _ _ |- _ => inversion H; subst
    end;
    functional_maps;
    try (econstructor; now eauto).
  - (* function call *)
    eapply E_FunctionCall; eauto.
    apply StringMapProperties.update_mapsto_iff. right. split; assumption.
  - (* macro invocation *)
    match goal with
    | H1 : MacroSubst ?ps ?es ?m ?ef1, H2 : MacroSubst ?ps ?es ?m ?ef2 |- _ =>
        assert (ef1 = ef2) by (eapply MacroSubst_deterministic; eauto); subst
    end.
    eapply E_MacroInvocation; eauto.
Qed.

(** ... and they may be taken away again. *)
Lemma Eval_update_F_NoCallsFromFunctionTable :
  (forall S E G F0 M e v S',
    EvalExpr S E G F0 M e v S' ->
    forall F F', F0 = StringMapProperties.update F F' ->
    ExprNoCallsFromFunctionTable e F M F' ->
    EvalExpr S E G F M e v S') /\
  (forall S E G F0 M s S',
    EvalStmt S E G F0 M s S' ->
    forall F F', F0 = StringMapProperties.update F F' ->
    StmtNoCallsFromFunctionTable s F M F' ->
    EvalStmt S E G F M s S') /\
  (forall S E G F0 M ps es vs S' Ef Sargs l ls,
    EvalExprList S E G F0 M ps es vs S' Ef Sargs l ls ->
    forall F F', F0 = StringMapProperties.update F F' ->
    ExprListNoCallsFromFunctionTable es F M F' ->
    EvalExprList S E G F M ps es vs S' Ef Sargs l ls).
Proof.
  apply Eval_mutind; intros;
    match goal with
    | H : ExprNoCallsFromFunctionTable _ _ _ _ |- _ => inversion H; subst
    | H : StmtNoCallsFromFunctionTable _ _ _ _ |- _ => inversion H; subst
    | H : ExprListNoCallsFromFunctionTable _ _ _ _ |- _ => inversion H; subst
    end;
    functional_maps;
    try (econstructor; now eauto).
  - (* function call *)
    match goal with
    | Hu : StringMap.MapsTo _ _ (StringMapProperties.update _ _) |- _ =>
        apply StringMapProperties.update_mapsto_iff in Hu;
        destruct Hu as [Hu | [Hu _]];
        [ exfalso;
          match goal with
          | Hn : ~ StringMap.In _ F' |- _ =>
              apply Hn; eapply StringMap_mapsto_in; exact Hu
          end
        | ]
    end.
    functional_maps.
    eapply E_FunctionCall; eauto.
  - (* macro invocation *)
    match goal with
    | H1 : MacroSubst ?ps ?es ?m ?ef1, H2 : MacroSubst ?ps ?es ?m ?ef2 |- _ =>
        assert (ef1 = ef2) by (eapply MacroSubst_deterministic; eauto); subst
    end.
    eapply E_MacroInvocation; eauto.
Qed.

Lemma EvalExpr_ExprNoCallsFromFunctionTable_update_F_EvalExpr :
  forall S E G F M e v S' F',
  EvalExpr S E G F M e v S' ->
  ExprNoCallsFromFunctionTable e F M F' ->
  EvalExpr S E G (StringMapProperties.update F F') M e v S'.
Proof.
  intros. destruct Eval_NoCallsFromFunctionTable_update_F as [He _]. eauto.
Qed.

Lemma EvalStmt_StmtNoCallsFromFunctionTable_update_F_EvalStmt :
  forall S E G F M s S' F',
  EvalStmt S E G F M s S' ->
  StmtNoCallsFromFunctionTable s F M F' ->
  EvalStmt S E G (StringMapProperties.update F F') M s S'.
Proof.
  intros. destruct Eval_NoCallsFromFunctionTable_update_F as [_ [Hs _]]. eauto.
Qed.

Lemma EvalExprList_ExprListNoCallsFromFunctionTable_update_F_EvalExprList :
  forall S E G F M ps es vs S' Ef Sargs l ls F',
  EvalExprList S E G F M ps es vs S' Ef Sargs l ls ->
  ExprListNoCallsFromFunctionTable es F M F' ->
  EvalExprList S E G (StringMapProperties.update F F') M ps es vs S'
    Ef Sargs l ls.
Proof.
  intros. destruct Eval_NoCallsFromFunctionTable_update_F as [_ [_ Hl]]. eauto.
Qed.

Lemma EvalExpr_update_F_ExprNoCallsFromFunctionTable_EvalExpr :
  forall S E G F M e v S' F',
  EvalExpr S E G (StringMapProperties.update F F') M e v S' ->
  ExprNoCallsFromFunctionTable e F M F' ->
  EvalExpr S E G F M e v S'.
Proof.
  intros. destruct Eval_update_F_NoCallsFromFunctionTable as [He _]. eauto.
Qed.

Lemma EvalStmt_update_F_StmtNoCallsFromFunctionTable_EvalStmt :
  forall S E G F M s S' F',
  EvalStmt S E G (StringMapProperties.update F F') M s S' ->
  StmtNoCallsFromFunctionTable s F M F' ->
  EvalStmt S E G F M s S'.
Proof.
  intros. destruct Eval_update_F_NoCallsFromFunctionTable as [_ [Hs _]]. eauto.
Qed.

Lemma EvalExprList_update_F_ExprListNoCallsFromFunctionTable_EvalExprList :
  forall S E G F M ps es vs S' Ef Sargs l ls F',
  EvalExprList S E G (StringMapProperties.update F F') M ps es vs S'
    Ef Sargs l ls ->
  ExprListNoCallsFromFunctionTable es F M F' ->
  EvalExprList S E G F M ps es vs S' Ef Sargs l ls.
Proof.
  intros. destruct Eval_update_F_NoCallsFromFunctionTable as [_ [_ Hl]]. eauto.
Qed.

(** ** Macro substitution as a function *)

Lemma msub_CallOrInvocation :
  forall p e x es,
  msub p e (CallOrInvocation x es) =
  option_map (CallOrInvocation x) (msub_list p e es).
Proof.
  intros p e x es. simpl. f_equal.
  induction es as [| a es IH]; simpl; [reflexivity |].
  rewrite IH. reflexivity.
Qed.

Lemma MSub_msub :
  forall p e m ef, MSub p e m ef -> msub p e m = Some ef.
Proof.
  apply (MSub_mut
    (fun p e m ef (_ : MSub p e m ef) => msub p e m = Some ef)
    (fun p e es es' (_ : MSubList p e es es') =>
      msub_list p e es = Some es')).
  - reflexivity.
  - intros p e x Hpx. simpl. destruct (string_dec p x); [reflexivity | contradiction].
  - intros p e x Hpx. simpl. destruct (string_dec p x); [contradiction | reflexivity].
  - intros p e e0 e0' _ IH. simpl. rewrite IH. reflexivity.
  - intros p e uo e0 e0' _ IH. simpl. rewrite IH. reflexivity.
  - intros p e bo e1 e2 e1' e2' _ IH1 _ IH2. simpl. rewrite IH1, IH2. reflexivity.
  - intros p e x y e0 e0' Hpx Hey _ IH. subst. simpl.
    destruct (string_dec x x) as [_ | Hne]; [| contradiction Hne; reflexivity].
    simpl in IH. rewrite IH. reflexivity.
  - intros p e x e0 e0' Hpx _ IH. simpl.
    destruct (string_dec p x); [contradiction |]. rewrite IH. reflexivity.
  - intros p e x es es' _ IH. rewrite msub_CallOrInvocation, IH. reflexivity.
  - reflexivity.
  - intros p e e0 e0' es0 es0' _ IH1 _ IH2. simpl. rewrite IH1, IH2. reflexivity.
Qed.

Lemma msub_MSub :
  forall p e m ef, msub p e m = Some ef -> MSub p e m ef.
Proof.
  intros p e m. revert p e. induction m using expr_nested_ind;
    intros p e ef Hm.
  - simpl in Hm. injection Hm as <-. constructor.
  - simpl in Hm. destruct (string_dec p x); injection Hm as <-.
    + apply MS_Var_Replace. assumption.
    + apply MS_Var_No_Replace. assumption.
  - simpl in Hm. destruct (msub p e m) eqn:H0; [| discriminate].
    injection Hm as <-. constructor. auto.
  - simpl in Hm. destruct (msub p e m) eqn:H0; [| discriminate].
    injection Hm as <-. constructor. auto.
  - simpl in Hm. destruct (msub p e m1) eqn:H1; [| discriminate].
    destruct (msub p e m2) eqn:H2; [| discriminate].
    injection Hm as <-. constructor; auto.
  - simpl in Hm. destruct (string_dec p x).
    + destruct e; try discriminate.
      destruct (msub p (Var x0) m) eqn:H0; [| discriminate].
      injection Hm as <-. eapply MS_Assign_Replace; eauto.
    + destruct (msub p e m) eqn:H0; [| discriminate].
      injection Hm as <-. apply MS_Assign_No_Replace; auto.
  - rewrite msub_CallOrInvocation in Hm.
    destruct (msub_list p e es) as [es' |] eqn:Hl; [| discriminate].
    injection Hm as <-. constructor.
    revert es' Hl. induction H as [| a es Ha Hes IH]; intros es' Hl.
    + injection Hl as <-. constructor.
    + simpl in Hl. destruct (msub p e a) eqn:H1; [| discriminate].
      destruct (msub_list p e es) eqn:H2; [| discriminate].
      injection Hl as <-. constructor; auto.
Qed.

Lemma macro_subst_iff :
  forall ps es m ef, macro_subst ps es m = Some ef <-> MacroSubst ps es m ef.
Proof.
  intros ps es m ef. split.
  - revert es m. induction ps as [| p ps IH]; intros [| e es] m Hm;
      simpl in Hm; try discriminate.
    + injection Hm as <-. constructor.
    + destruct (msub p e m) eqn:H0; [| discriminate].
      econstructor; [apply msub_MSub; eassumption | auto].
  - induction 1; simpl.
    + reflexivity.
    + rewrite (MSub_msub _ _ _ _ H). assumption.
Qed.

(** ** The decision procedure *)


(** ** Soundness of the transformation *)

(** An expression that names no variable of an environment evaluates the
    same in the empty environment: all its variables are globals. *)
Lemma EvalExpr_NoVarsInEnvironment_empty :
  forall e,
  ~ ExprHasSideEffects e ->
  forall E,
  ExprNoVarsInEnvironment e E ->
  forall S G F M v S',
  EvalExpr S E G F M e v S' ->
  forall F2 M2,
  EvalExpr S (StringMap.empty nat) G F2 M2 e v S'.
Proof.
  induction e; simpl; intros Hno E Hnv S G F M v S' Hev F2 M2;
    inversion Hnv; subst; inversion Hev; subst;
    try (exfalso; apply Hno; exact I); functional_maps.
  - constructor. assumption.
  - eapply E_GlobalVar; eauto.
    intros Hin. apply StringMapFacts.empty_in_iff in Hin. exact Hin.
  - constructor. eapply IHe; eauto.
  - constructor. eapply IHe; eauto.
  - eapply E_BinExpr.
    + eapply IHe1; eauto.
    + eapply IHe2; eauto.
Qed.

(** A loop and its transformation, given that their conditions and their
    bodies agree. *)
Lemma While_sound :
  forall (cond cond' : expr) (s0 s0' : stmt) (F F2 : function_table)
         (M : macro_table),
  (forall S E G v1 v2 S1 S2,
    EvalExpr S E G F M cond v1 S1 ->
    EvalExpr S E G F2 M cond' v2 S2 ->
    v1 = v2 /\ NatMap.Equal S1 S2) ->
  (forall S E G S1 S2,
    EvalStmt S E G F M s0 S1 ->
    EvalStmt S E G F2 M s0' S2 ->
    NatMap.Equal S1 S2) ->
  forall S E G S1,
  EvalStmt S E G F M (While cond s0) S1 ->
  forall Sb S2,
  NatMap.Equal S Sb ->
  EvalStmt Sb E G F2 M (While cond' s0') S2 ->
  NatMap.Equal S1 S2.
Proof.
  intros cond cond' s0 s0' F F2 M Hc Hs S E G S1 Hw.
  remember (While cond s0) as w eqn:Ew.
  induction Hw as
    [ | | | | S E G F M c v Sa t Hca Hva
    | S E G F M c v Sa t Sa' Sa'' Hca Hva Hsa IHsa Hwa IHwa | | ];
    try discriminate Ew; injection Ew as -> ->;
    intros Sb S2 HS Hw2;
    symmetry in HS;
    pose proof (S_Equal_EvalStmt _ _ _ _ _ _ _ Hw2 _ HS) as Hw2';
    inversion Hw2' as
      [ | | | | S9 E9 G9 F9 M9 c9 v0 Sc t9 Hcb Hvb
      | S9 E9 G9 F9 M9 c9 v0 Sc t9 Sc' Sc'' Hcb Hvb Hsb Hwb | | ]; subst;
    destruct (Hc _ _ _ _ _ _ _ Hca Hcb) as [Hv HSc]; subst;
    try contradiction; try (exfalso; apply Hvb; reflexivity).
  - (* both leave the loop *)
    exact HSc.
  - (* both run the body and loop again *)
    symmetry in HSc.
    pose proof (S_Equal_EvalStmt _ _ _ _ _ _ _ Hsb _ HSc) as Hsb'.
    pose proof (Hs _ _ _ _ _ Hsa Hsb') as HSbody.
    apply (IHwa Hc Hs eq_refl Sc' S2 HSbody Hwb).
Qed.

(** The transformation of expressions, argument lists and statements
    preserves values and final stores.  By mutual induction on the
    derivation of the transformation. *)
Lemma Transform_sound_mut :
  (forall M F e F' e',
    TransformExpr M F e F' e' ->
    forall S E G v1 v2 S'1 S'2,
    EvalExpr S E G F M e v1 S'1 ->
    EvalExpr S E G F' M e' v2 S'2 ->
    v1 = v2 /\ NatMap.Equal S'1 S'2) /\
  (forall M F es F' es',
    TransformExprList M F es F' es' ->
    forall S Ecaller G ps1 vs1 vs2 Snext1 Snext2 Ef1 Ef2
           Sargs1 Sargs2 l1 l2 ls1 ls2,
    EvalExprList S Ecaller G F M ps1 es vs1 Snext1 Ef1 Sargs1 l1 ls1 ->
    EvalExprList S Ecaller G F' M ps1 es' vs2 Snext2 Ef2 Sargs2 l2 ls2 ->
    vs1 = vs2 /\ NatMap.Equal Snext1 Snext2 /\ Ef1 = Ef2 /\
    Sargs1 = Sargs2 /\ l1 = l2 /\ ls1 = ls2) /\
  (forall M F s F' s',
    TransformStmt M F s F' s' ->
    forall S E G S'1 S'2,
    EvalStmt S E G F M s S'1 ->
    EvalStmt S E G F' M s' S'2 ->
    NatMap.Equal S'1 S'2).
Proof.
  apply Transform_mutind.
  - (* Num *)
    intros M F z S E G v1 v2 S'1 S'2 H1 H2.
    exact (EvalExpr_deterministic _ _ _ _ _ _ _ _ H1 _ _ H2).
  - (* Var *)
    intros M F x S E G v1 v2 S'1 S'2 H1 H2.
    exact (EvalExpr_deterministic _ _ _ _ _ _ _ _ H1 _ _ H2).
  - (* ParenExpr *)
    intros M F e0 F' e0' _ IH S E G v1 v2 S'1 S'2 H1 H2.
    inversion H1; subst. inversion H2; subst. eapply IH; eauto.
  - (* UnExpr *)
    intros M F e0 F' e0' uo _ IH S E G v1 v2 S'1 S'2 H1 H2.
    inversion H1; subst. inversion H2; subst.
    match goal with
    | Ha : EvalExpr _ _ _ F _ e0 _ _, Hb : EvalExpr _ _ _ F' _ e0' _ _ |- _ =>
        destruct (IH _ _ _ _ _ _ _ Ha Hb) as [Hv HS]
    end.
    subst. split; [reflexivity | assumption].
  - (* BinExpr *)
    intros bo M F e1 e2 F' F'' e1' e2' F1result F2result
      _ IH1 HF' _ IH2 HF'' Hnc2 Hnc1' S E G v1 v2 S'1 S'2 H1 H2.
    inversion H1; subst. inversion H2; subst.
    match goal with
    | Ha : EvalExpr S _ _ F _ e1 _ ?Sa,
      Hb : EvalExpr ?Sa _ _ F _ e2 _ _,
      Hc : EvalExpr S _ _ _ _ e1' _ ?Sc,
      Hd : EvalExpr ?Sc _ _ _ _ e2' _ _ |- _ =>
        apply EvalExpr_update_F_ExprNoCallsFromFunctionTable_EvalExpr in Hc;
          [| exact Hnc1'];
        destruct (IH1 _ _ _ _ _ _ _ Ha Hc) as [Hv HS];
        apply EvalExpr_ExprNoCallsFromFunctionTable_update_F_EvalExpr
          with (F' := F1result) in Hb; [| exact Hnc2];
        symmetry in HS;
        pose proof (S_Equal_EvalExpr _ _ _ _ _ _ _ _ Hd _ HS) as Hd';
        destruct (IH2 _ _ _ _ _ _ _ Hb Hd') as [Hv2 HS2]
    end.
    subst. split; [reflexivity | assumption].
  - (* Assign *)
    intros M F x e F' e' _ IH S E G v1 v2 S'1 S'2 H1 H2.
    inversion H1; subst; inversion H2; subst; functional_maps;
      match goal with
      | Ha : EvalExpr _ _ _ F _ e _ _, Hb : EvalExpr _ _ _ F' _ e' _ _ |- _ =>
          destruct (IH _ _ _ _ _ _ _ Ha Hb) as [Hv HS]
      end;
      subst; (split; [reflexivity |]);
      match goal with
      | Hx : NatMap.Equal S'1 _, Hy : NatMap.Equal S'2 _ |- _ =>
          rewrite Hx, Hy; reflexivity
      end.
  - (* function call *)
    intros F M x es F' F'' F''' F'''' es' newdef
      params fstmt fexpr fstmt' fexpr' Fesresult Fstmtresult Fexprresult
      Hnx Hx _ IHl HF' _ IHs HF'' _ IHe HF''' Hnewdef HF''''
      Hes1 Hes2 Hes3 Hs1 Hs2 Hs3 He1 He2 He3
      S E G v1 v2 S'1 S'2 H1 H2.
    inversion H1 as [| | | | | | | |
      S0 E0 G0 F0 M0 x0 es0 params0 fstmt0 fexpr0 l ls Ef Sargs
      Sa Sb Sc Sd Se v vs _ Hx0 Hnd Hargs HEf HSargs Hdisj HSb Hbody Hret HSe
      | ]; subst; [| functional_maps].
    functional_maps.
    inversion H2 as [| | | | | | | |
      S9 E9 G9 F9 M9 x9 es9 params9 fstmt9 fexpr9 l0 ls0 Ef0 Sargs0
      Sa0 Sb0 Sc0 Sd0 Se0 v0 vs0 _ Hx0' Hnd0 Hargs0 HEf0 HSargs0 Hdisj0
      HSb0 Hbody0 Hret0 HSe0
      | ]; subst; [| functional_maps].
    (* the callee of the transformed call is the transformed definition *)
    apply StringMapProperties.update_mapsto_iff in Hx0'.
    destruct Hx0' as [Hx0' | [_ Hnin]];
      [| exfalso; apply Hnin; apply StringMapFacts.add_in_iff; left;
         reflexivity].
    apply StringMapFacts.add_mapsto_iff in Hx0'.
    destruct Hx0' as [[_ Hdef] | [Hne _]];
      [| contradiction Hne; reflexivity].
    injection Hdef as <- <- <-.
    (* the arguments *)
    apply EvalExprList_update_F_ExprListNoCallsFromFunctionTable_EvalExprList
      in Hargs0; [| exact Hes3].
    apply EvalExprList_update_F_ExprListNoCallsFromFunctionTable_EvalExprList
      in Hargs0; [| exact Hes2].
    apply EvalExprList_update_F_ExprListNoCallsFromFunctionTable_EvalExprList
      in Hargs0; [| exact Hes1].
    destruct (IHl _ _ _ _ _ _ _ _ _ _ _ _ _ _ _ _ Hargs Hargs0)
      as (Hvs & HSa & HEfeq & HSargseq & Hl & Hls).
    subst.
    assert (HSb' : NatMap.Equal Sb Sb0).
    { rewrite HSb, HSb0, HSa. reflexivity. }
    (* the body *)
    apply EvalStmt_update_F_StmtNoCallsFromFunctionTable_EvalStmt
      in Hbody0; [| exact Hs3].
    apply EvalStmt_update_F_StmtNoCallsFromFunctionTable_EvalStmt
      in Hbody0; [| exact Hs2].
    apply EvalStmt_StmtNoCallsFromFunctionTable_update_F_EvalStmt
      with (F' := Fesresult) in Hbody; [| exact Hs1].
    symmetry in HSb'.
    pose proof (S_Equal_EvalStmt _ _ _ _ _ _ _ Hbody0 _ HSb') as Hbody0'.
    pose proof (IHs _ _ _ _ _ Hbody Hbody0') as HSc.
    (* the return expression *)
    apply EvalExpr_update_F_ExprNoCallsFromFunctionTable_EvalExpr
      in Hret0; [| exact He3].
    apply EvalExpr_ExprNoCallsFromFunctionTable_update_F_EvalExpr
      with (F' := Fesresult) in Hret; [| exact He1].
    apply EvalExpr_ExprNoCallsFromFunctionTable_update_F_EvalExpr
      with (F' := Fstmtresult) in Hret; [| exact He2].
    symmetry in HSc.
    pose proof (S_Equal_EvalExpr _ _ _ _ _ _ _ _ Hret0 _ HSc) as Hret0'.
    destruct (IHe _ _ _ _ _ _ _ Hret Hret0') as [Hv HSd].
    subst. split; [reflexivity |].
    rewrite HSe, HSe0, HSd. reflexivity.
  - (* a macro invocation left as it is *)
    intros F M x es params mexpr Hx S E G v1 v2 S'1 S'2 H1 H2.
    exact (EvalExpr_deterministic _ _ _ _ _ _ _ _ H1 _ _ H2).
  - (* a function-like macro, rewritten into a call *)
    intros F M x F' p e y fname newdef Hx He Hhyg HfM HfF Hnewdef HF'
      S E G v1 v2 S'1 S'2 H1 H2.
    pose proof (Hhyg _ _ _ _ _ H1) as Hnv.
    inversion H1 as [| | | | | | | | |
      S0 E0 G0 F0 M0 x0 params0 es0 mexpr0 M' ef Sm vm
      Hx0 HM' Hnd Hsub Hcbn]; subst; functional_maps.
    inversion H2 as [| | | | | | | |
      S9 E9 G9 F9 M9 x9 es9 params9 fstmt9 fexpr9 l0 ls0 Ef0 Sargs0
      Sa0 Sb0 Sc0 Sd0 Se0 v0 vs0 _ Hf Hnd0 Hargs0 HEf0 HSargs0 Hdisj0
      HSb0 Hbody0 Hret0 HSe0
      | ]; subst; [| functional_maps].
    apply StringMapFacts.add_mapsto_iff in Hf.
    destruct Hf as [[_ Hdef] | [Hne _]]; [| contradiction Hne; reflexivity].
    injection Hdef as <- <- <-.
    (* the substituted body has no side effects *)
    assert (Hef : ~ ExprHasSideEffects ef).
    { eapply not_ExprHasSideEffects_MacroSubst_not_ExprHasSideEffects;
        [exact Hsub | simpl; tauto | constructor; [exact He | constructor]]. }
    assert (HS1 : NatMap.Equal S S'1).
    { exact (not_ExprHasSideEffects_S_Equal _ Hef _ _ _ _ _ _ _ Hcbn). }
    pose proof (not_ExprHasSideEffects_EvalExpr_tables _ Hef _ _ _ _ _ _ _
                  Hcbn (StringMap.add fname (p :: nil, Skip, Var y) F) M)
      as Hcbn'.
    (* the argument list holds one value and leaves the store as it is *)
    assert (HSa : NatMap.Equal S Sa0 /\ exists va, vs0 = va :: nil).
    { inversion Hargs0 as [| Sprev Ec G0 F0 M0 p0 e0 va Snext ps es vs Sfinal
                            Ef' Sargs' l1 ls1 Harg Hnil Hnl Hndp Hnp]; subst.
      inversion Hnil; subst. split; [| exists va; reflexivity].
      transitivity Snext; [| assumption].
      exact (not_ExprHasSideEffects_S_Equal _ He _ _ _ _ _ _ _ Harg). }
    destruct HSa as [HSa [va Hva]]. subst vs0.
    (* the callee: an empty body, then the return expression *)
    apply Skip_S_Equal in Hbody0.
    assert (HSd : NatMap.Equal Sc0 Sd0).
    { eapply not_ExprHasSideEffects_S_Equal; [| exact Hret0]. simpl. tauto. }
    assert (HSc : NatMap.Equal Sc0 (NatMapProperties.update Sa0 Sargs0)).
    { rewrite <- Hbody0, HSb0. reflexivity. }
    pose proof (S_Equal_EvalExpr _ _ _ _ _ _ _ _ Hret0 _ HSc) as Hret0'.
    split.
    + eapply call_by_name_call_by_value_1 with (mexpr := Var y);
        [ simpl; tauto | exact Hnv | exact He | exact Hsub | exact Hcbn'
        | exact Hargs0 | exact Hdisj0 | exact Hret0' ].
    + rewrite HSe0, <- HSd, HSc, <- HS1, <- HSa.
      symmetry. apply NatMap_disjoint_restrict_Equal.
      rewrite HSa. exact Hdisj0.
  - (* an object-like macro, rewritten into a call *)
    intros F M x F' mexpr fname newdef Hx Hm Hhyg Hnm HfM HfF Hnewdef HF'
      S E G v1 v2 S'1 S'2 H1 H2.
    pose proof (Hhyg _ _ _ _ _ H1) as Hnv.
    inversion H1 as [| | | | | | | | |
      S0 E0 G0 F0 M0 x0 params0 es0 mexpr0 M' ef Sm vm
      Hx0 HM' Hnd Hsub Hcbn]; subst; functional_maps.
    inversion Hsub; subst.
    inversion H2 as [| | | | | | | |
      S9 E9 G9 F9 M9 x9 es9 params9 fstmt9 fexpr9 l0 ls0 Ef0 Sargs0
      Sa0 Sb0 Sc0 Sd0 Se0 v0 vs0 _ Hf Hnd0 Hargs0 HEf0 HSargs0 Hdisj0
      HSb0 Hbody0 Hret0 HSe0
      | ]; subst; [| functional_maps].
    apply StringMapFacts.add_mapsto_iff in Hf.
    destruct Hf as [[_ Hdef] | [Hne _]]; [| contradiction Hne; reflexivity].
    injection Hdef as <- <- <-.
    inversion Hargs0 as [Sprev Ec G0 F0 M0 Snext HSa |]; subst.
    apply Skip_S_Equal in Hbody0.
    assert (HS1 : NatMap.Equal S S'1).
    { exact (not_ExprHasSideEffects_S_Equal _ Hm _ _ _ _ _ _ _ Hcbn). }
    assert (HSc : NatMap.Equal Sc0 S).
    { rewrite <- Hbody0, HSb0, HSa. apply NatMap_update_empty_Equal. }
    pose proof (S_Equal_EvalExpr _ _ _ _ _ _ _ _ Hret0 _ HSc) as Hret0'.
    destruct (EvalExpr_deterministic _ _ _ _ _ _ _ _
                (EvalExpr_NoVarsInEnvironment_empty _ Hm _ Hnv _ _ _ _ _ _
                   Hcbn _ _) _ _ Hret0')
      as [Hv HSd].
    split; [exact Hv |].
    rewrite HSe0, <- HSd, <- HS1. symmetry. apply NatMap_restrict_refl.
  - (* no argument *)
    intros M F S Ecaller G ps1 vs1 vs2 Snext1 Snext2 Ef1 Ef2
      Sargs1 Sargs2 l1 l2 ls1 ls2 H1 H2.
    inversion H1; subst. inversion H2; subst.
    repeat split; try reflexivity.
    match goal with
    | Ha : NatMap.Equal S Snext1, Hb : NatMap.Equal S Snext2 |- _ =>
        rewrite <- Ha, <- Hb; reflexivity
    end.
  - (* one more argument *)
    intros M F e es F' F'' e' es' Feresult Fesresult
      _ IHe HF' _ IHl HF'' Hnces Hnce'
      S Ecaller G ps1 vs1 vs2 Snext1 Snext2 Ef1 Ef2
      Sargs1 Sargs2 l1 l2 ls1 ls2 H1 H2.
    inversion H1 as [| Sp1 Ec1 G1 F1 M1 p1 e1 v1 Sn1 ps es1 vs Sf1
                       Ef1' Sargs1' l1' ls1' Ha1 Hl1 Hnl1 Hnd1 Hnp1]; subst.
    inversion H2 as [| Sp2 Ec2 G2 F2 M2 p2 e2 v2 Sn2 ps2 es2 vs' Sf2
                       Ef2' Sargs2' l2' ls2' Ha2 Hl2 Hnl2 Hnd2 Hnp2]; subst.
    apply EvalExpr_update_F_ExprNoCallsFromFunctionTable_EvalExpr in Ha2;
      [| exact Hnce'].
    destruct (IHe _ _ _ _ _ _ _ Ha1 Ha2) as [Hv HS].
    apply EvalExprList_ExprListNoCallsFromFunctionTable_update_F_EvalExprList
      with (F' := Feresult) in Hl1; [| exact Hnces].
    symmetry in HS.
    pose proof (S_Equal_EvalExprList _ _ _ _ _ _ _ _ _ _ _ _ _ Hl2 _ HS)
      as Hl2'.
    destruct (IHl _ _ _ _ _ _ _ _ _ _ _ _ _ _ _ _ Hl1 Hl2')
      as (Hvs & HSf & HEf & HSargs & Hl & Hls).
    subst. repeat split; try reflexivity. assumption.
  - (* Skip *)
    intros M F S E G S'1 S'2 H1 H2. inversion H1; subst. inversion H2; subst.
    match goal with
    | Ha : NatMap.Equal S S'1, Hb : NatMap.Equal S S'2 |- _ =>
        rewrite <- Ha, <- Hb; reflexivity
    end.
  - (* expression statement *)
    intros M F e F' e' _ IH S E G S'1 S'2 H1 H2.
    inversion H1; subst. inversion H2; subst.
    match goal with
    | Ha : EvalExpr _ _ _ F _ e _ _, Hb : EvalExpr _ _ _ F' _ e' _ _ |- _ =>
        destruct (IH _ _ _ _ _ _ _ Ha Hb) as [_ HS]; exact HS
    end.
  - (* if-else *)
    intros M F cond s1 s2 F' F'' F''' cond' s1' s2'
      Fcondresult Fs1result Fs2result
      _ IHc HF' _ IH1 HF'' _ IH2 HF''' Hc1 Hc2 Hs1 Hs1' Hs2a Hs2b
      S E G S'1 S'2 H1 H2.
    assert (Hcond : forall v Sa v0 Sb,
      EvalExpr S E G F M cond v Sa ->
      EvalExpr S E G F''' M cond' v0 Sb ->
      v = v0 /\ NatMap.Equal Sa Sb).
    { intros v Sa v0 Sb Ha Hb. subst.
      apply EvalExpr_update_F_ExprNoCallsFromFunctionTable_EvalExpr in Hb;
        [| exact Hc2].
      apply EvalExpr_update_F_ExprNoCallsFromFunctionTable_EvalExpr in Hb;
        [| exact Hc1].
      exact (IHc _ _ _ _ _ _ _ Ha Hb). }
    inversion H1 as
      [ | | S0 E0 G0 F0 M0 c0 v Sa t1 t2 Sa' Hca Hva Hsa
      | S0 E0 G0 F0 M0 c0 v Sa t1 t2 Sa' Hca Hva Hsa | | | | ]; subst;
    inversion H2 as
      [ | | S9 E9 G9 F9 M9 c9 v0 Sb t3 t4 Sb' Hcb Hvb Hsb
      | S9 E9 G9 F9 M9 c9 v0 Sb t3 t4 Sb' Hcb Hvb Hsb | | | | ]; subst;
    destruct (Hcond _ _ _ _ Hca Hcb) as [Hv HS]; subst;
    try contradiction; try (exfalso; apply Hva; reflexivity);
    symmetry in HS;
    pose proof (S_Equal_EvalStmt _ _ _ _ _ _ _ Hsb _ HS) as Hsb'.
    + (* both take the else branch *)
      apply EvalStmt_StmtNoCallsFromFunctionTable_update_F_EvalStmt
        with (F' := Fcondresult) in Hsa; [| exact Hs2a].
      apply EvalStmt_StmtNoCallsFromFunctionTable_update_F_EvalStmt
        with (F' := Fs1result) in Hsa; [| exact Hs2b].
      exact (IH2 _ _ _ _ _ Hsa Hsb').
    + (* both take the then branch *)
      apply EvalStmt_StmtNoCallsFromFunctionTable_update_F_EvalStmt
        with (F' := Fcondresult) in Hsa; [| exact Hs1].
      apply EvalStmt_update_F_StmtNoCallsFromFunctionTable_EvalStmt
        in Hsb'; [| exact Hs1'].
      exact (IH1 _ _ _ _ _ Hsa Hsb').
  - (* while *)
    intros M F cond s0 F' F'' cond' s0' Fcondresult Fs0result
      _ IHc HF' _ IHs HF'' Hc' Hs0 S E G S'1 S'2 H1 H2.
    apply (While_sound cond cond' s0 s0' F F'' M) with (S := S) (E := E)
      (G := G) (Sb := S); [| | exact H1 | reflexivity | exact H2].
    + intros Sx Ex Gx v1 v2 S1 S2 Ha Hb. subst.
      apply EvalExpr_update_F_ExprNoCallsFromFunctionTable_EvalExpr in Hb;
        [| exact Hc'].
      exact (IHc _ _ _ _ _ _ _ Ha Hb).
    + intros Sx Ex Gx S1 S2 Ha Hb. subst.
      apply EvalStmt_StmtNoCallsFromFunctionTable_update_F_EvalStmt
        with (F' := Fcondresult) in Ha; [| exact Hs0].
      exact (IHs _ _ _ _ _ Ha Hb).
  - (* empty block *)
    intros M F S E G S'1 S'2 H1 H2. inversion H1; subst. inversion H2; subst.
    match goal with
    | Ha : NatMap.Equal S S'1, Hb : NatMap.Equal S S'2 |- _ =>
        rewrite <- Ha, <- Hb; reflexivity
    end.
  - (* block *)
    intros M F s ss F' F'' s' ss' Fsresult Fssresult
      _ IH1 HF' _ IH2 HF'' Hs' Hss S E G S'1 S'2 H1 H2.
    inversion H1 as [ | | | | | | | S0 E0 G0 F0 M0 t ts Sa Sa' Hsa Hssa ];
      subst.
    inversion H2 as [ | | | | | | | S9 E9 G9 F9 M9 t9 ts9 Sb Sb' Hsb Hssb ];
      subst.
    apply EvalStmt_update_F_StmtNoCallsFromFunctionTable_EvalStmt in Hsb;
      [| exact Hs'].
    pose proof (IH1 _ _ _ _ _ Hsa Hsb) as HS.
    apply EvalStmt_StmtNoCallsFromFunctionTable_update_F_EvalStmt
      with (F' := Fsresult) in Hssa; [| exact Hss].
    symmetry in HS.
    pose proof (S_Equal_EvalStmt _ _ _ _ _ _ _ Hssb _ HS) as Hssb'.
    exact (IH2 _ _ _ _ _ Hssa Hssb').
Qed.

(** ** Evaluation and equal macro tables

    A macro table is only ever looked up and shrunk, so a judgment can be
    moved along an equality of macro tables. *)
Lemma Eval_M_Equal :
  (forall S E G F M e v S',
    EvalExpr S E G F M e v S' ->
    forall M2, StringMap.Equal M M2 -> EvalExpr S E G F M2 e v S') /\
  (forall S E G F M s S',
    EvalStmt S E G F M s S' ->
    forall M2, StringMap.Equal M M2 -> EvalStmt S E G F M2 s S') /\
  (forall S E G F M ps es vs S' Ef Sargs l ls,
    EvalExprList S E G F M ps es vs S' Ef Sargs l ls ->
    forall M2, StringMap.Equal M M2 ->
    EvalExprList S E G F M2 ps es vs S' Ef Sargs l ls).
Proof.
  apply Eval_mutind; intros; try (econstructor; now eauto).
  - (* function call *)
    eapply E_FunctionCall; eauto.
    match goal with
    | HM : StringMap.Equal M M2 |- _ => rewrite <- HM; assumption
    end.
  - (* macro invocation *)
    subst. eapply E_MacroInvocation; eauto.
    + match goal with
      | HM : StringMap.Equal M M2 |- _ => rewrite <- HM; assumption
      end.
    + match goal with
      | IH : forall M2, StringMap.Equal _ M2 -> EvalExpr _ _ _ _ M2 _ _ _
        |- _ => apply IH
      end.
      match goal with
      | HM : StringMap.Equal M M2 |- _ => rewrite HM; reflexivity
      end.
Qed.

(** ** The relation and the decision procedure

    The decision procedure judges an invocation at one site, with the local
    environment of that site; the relation is not given the environment
    and asks the scope condition of every site where the invocation
    evaluates.  The lemmas below relate the two. *)

(** A verdict [Transformable] is given to the two shapes of macro that the
    relation has a rule for, and to no other. *)
Lemma judged_transformable_inv :
  forall F M callerEnv params body args strategy,
  decide_transformable F M callerEnv (params, body) args =
    Transformable strategy ->
  (params = nil /\ args = nil /\ strategy = ObjectLikeToNullaryFunction /\
   ~ ExprHasSideEffects body /\
   ExprNoVarsInEnvironment body callerEnv /\
   ExprNoMacroInvocations body F M) \/
  (exists p y e,
     params = p :: nil /\ body = Var y /\ args = e :: nil /\
     strategy = FunctionLikeToFunction /\
     ~ ExprHasSideEffects e /\
     ExprNoVarsInEnvironment (Var y) callerEnv).
Proof.
  intros F M callerEnv params body args strategy.
  unfold decide_transformable.
  destruct (Nat.eqb (List.length args) (List.length params)) eqn:Hlen;
    simpl; [| discriminate].
  destruct (no_duplicates params); simpl; [| discriminate].
  destruct (no_macro_invocations body F M) eqn:Hnm; simpl; [| discriminate].
  destruct (no_vars_in_environment body callerEnv) eqn:Hnv; simpl;
    [| discriminate].
  apply Nat.eqb_eq in Hlen.
  apply no_macro_invocations_iff in Hnm.
  apply no_vars_in_environment_iff in Hnv.
  destruct params as [| p [| p2 ps]].
  - destruct (has_side_effects body) eqn:Hse; [discriminate |].
    intros Hv. injection Hv as <-. left.
    destruct args; [| discriminate Hlen].
    repeat split; try assumption.
    apply has_side_effects_false_iff. exact Hse.
  - destruct args as [| e [| e2 args]]; try discriminate Hlen.
    simpl. unfold argument_is_safe.
    destruct (has_side_effects e) eqn:Hse; simpl; [discriminate |].
    destruct (no_macro_invocations e F M); simpl; [| discriminate].
    destruct body; simpl; try discriminate.
    intros Hv. injection Hv as <-. right.
    eexists _, _, _. repeat split; try assumption.
    apply has_side_effects_false_iff. exact Hse.
  - discriminate.
Qed.

(** A macro of two or more parameters is never judged transformable, and
    the relation leaves its invocations as they are. *)
Lemma macro_of_two_parameters_is_not_transformable :
  forall F M callerEnv p1 p2 ps body args,
  exists reason,
    decide_transformable F M callerEnv (p1 :: p2 :: ps, body) args =
    NotTransformable reason.
Proof.
  intros F M callerEnv p1 p2 ps body args.
  destruct (decide_transformable F M callerEnv (p1 :: p2 :: ps, body) args)
    as [strategy | reason] eqn:Hv.
  - exfalso. apply judged_transformable_inv in Hv.
    destruct Hv as [(Hp & _) | (p & y & e & Hp & _)]; discriminate Hp.
  - exists reason. reflexivity.
Qed.


(** Every invocation that the relation rewrites is one that the decision
    procedure judges transformable, at every site where the invocation
    evaluates and no parameter of the macro is a local variable.  The
    relation lets the parameter of a macro be a local variable of the
    caller; the decision procedure asks the scope condition of the body as
    it is written. *)
Lemma rewritten_invocation_is_judged_transformable :
  forall M F x es F' fname params mexpr,
  StringMap.MapsTo x (params, mexpr) M ->
  TransformExpr M F (CallOrInvocation x es) F' (CallOrInvocation fname es) ->
  fname <> x ->
  forall S E G v S',
  EvalExpr S E G F M (CallOrInvocation x es) v S' ->
  (forall p, In p params -> ~ StringMap.In p E) ->
  decide_transformable F M E (params, mexpr) es =
  Transformable
    (match params with
     | nil => ObjectLikeToNullaryFunction
     | _ :: _ => FunctionLikeToFunction
     end).
Proof.
  intros M F x es F' fname params mexpr Hx Ht Hne S E G v S' Hev Hparams.
  inversion Ht; subst; functional_maps.
  - contradiction Hne. reflexivity.
  - (* function-like *)
    match goal with
    | He : ~ ExprHasSideEffects ?e,
      Hhyg : forall S E G v S', EvalExpr _ _ _ _ _ _ _ _ -> _ |- _ =>
        assert (Hy := Hhyg _ _ _ _ _ Hev);
        unfold decide_transformable, argument_is_safe; simpl;
        rewrite (proj2 (has_side_effects_false_iff e) He);
        rewrite (proj2 (no_macro_invocations_iff e F M)
                   (not_ExprHasSideEffects_ExprNoMacroInvocations e He F M))
    end.
    inversion Hy; subst.
    match goal with
    | Hn : ~ StringMap.In ?y (StringMap.remove ?p E) |- _ =>
        assert (HyE : ~ StringMap.In y E)
    end.
    { intros Hin. destruct (string_dec p y) as [Heq | Hneq].
      - subst y. apply (Hparams p); [left; reflexivity | exact Hin].
      - match goal with
        | Hn : ~ StringMap.In _ (StringMap.remove _ E) |- _ => apply Hn
        end.
        apply StringMapFacts.remove_in_iff. split; assumption. }
    apply StringMapFacts.not_mem_in_iff in HyE. rewrite HyE. reflexivity.
  - (* object-like *)
    unfold decide_transformable. simpl.
    match goal with
    | Hm : ~ ExprHasSideEffects ?m,
      Hnm : ExprNoMacroInvocations ?m F M,
      Hhyg : forall S E G v S', EvalExpr _ _ _ _ _ _ _ _ -> _ |- _ =>
        rewrite (proj2 (no_macro_invocations_iff m F M) Hnm);
        rewrite (proj2 (no_vars_in_environment_iff m E)
                   (Hhyg _ _ _ _ _ Hev));
        rewrite (proj2 (has_side_effects_false_iff m) Hm)
    end.
    reflexivity.
Qed.

(** An invocation that the decision procedure judges transformable at every
    site where it evaluates is rewritten by the relation into a call of the
    generated definition, under any fresh name. *)
Lemma judged_transformable_is_rewritten :
  forall M F x params body args fname callerEnv strategy,
  StringMap.MapsTo x (params, body) M ->
  decide_transformable F M callerEnv (params, body) args =
    Transformable strategy ->
  (forall S E G v S',
     EvalExpr S E G F M (CallOrInvocation x args) v S' ->
     exists strategy',
       decide_transformable F M E (params, body) args =
       Transformable strategy') ->
  ~ StringMap.In fname M ->
  ~ StringMap.In fname F ->
  TransformExpr M F (CallOrInvocation x args)
    (StringMap.add fname (generated_definition (params, body)) F)
    (CallOrInvocation fname args).
Proof.
  intros M F x params body args fname callerEnv strategy HM Hv Hall HnM HnF.
  apply judged_transformable_inv in Hv.
  destruct Hv as [(-> & -> & _ & Hse & _ & Hnm)
                 | (p & y & e & -> & -> & -> & _ & Hse & _)].
  - eapply Transform_ObjectLikeMacroNoSideEffectsNoSharedVarsNoNestedMacros;
      try eassumption; try reflexivity.
    intros S E G v S' Hev.
    destruct (Hall _ _ _ _ _ Hev) as [s' Hs'].
    apply judged_transformable_inv in Hs'.
    destruct Hs' as [(_ & _ & _ & _ & Hnv & _) | (p & y & e & Hp & _)];
      [exact Hnv | discriminate Hp].
  - eapply Transform_FunctionLikeMacro1ArgNoSideEffectsBodyVar;
      try eassumption; try reflexivity.
    intros S E G v S' Hev.
    destruct (Hall _ _ _ _ _ Hev) as [s' Hs'].
    apply judged_transformable_inv in Hs'.
    destruct Hs' as [(Hp & _) | (p' & y' & e' & _ & Hb & _ & _ & _ & Hnv)];
      [discriminate Hp |].
    injection Hb as <-.
    apply ExprNoVarsInEnvironment_remove. exact Hnv.
Qed.

(** ** The shape of an evaluated argument list *)

Lemma EvalExprList_shape :
  forall S E G F M ps es vs S' Ef Sargs l ls,
  EvalExprList S E G F M ps es vs S' Ef Sargs l ls ->
  l = 1 /\
  ((ps = nil /\ es = nil /\ vs = nil /\ NatMap.Equal S S' /\
    Ef = StringMap.empty nat /\ Sargs = NatMap.empty Z /\ ls = 0 :: nil) \/
   (exists p e v,
      ps = p :: nil /\ es = e :: nil /\ vs = v :: nil /\
      EvalExpr S E G F M e v S' /\
      Ef = StringMap.add p 1 (StringMap.empty nat) /\
      Sargs = NatMap.add 1 v (NatMap.empty Z) /\ ls = 1 :: 0 :: nil)).
Proof.
  intros S E G F M ps es vs S' Ef Sargs l ls H.
  induction H as
    [ Sprev Ecaller G F M Snext Heq
    | Sprev Ecaller G F M p e v Snext ps es vs Sfinal Ef' Sargs' l ls
        Hev Hrest IH Hnin Hnodup HninE ].
  - split; [reflexivity |]. left. repeat split. exact Heq.
  - destruct IH as [Hl [Hnil | Hone]].
    + destruct Hnil as (-> & -> & -> & Heq & -> & -> & ->). subst l.
      split; [reflexivity |]. right. exists p, e, v.
      repeat split.
      exact (S'_Equal_EvalExpr _ _ _ _ _ _ _ _ Hev _ Heq).
    + destruct Hone as (p0 & e0 & v0 & _ & _ & _ & _ & _ & HSargs & _).
      subst l Sargs'. exfalso. apply Hnin.
      apply NatMapFacts.add_in_iff. left. reflexivity.
Qed.

(** ** The domain of the store *)

Lemma Eval_store_domain_mono :
  (forall S E G F M e v S',
    EvalExpr S E G F M e v S' ->
    forall l, NatMap.In l S -> NatMap.In l S') /\
  (forall S E G F M s S',
    EvalStmt S E G F M s S' ->
    forall l, NatMap.In l S -> NatMap.In l S') /\
  (forall S E G F M ps es vs S' Ef Sargs l ls,
    EvalExprList S E G F M ps es vs S' Ef Sargs l ls ->
    forall l0, NatMap.In l0 S -> NatMap.In l0 S').
Proof.
  apply Eval_mutind; intros; eauto using NatMap_Equal_In.
  - (* local assignment *)
    match goal with
    | Heq : NatMap.Equal ?S2 (NatMapProperties.update _ _)
      |- NatMap.In _ ?S2 => rewrite Heq
    end.
    apply NatMapProperties.update_in_iff. left. assumption.
  - (* global assignment *)
    match goal with
    | Heq : NatMap.Equal ?S2 (NatMapProperties.update _ _)
      |- NatMap.In _ ?S2 => rewrite Heq
    end.
    apply NatMapProperties.update_in_iff. left. assumption.
  - (* function call *)
    match goal with
    | Heq : NatMap.Equal ?S2 (NatMapProperties.restrict _ _)
      |- NatMap.In _ ?S2 => rewrite Heq
    end.
    apply NatMapProperties.restrict_in_iff.
    split; [| assumption].
    match goal with
    | IHe : forall l, NatMap.In l ?S3 -> NatMap.In l ?S4,
      IHs : forall l, NatMap.In l ?S2 -> NatMap.In l ?S3,
      Heq : NatMap.Equal ?S2 (NatMapProperties.update ?S1 _),
      IHl : forall l, NatMap.In l ?S0 -> NatMap.In l ?S1
      |- NatMap.In _ ?S4 =>
        apply IHe, IHs; rewrite Heq;
        apply NatMapProperties.update_in_iff; left; apply IHl
    end.
    assumption.
Qed.

(** ** The frame of an evaluation *)

Ltac frame_chain :=
  repeat match goal with
  | IH : forall l, _ -> _ -> NatMap.find l ?B = NatMap.find l ?A
    |- NatMap.find ?l0 ?B = _ => rewrite (IH l0) by assumption
  | Heq : NatMap.Equal ?A ?B |- NatMap.find ?l0 ?B = _ =>
      rewrite <- (Heq l0)
  end;
  try reflexivity.

Lemma Eval_frame :
  (forall S E G F M e v S',
    EvalExpr S E G F M e v S' ->
    forall l,
    (forall x, ~ StringMap.MapsTo x l E) ->
    (forall x, ~ StringMap.MapsTo x l G) ->
    NatMap.find l S' = NatMap.find l S) /\
  (forall S E G F M s S',
    EvalStmt S E G F M s S' ->
    forall l,
    (forall x, ~ StringMap.MapsTo x l E) ->
    (forall x, ~ StringMap.MapsTo x l G) ->
    NatMap.find l S' = NatMap.find l S) /\
  (forall S E G F M ps es vs S' Ef Sargs l ls,
    EvalExprList S E G F M ps es vs S' Ef Sargs l ls ->
    forall l0,
    (forall x, ~ StringMap.MapsTo x l0 E) ->
    (forall x, ~ StringMap.MapsTo x l0 G) ->
    NatMap.find l0 S' = NatMap.find l0 S).
Proof.
  apply Eval_mutind.
  - intros; frame_chain.
  - intros; frame_chain.
  - intros; frame_chain.
  - intros; frame_chain.
  - intros; frame_chain.
  - intros; frame_chain.
  - (* local assignment *)
    intros S E G F M l x e0 v S' S'' Hx _ _ HS'' l0 HE _.
    rewrite (HS'' l0). apply NatMap_find_update_singleton_other.
    intros Heq. subst l0. exact (HE x Hx).
  - (* global assignment *)
    intros S E G F M l x e0 v S' S'' _ Hx _ _ HS'' l0 _ HG.
    rewrite (HS'' l0). apply NatMap_find_update_singleton_other.
    intros Heq. subst l0. exact (HG x Hx).
  - (* function call *)
    intros S E G F M x es params fstmt fexpr l ls Ef Sargs
      S' S'' S''' S'''' S''''' v vs
      _ _ _ Hargs IHargs _ _ Hdisj HS'' _ IHst _ IHex Hres l0 HE HG.
    rewrite (Hres l0), NatMap_find_restrict.
    destruct (NatMap.mem l0 S) eqn:Hmem.
    + apply NatMapFacts.mem_in_iff in Hmem.
      assert (HinS' : NatMap.In l0 S').
      { exact (proj2 (proj2 Eval_store_domain_mono)
                 _ _ _ _ _ _ _ _ _ _ _ _ _ Hargs l0 Hmem). }
      assert (HninSargs : ~ NatMap.In l0 Sargs).
      { intros Hin. apply (Hdisj l0). split; assumption. }
      assert (HEf : forall y, ~ StringMap.MapsTo y l0 Ef).
      { intros y Hy.
        destruct (EvalExprList_shape _ _ _ _ _ _ _ _ _ _ _ _ _ Hargs)
          as [_ [Hnil | Hone]].
        - destruct Hnil as (_ & _ & _ & _ & HEf & _). subst Ef.
          apply StringMapFacts.empty_mapsto_iff in Hy. exact Hy.
        - destruct Hone as (p & e & w & _ & _ & _ & _ & HEf & HSa & _).
          subst Ef Sargs.
          apply StringMapFacts.add_mapsto_iff in Hy.
          destruct Hy as [[_ Hl] | [_ Hy]].
          + apply HninSargs. apply NatMapFacts.add_in_iff. left. exact Hl.
          + apply StringMapFacts.empty_mapsto_iff in Hy. exact Hy. }
      rewrite (IHex l0 HEf HG), (IHst l0 HEf HG), (HS'' l0).
      rewrite NatMap_find_update.
      apply NatMapFacts.not_find_in_iff in HninSargs. rewrite HninSargs.
      apply IHargs; assumption.
    + symmetry. apply NatMapFacts.not_find_in_iff.
      intros Hin. apply NatMapFacts.mem_in_iff in Hin. congruence.
  - intros; frame_chain.
  - intros; frame_chain.
  - intros; frame_chain.
  - intros; frame_chain.
  - intros; frame_chain.
  - intros; frame_chain.
  - intros; frame_chain.
  - intros; frame_chain.
  - intros; frame_chain.
  - intros; frame_chain.
  - intros; frame_chain.
Qed.

(** ** Evaluation and equal local environments *)

Lemma Eval_E_Equal :
  (forall S E G F M e v S',
    EvalExpr S E G F M e v S' ->
    forall E2, StringMap.Equal E E2 -> EvalExpr S E2 G F M e v S') /\
  (forall S E G F M s S',
    EvalStmt S E G F M s S' ->
    forall E2, StringMap.Equal E E2 -> EvalStmt S E2 G F M s S') /\
  (forall S E G F M ps es vs S' Ef Sargs l ls,
    EvalExprList S E G F M ps es vs S' Ef Sargs l ls ->
    forall E2, StringMap.Equal E E2 ->
    EvalExprList S E2 G F M ps es vs S' Ef Sargs l ls).
Proof.
  apply Eval_mutind; intros;
    try match goal with
    | Heq : StringMap.Equal ?E ?E2, Hm : StringMap.MapsTo _ _ ?E |- _ =>
        rewrite Heq in Hm
    | Heq : StringMap.Equal ?E ?E2, Hn : ~ StringMap.In _ ?E |- _ =>
        rewrite Heq in Hn
    end;
    try (econstructor; now eauto).
Qed.

(** ** Macro substitution and assignments *)

Lemma MSub_not_ContainsAssign :
  forall p e,
  ~ ContainsAssign e ->
  forall mexpr,
  ~ ContainsAssign mexpr ->
  exists ef, MSub p e mexpr ef /\ ~ ContainsAssign ef.
Proof.
  intros p e He mexpr.
  induction mexpr as
    [ z | x | e0 IH | uo e0 IH | bo e1 e2 IH1 IH2 | x e0 IH | x es IH ]
    using expr_nested_ind; intros Hm.
  - exists (Num z). split; [constructor | exact Hm].
  - destruct (string_dec p x) as [Heq | Hne].
    + exists e. split; [apply MS_Var_Replace; exact Heq | exact He].
    + exists (Var x). split; [apply MS_Var_No_Replace; exact Hne | exact Hm].
  - destruct IH as (ef & Hs & Hn).
    { intros Hc. apply Hm. constructor. exact Hc. }
    exists (ParenExpr ef). split; [constructor; exact Hs |].
    intros Hc. inversion Hc; subst. contradiction.
  - destruct IH as (ef & Hs & Hn).
    { intros Hc. apply Hm. constructor. exact Hc. }
    exists (UnExpr uo ef). split; [constructor; exact Hs |].
    intros Hc. inversion Hc; subst. contradiction.
  - destruct IH1 as (ef1 & Hs1 & Hn1).
    { intros Hc. apply Hm. apply CA_BinExpr_l. exact Hc. }
    destruct IH2 as (ef2 & Hs2 & Hn2).
    { intros Hc. apply Hm. apply CA_BinExpr_r. exact Hc. }
    exists (BinExpr bo ef1 ef2). split; [constructor; assumption |].
    intros Hc. inversion Hc; subst; contradiction.
  - exfalso. apply Hm. constructor.
  - assert (Hes : exists es',
      MSubList p e es es' /\ ~ Exists ContainsAssign es').
    { assert (Hno : ~ Exists ContainsAssign es).
      { intros Hc. apply Hm. constructor. exact Hc. }
      clear Hm. induction IH as [| a es Ha _ IHes].
      - exists nil. split; [constructor |].
        intros Hc. inversion Hc.
      - destruct Ha as (a' & Hsa & Hna).
        { intros Hc. apply Hno. apply Exists_cons_hd. exact Hc. }
        destruct IHes as (es' & Hses & Hnes).
        { intros Hc. apply Hno. apply Exists_cons_tl. exact Hc. }
        exists (a' :: es'). split; [constructor; assumption |].
        intros Hc. inversion Hc; subst; contradiction. }
    destruct Hes as (es' & Hses & Hnes).
    exists (CallOrInvocation x es'). split; [constructor; exact Hses |].
    intros Hc. inversion Hc; subst. contradiction.
Qed.

(** ** The log of the transformer *)

Lemma contains_false_not_In :
  forall ch s, contains ch s = false -> ~ In ch (list_ascii_of_string s).
Proof.
  intros ch s. induction s as [| c s IH]; simpl; intros Hc Hin.
  - exact Hin.
  - destruct (Ascii.eqb c ch) eqn:Heq; [discriminate Hc |].
    destruct Hin as [Hin | Hin].
    + subst c. rewrite Ascii.eqb_refl in Heq. discriminate Heq.
    + exact (IH Hc Hin).
Qed.

(** Two fields that end at the same delimiter, which neither contains, are
    equal as soon as what they begin is. *)
Lemma field_inv :
  forall ch d a1 a2 r1 r2,
  contains ch a1 = false ->
  contains ch a2 = false ->
  (a1 ++ (String ch d ++ r1) = a2 ++ (String ch d ++ r2))%string ->
  a1 = a2 /\ r1 = r2.
Proof.
  intros ch d a1 a2 r1 r2 H1 H2 H.
  destruct (append_delimiter_inv ch a1 a2 (d ++ r1) (d ++ r2)
              (contains_false_not_In _ _ H1)
              (contains_false_not_In _ _ H2) H) as [Ha Hr].
  split; [exact Ha | exact (append_inv_head _ _ _ Hr)].
Qed.

Ltac unfold_stream :=
  unfold emitUntransformedMessage, emitMacroDefinitionMessage,
    emitMacroExpansionMessage, emitTransformedDefinitionMessage,
    emitTransformedExpansionMessage, write;
  simpl fst; simpl snd; rewrite ?append_assoc.

(** ** The properties of the specification

    The theorems below are the claims of the specification, stated over the
    definitions above. *)

(** C1. Soundness.  If an expression terminates to a value and a final
    store before it is transformed, and its transformation terminates to a
    value and a final store from the same initial store, under the same
    environments and macro table, then the two values are equal and the two
    final stores are equal as maps. *)
Theorem transform_expr_sound_mut_v_s :
  forall M F e F' e',
  TransformExpr M F e F' e' ->
  forall S E G v1 v2 S'1 S'2,
  EvalExpr S E G F M e v1 S'1 ->
  EvalExpr S E G F' M e' v2 S'2 ->
  v1 = v2 /\ NatMap.Equal S'1 S'2.
Proof.
  exact (proj1 Transform_sound_mut).
Qed.

(** C2. Call-by-name and call-by-value agree on the value of a
    one-parameter macro whose body has no side effects, invokes no macro
    and names no variable of the caller's local environment, when the
    argument has no side effects and invokes no macro either.  The body may
    read the parameter any number of times. *)
Theorem no_side_effects_no_shared_vars_with_caller_evalargs_macrosubst_1 :
  forall mexpr,
  ~ ExprHasSideEffects mexpr ->
  forall F M,
  ExprNoMacroInvocations mexpr F M ->
  forall Ecaller,
  ExprNoVarsInEnvironment mexpr Ecaller ->
  forall e,
  ~ ExprHasSideEffects e ->
  ExprNoMacroInvocations e F M ->
  forall ef p,
  MacroSubst (p::nil) (e::nil) mexpr ef ->
  forall S G v S''',
  EvalExpr S Ecaller G F M ef v S''' ->
  forall v0_ S' Ef Sargs l ls,
  EvalExprList S Ecaller G F M (p::nil) (e::nil) (v0_::nil) S' Ef Sargs l ls ->
  NatMapProperties.Disjoint S' Sargs ->
  forall v0 S'''0,
  EvalExpr (NatMapProperties.update S' Sargs) Ef G F M mexpr v0 S'''0 ->
  v = v0.
Proof.
  intros mexpr Hm F M _ Ecaller Hnv e He _ ef p Hsub S G v S''' Hcbn
    v0_ S' Ef Sargs l ls Hargs Hdisj v0 S'''0 Hcbv.
  exact (call_by_name_call_by_value_1 mexpr Hm Ecaller p
           (ExprNoVarsInEnvironment_remove mexpr Ecaller p Hnv) e He ef Hsub
           S G F M v S''' Hcbn v0_ S' Ef Sargs l ls Hargs Hdisj
           v0 S'''0 Hcbv).
Qed.

(** C3. Evaluation is deterministic: under one store, one pair of
    environments and one pair of tables, an expression has at most one value
    and, up to equality of maps, at most one final store.  Macro
    substitution is deterministic too: the same parameters and arguments
    substituted in the same body give the same expression. *)
Theorem evaluation_and_macro_substitution_deterministic :
  (forall S E G F M e v1 S'1 v2 S'2,
    EvalExpr S E G F M e v1 S'1 ->
    EvalExpr S E G F M e v2 S'2 ->
    v1 = v2 /\ NatMap.Equal S'1 S'2) /\
  (forall params es mexpr ef ef0,
    MacroSubst params es mexpr ef ->
    MacroSubst params es mexpr ef0 ->
    ef = ef0).
Proof.
  split.
  - intros S E G F M e v1 S'1 v2 S'2 H1 H2.
    destruct Eval_deterministic_mut as [He _].
    apply (He _ _ _ _ _ _ _ _ H1 S v2 S'2); [reflexivity | exact H2].
  - intros params es mexpr ef ef0 H1 H2.
    exact (MacroSubst_deterministic _ _ _ _ H1 _ H2).
Qed.

(** C4. Macro definitions shadow function definitions.  When the name of an
    invocation is bound in the macro table, the invocation evaluates by
    macro expansion only: its value and final store are those of the
    substituted macro body.  It evaluates as a function call only when the
    name is not bound in the macro table. *)
Theorem macro_definitions_shadow_function_definitions :
  forall S E G F M x es v S',
  EvalExpr S E G F M (CallOrInvocation x es) v S' ->
  (StringMap.In x M ->
    exists params mexpr ef,
      StringMap.MapsTo x (params, mexpr) M /\
      NoDup params /\
      MacroSubst params es mexpr ef /\
      EvalExpr S E G F (StringMap.remove x M) ef v S') /\
  (~ StringMap.In x M ->
    exists params fstmt fexpr vs S1 Ef Sargs l ls S2 S3 S4,
      StringMap.MapsTo x (params, fstmt, fexpr) F /\
      NoDup params /\
      EvalExprList S E G F M params es vs S1 Ef Sargs l ls /\
      NatMapProperties.Disjoint S1 Sargs /\
      NatMap.Equal S2 (NatMapProperties.update S1 Sargs) /\
      EvalStmt S2 Ef G F M fstmt S3 /\
      EvalExpr S3 Ef G F M fexpr v S4 /\
      NatMap.Equal S' (NatMapProperties.restrict S4 S)).
Proof.
  intros S E G F M x es v S' Hev. inversion Hev; subst; split; intros Hin.
  - contradiction.
  - exists params, fstmt, fexpr, vs, S'0, Ef, Sargs, l, ls, S'', S''', S''''.
    repeat (split; [assumption |]). assumption.
  - exists params, mexpr, ef. repeat (split; [assumption |]). assumption.
  - exfalso. apply Hin. eapply StringMap_mapsto_in; eassumption.
Qed.

(** C5. A macro never expands itself.  When an invocation of the macro [x]
    evaluates, the substituted body of [x] is evaluated under the macro
    table from which [x] has been removed.  [x] is not bound in that table:
    an invocation of [x] evaluated under it can only be a call of a function
    named [x], and the body evaluates to the same value and store whatever
    [x] is defined as in the macro table. *)
Theorem macro_body_evaluated_without_its_own_macro :
  forall S E G F M x es v S',
  StringMap.In x M ->
  EvalExpr S E G F M (CallOrInvocation x es) v S' ->
  exists params mexpr ef,
    StringMap.MapsTo x (params, mexpr) M /\
    MacroSubst params es mexpr ef /\
    EvalExpr S E G F (StringMap.remove x M) ef v S' /\
    ~ StringMap.In x (StringMap.remove x M) /\
    (forall S0 E0 G0 F0 es0 v0 S0',
      EvalExpr S0 E0 G0 F0 (StringMap.remove x M)
        (CallOrInvocation x es0) v0 S0' ->
      StringMap.In x F0) /\
    (forall mdef,
      EvalExpr S E G F (StringMap.remove x (StringMap.add x mdef M)) ef v S').
Proof.
  intros S E G F M x es v S' Hin Hev.
  assert (Hrem : ~ StringMap.In x (StringMap.remove (elt:=macro_definition) x M)).
  { intros Hx. apply StringMapFacts.remove_in_iff in Hx.
    destruct Hx as [Hne _]. apply Hne. reflexivity. }
  inversion Hev; subst.
  - contradiction.
  - exists params, mexpr, ef. repeat (split; [assumption |]). split.
    + intros S0 E0 G0 F0 es0 v0 S0' Hev0. inversion Hev0; subst.
      * eapply StringMap_mapsto_in; eassumption.
      * exfalso. apply Hrem. eapply StringMap_mapsto_in; eassumption.
    + intros mdef. destruct Eval_M_Equal as [He _].
      eapply He; [eassumption |].
      intros k. rewrite !StringMapFacts.remove_o.
      destruct (StringMapFacts.eq_dec x k) as [Heq | Hne]; [reflexivity |].
      rewrite StringMapFacts.add_neq_o; [reflexivity | exact Hne].
Qed.

(** C6. An expression for which the side-effect analyzer answers [false]
    leaves the store unchanged whenever it terminates: the final store is
    the initial store, as a map.  And the analyzer flags every expression
    that contains an assignment. *)
Theorem side_effect_analyzer_sound_and_flags_assignments :
  (forall e,
    has_side_effects e = false ->
    forall S E G F M v S',
    EvalExpr S E G F M e v S' ->
    NatMap.Equal S S') /\
  (forall e, ContainsAssign e -> has_side_effects e = true).
Proof.
  split.
  - intros e Hno S E G F M v S' Hev.
    apply has_side_effects_false_iff in Hno.
    exact (not_ExprHasSideEffects_S_Equal e Hno S E G F M v S' Hev).
  - induction 1; simpl; try reflexivity; try assumption.
    + rewrite IHContainsAssign. reflexivity.
    + rewrite IHContainsAssign. apply orb_true_r.
Qed.

(** C7. The generated function.  A macro invocation is either left as it
    is, or rewritten into a call, with the same arguments, of a function
    with a fresh name whose definition is the macro's parameter list, the
    body [Skip] and the macro body, unchanged, as return expression.  An
    object-like macro gives a function with no parameter, called with no
    argument; the function of a function-like macro has the macro's
    parameter. *)
Theorem transformable_macro_generated_definition :
  forall M F x es F' e' params mexpr,
  StringMap.MapsTo x (params, mexpr) M ->
  TransformExpr M F (CallOrInvocation x es) F' e' ->
  (F' = F /\ e' = CallOrInvocation x es) \/
  (exists fname,
    ~ StringMap.In fname M /\
    ~ StringMap.In fname F /\
    e' = CallOrInvocation fname es /\
    F' = StringMap.add fname (generated_definition (params, mexpr)) F /\
    generated_definition (params, mexpr) = (params, Skip, mexpr) /\
    StringMap.MapsTo fname (params, Skip, mexpr) F' /\
    List.length es = List.length params /\
    (params = nil \/ exists p y, params = p :: nil /\ mexpr = Var y)).
Proof.
  intros M F x es F' e' params mexpr Hx Ht.
  inversion Ht; subst; functional_maps.
  - left. split; reflexivity.
  - right. exists fname. unfold generated_definition. simpl.
    repeat (split; [first [assumption | reflexivity] |]).
    split; [apply StringMap.add_1; reflexivity |].
    split; [reflexivity |].
    right. exists p, y. split; reflexivity.
  - right. exists fname. unfold generated_definition. simpl.
    repeat (split; [first [assumption | reflexivity] |]).
    split; [apply StringMap.add_1; reflexivity |].
    split; [reflexivity |].
    left. reflexivity.
Qed.


(** C10. Adding definitions to the function table never changes what an
    expression evaluates to.  If an expression terminates with a value and a
    final store, it terminates with the same value and the same final store
    after a definition is added under a name that was not in the table, and
    after any table disjoint from the function table is merged into it. *)
Theorem EvalExpr_preserved_by_fresh_function_definitions :
  forall S E G F M e v S',
  EvalExpr S E G F M e v S' ->
  (forall x fdef,
    ~ StringMap.In x F ->
    EvalExpr S E G (StringMap.add x fdef F) M e v S') /\
  (forall F',
    StringMapProperties.Disjoint F F' ->
    EvalExpr S E G (StringMapProperties.update F F') M e v S').
Proof.
  intros S E G F M e v S' Hev.
  destruct Eval_F_extends as [He _]. split.
  - intros x fdef Hnin. apply (He _ _ _ _ _ _ _ _ Hev).
    apply F_extends_add. exact Hnin.
  - intros F' Hd. apply (He _ _ _ _ _ _ _ _ Hev).
    apply F_extends_update. exact Hd.
Qed.

(** ** Further properties of the evaluation rules

    What the rules of [EvalRules.v] do at their edges (argument lists,
    arities, unbound names, loops), the invariants they keep on the store,
    how statements compose, and the lemmas of [EvalRules.v] and
    [Theorems.v] that the properties above do not state. *)

(** X1. Argument lists.  An argument list evaluates exactly when it is empty
    or holds one expression: the L-value handed out is always 1, and a
    second argument would need it again.  The empty list leaves an empty
    callee environment and argument store; a single argument [e] for the
    parameter [p] binds [p] to location 1 and stores the value of [e]
    there. *)
Theorem EvalExprList_zero_or_one_argument :
  forall S E G F M ps es vs S' Ef Sargs l ls,
  EvalExprList S E G F M ps es vs S' Ef Sargs l ls <->
  l = 1 /\
  ((ps = nil /\ es = nil /\ vs = nil /\ NatMap.Equal S S' /\
    Ef = StringMap.empty nat /\ Sargs = NatMap.empty Z /\ ls = 0 :: nil) \/
   (exists p e v,
      ps = p :: nil /\ es = e :: nil /\ vs = v :: nil /\
      EvalExpr S E G F M e v S' /\
      Ef = StringMap.add p 1 (StringMap.empty nat) /\
      Sargs = NatMap.add 1 v (NatMap.empty Z) /\ ls = 1 :: 0 :: nil)).
Proof.
  intros S E G F M ps es vs S' Ef Sargs l ls. split.
  - apply EvalExprList_shape.
  - intros [-> [Hnil | Hone]].
    + destruct Hnil as (-> & -> & -> & Heq & -> & -> & ->).
      constructor. exact Heq.
    + destruct Hone as (p & e & v & -> & -> & -> & Hev & -> & -> & ->).
      apply E_ExprList_cons with S'.
      * exact Hev.
      * constructor. reflexivity.
      * intros Hin. apply NatMapFacts.empty_in_iff in Hin. exact Hin.
      * constructor; [intros Hin; inversion Hin | constructor].
      * intros Hin. apply StringMapFacts.empty_in_iff in Hin. exact Hin.
Qed.

(** X2. Calls.  When no macro is named [x], the call [x(es)] evaluates only
    if the function table defines [x], with as many parameters as there
    are arguments, and there is at most one argument: a call of an
    undefined function, a call with the wrong number of arguments and a
    call with two or more arguments have no value. *)
Theorem function_call_needs_definition_and_arity :
  forall S E G F M x es v S',
  ~ StringMap.In x M ->
  EvalExpr S E G F M (CallOrInvocation x es) v S' ->
  exists params fstmt fexpr,
    StringMap.MapsTo x (params, fstmt, fexpr) F /\
    List.length es = List.length params /\
    (List.length es <= 1)%nat.
Proof.
  intros S E G F M x es v S' HninM Hev.
  inversion Hev; subst; functional_maps.
  match goal with
  | Hargs : EvalExprList _ _ _ _ _ ?ps es _ _ _ _ _ _,
    HF : StringMap.MapsTo x (?ps, ?st, ?fe) F |- _ =>
      exists ps, st, fe; split; [exact HF |];
      destruct (EvalExprList_shape _ _ _ _ _ _ _ _ _ _ _ _ _ Hargs)
        as [_ [Hnil | Hone]]
  end.
  - destruct Hnil as (-> & -> & _). split; [reflexivity | apply Nat.le_0_l].
  - destruct Hone as (p & e & w & -> & -> & _).
    split; [reflexivity | apply Nat.le_refl].
Qed.

(** X3. Invocations.  When the macro table defines [x], the invocation
    [x(es)] evaluates only if the macro has as many parameters as there
    are arguments and no parameter twice. *)
Theorem macro_invocation_needs_arity :
  forall S E G F M x es v S' params mexpr,
  StringMap.MapsTo x (params, mexpr) M ->
  EvalExpr S E G F M (CallOrInvocation x es) v S' ->
  List.length es = List.length params /\ NoDup params.
Proof.
  intros S E G F M x es v S' params mexpr HM Hev.
  inversion Hev; subst; functional_maps.
  split; [| assumption].
  match goal with
  | Hs : MacroSubst _ _ _ _ |- _ =>
      clear - Hs; induction Hs; simpl; [reflexivity | f_equal; assumption]
  end.
Qed.

(** X4. A call with one argument evaluates only from a store in which
    location 1 is free: that is where the argument is put, and the
    argument store must be disjoint from the caller's. *)
Theorem one_argument_call_needs_location_1_free :
  forall S E G F M x e v S',
  ~ StringMap.In x M ->
  EvalExpr S E G F M (CallOrInvocation x (e :: nil)) v S' ->
  ~ NatMap.In 1 S.
Proof.
  intros S E G F M x e v S' HninM Hev Hin.
  inversion Hev; subst; functional_maps.
  match goal with
  | Hargs : EvalExprList _ _ _ _ _ _ _ _ ?S1 _ ?Sa _ _,
    Hdisj : NatMapProperties.Disjoint ?S1 ?Sa |- _ =>
      apply (Hdisj 1); split;
      [ exact (proj2 (proj2 Eval_store_domain_mono)
                 _ _ _ _ _ _ _ _ _ _ _ _ _ Hargs 1 Hin)
      | destruct (EvalExprList_shape _ _ _ _ _ _ _ _ _ _ _ _ _ Hargs)
          as [_ [Hnil | Hone]] ]
  end.
  - destruct Hnil as (_ & Hes & _). discriminate Hes.
  - destruct Hone as (p & e1 & w & _ & _ & _ & _ & _ & -> & _).
    apply NatMapFacts.add_in_iff. left. reflexivity.
Qed.

(** X5. Evaluating an expression never frees a location: every location of
    the initial store is a location of the final store. *)
Theorem evaluation_never_frees_a_location :
  forall S E G F M e v S' l,
  EvalExpr S E G F M e v S' ->
  NatMap.In l S -> NatMap.In l S'.
Proof.
  intros S E G F M e v S' l Hev.
  exact (proj1 Eval_store_domain_mono _ _ _ _ _ _ _ _ Hev l).
Qed.

(** X6. The frame of an evaluation.  Evaluating an expression changes the
    store only at locations of variables that the local or the global
    environment binds: any other location holds afterwards what it held
    before, and is allocated afterwards only if it was before. *)
Theorem evaluation_changes_only_bound_locations :
  forall S E G F M e v S' l,
  EvalExpr S E G F M e v S' ->
  (forall x, ~ StringMap.MapsTo x l E) ->
  (forall x, ~ StringMap.MapsTo x l G) ->
  NatMap.find l S' = NatMap.find l S.
Proof.
  intros S E G F M e v S' l Hev.
  exact (proj1 Eval_frame _ _ _ _ _ _ _ _ Hev l).
Qed.

(** X7. A function call returns a store with the locations of the store it
    was called from, no more and no fewer: the L-values of the arguments
    are freed on return. *)
Theorem function_call_preserves_store_domain :
  forall S E G F M x es v S' l,
  ~ StringMap.In x M ->
  EvalExpr S E G F M (CallOrInvocation x es) v S' ->
  (NatMap.In l S' <-> NatMap.In l S).
Proof.
  intros S E G F M x es v S' l HninM Hev. split.
  - inversion Hev; subst; functional_maps.
    match goal with
    | Hres : NatMap.Equal S' (NatMapProperties.restrict _ S) |- _ =>
        rewrite Hres; intros Hin;
        apply NatMapProperties.restrict_in_iff in Hin; exact (proj2 Hin)
    end.
  - exact (proj1 Eval_store_domain_mono _ _ _ _ _ _ _ _ Hev l).
Qed.

(** X8. A call without arguments changes the store only at locations of
    global variables: the locations of the caller's local variables that
    no global variable shares hold afterwards what they held before. *)
Theorem nullary_call_changes_only_global_locations :
  forall S E G F M x v S' l,
  ~ StringMap.In x M ->
  EvalExpr S E G F M (CallOrInvocation x nil) v S' ->
  (forall y, ~ StringMap.MapsTo y l G) ->
  NatMap.find l S' = NatMap.find l S.
Proof.
  intros S E G F M x v S' l HninM Hev HG.
  inversion Hev; subst; functional_maps.
  match goal with
  | Hargs : EvalExprList _ _ _ _ _ _ _ _ _ _ _ _ _ |- _ =>
      destruct (EvalExprList_shape _ _ _ _ _ _ _ _ _ _ _ _ _ Hargs)
        as [_ [Hnil | Hone]]
  end.
  - destruct Hnil as (_ & _ & _ & HS1 & -> & -> & _).
    assert (HEf : forall y, ~ StringMap.MapsTo y l (StringMap.empty nat)).
    { intros y Hy. apply StringMapFacts.empty_mapsto_iff in Hy. exact Hy. }
    match goal with
    | Hres : NatMap.Equal S' (NatMapProperties.restrict ?S4 S),
      Hex : EvalExpr ?S3 _ G F M _ v ?S4,
      Hst : EvalStmt ?S2 _ G F M _ ?S3,
      HS2 : NatMap.Equal ?S2 (NatMapProperties.update ?S1 _) |- _ =>
        rewrite (Hres l), NatMap_find_restrict;
        rewrite (proj1 Eval_frame _ _ _ _ _ _ _ _ Hex l HEf HG);
        rewrite (proj1 (proj2 Eval_frame) _ _ _ _ _ _ _ Hst l HEf HG);
        rewrite (HS2 l), NatMap_find_update, NatMapFacts.empty_o;
        rewrite <- (HS1 l)
    end.
    destruct (NatMap.mem l S) eqn:Hmem; [reflexivity |].
    symmetry. apply NatMapFacts.not_find_in_iff.
    intros Hin. apply NatMapFacts.mem_in_iff in Hin. congruence.
  - destruct Hone as (p & e1 & w & _ & Hes & _). discriminate Hes.
Qed.

(** X9. Assignment.  [x = e0] leaves the store that the assignment started
    from with the value of [e0] at the location of [x] (the local [x] if
    there is one, the global [x] otherwise): what evaluating [e0] itself
    wrote to the store is not kept. *)
Theorem assignment_updates_the_initial_store :
  forall S E G F M x e0 v S'',
  EvalExpr S E G F M (Assign x e0) v S'' ->
  exists l,
    (StringMap.MapsTo x l E \/
     (~ StringMap.In x E /\ StringMap.MapsTo x l G)) /\
    NatMap.Equal S'' (NatMap.add l v S).
Proof.
  intros S E G F M x e0 v S'' Hev.
  assert (Hadd : forall l,
    NatMap.Equal
      (NatMapProperties.update S (NatMap.add l v (NatMap.empty Z)))
      (NatMap.add l v S)).
  { intros l k. rewrite NatMap_find_update.
    destruct (Nat.eq_dec l k) as [Heq | Hne].
    - rewrite !NatMapFacts.add_eq_o by exact Heq. reflexivity.
    - rewrite !NatMapFacts.add_neq_o by exact Hne.
      rewrite NatMapFacts.empty_o. reflexivity. }
  inversion Hev; subst.
  - exists l. split; [left; assumption |].
    match goal with
    | Heq : NatMap.Equal S'' _ |- _ => rewrite Heq
    end.
    apply Hadd.
  - exists l. split; [right; split; assumption |].
    match goal with
    | Heq : NatMap.Equal S'' _ |- _ => rewrite Heq
    end.
    apply Hadd.
Qed.

(** X10. Variables.  A variable that the local environment binds is read at
    its local location, whatever the global environment binds the name
    to, and reading it leaves the store as it is. *)
Theorem local_variable_shadows_global :
  forall S E G F M x l v S',
  StringMap.MapsTo x l E ->
  EvalExpr S E G F M (Var x) v S' ->
  NatMap.MapsTo l v S /\ NatMap.Equal S S'.
Proof.
  intros S E G F M x l v S' Hx Hev.
  inversion Hev; subst; functional_maps.
  split; assumption.
Qed.

(** X11. A variable has a value only if the local or the global environment
    binds it ([EvalExpr_Var_x_in_E_or_G]): an unbound variable is stuck. *)
Theorem EvalExpr_Var_x_in_E_or_G :
  forall S E G F M x v S',
  EvalExpr S E G F M (Var x) v S' ->
  StringMap.In x E \/ StringMap.In x G.
Proof.
  intros S E G F M x v S' Hev. inversion Hev; subst.
  - left. eapply StringMap_mapsto_in. eassumption.
  - right. eapply StringMap_mapsto_in. eassumption.
Qed.

(** X12. A macro whose body is a numeral expands to that numeral, whatever
    its parameters and arguments ([MacroSubst_mexpr_Num_ef_Num]). *)
Theorem MacroSubst_mexpr_Num_ef_Num :
  forall params es z ef,
  MacroSubst params es (Num z) ef ->
  ef = Num z.
Proof.
  intros params es z ef H. remember (Num z) as m eqn:Hm.
  induction H as [mexpr | p e ps es mexpr ef ef' Hs _ IH].
  - reflexivity.
  - subst mexpr. inversion Hs; subst. apply IH. reflexivity.
Qed.

(** X13. Substitution into an assignment.  A macro whose body assigns to its
    parameter can be invoked only with a variable as the argument: for any
    other argument no substitution rule applies, so the invocation has no
    value. *)
Theorem macro_assigning_its_parameter_needs_variable_argument :
  forall S E G F M x p e0 e v S',
  StringMap.MapsTo x (p :: nil, Assign p e0) M ->
  EvalExpr S E G F M (CallOrInvocation x (e :: nil)) v S' ->
  exists y, e = Var y.
Proof.
  intros S E G F M x p e0 e v S' HM Hev.
  inversion Hev; subst; functional_maps.
  match goal with
  | Hs : MacroSubst _ _ _ _ |- _ => inversion Hs; subst
  end.
  match goal with
  | Hs : MSub _ _ (Assign _ _) _ |- _ => inversion Hs; subst
  end.
  - eexists. reflexivity.
  - exfalso. match goal with Hne : ?a <> ?a |- _ => apply Hne end.
    reflexivity.
Qed.

(** X14. Macro substitution is defined wherever there is no assignment: if
    neither the body nor any argument contains an assignment, every list
    of arguments as long as the list of parameters can be substituted. *)
Theorem MacroSubst_total_without_assignments :
  forall params es mexpr,
  List.length params = List.length es ->
  ~ ContainsAssign mexpr ->
  (forall e, In e es -> ~ ContainsAssign e) ->
  exists ef, MacroSubst params es mexpr ef.
Proof.
  intros params. induction params as [| p ps IH]; intros es mexpr Hlen Hm Hes.
  - destruct es as [| e es]; [| discriminate Hlen].
    exists mexpr. constructor.
  - destruct es as [| e es]; [discriminate Hlen |].
    destruct (MSub_not_ContainsAssign p e (Hes e (or_introl eq_refl)) mexpr Hm)
      as (ef & Hs & Hn).
    destruct (IH es ef) as (ef' & Hs').
    + simpl in Hlen. injection Hlen as Hlen. exact Hlen.
    + exact Hn.
    + intros a Ha. apply Hes. right. exact Ha.
    + exists ef'. apply MacroSubst_cons with ef; assumption.
Qed.

(** X15. Substituting every parameter by itself changes nothing: a macro
    invoked with its own parameter names as the arguments expands to its
    body. *)
Theorem MacroSubst_parameters_for_themselves :
  forall params mexpr,
  MacroSubst params (map Var params) mexpr mexpr.
Proof.
  assert (Hone : forall p mexpr, MSub p (Var p) mexpr mexpr).
  { intros p mexpr.
    induction mexpr as
      [ z | x | e0 IH | uo e0 IH | bo e1 e2 IH1 IH2 | x e0 IH | x es IH ]
      using expr_nested_ind.
    - constructor.
    - destruct (string_dec p x) as [Heq | Hne].
      + subst x. apply MS_Var_Replace. reflexivity.
      + apply MS_Var_No_Replace. exact Hne.
    - constructor. exact IH.
    - constructor. exact IH.
    - constructor; assumption.
    - destruct (string_dec p x) as [Heq | Hne].
      + subst x. apply MS_Assign_Replace; [reflexivity | reflexivity | exact IH].
      + apply MS_Assign_No_Replace; assumption.
    - constructor. induction IH; constructor; assumption. }
  intros params mexpr. induction params as [| p ps IH]; simpl.
  - constructor.
  - apply MacroSubst_cons with mexpr; [apply Hone | exact IH].
Qed.

(** X16. Blocks compose.  A block made of two lists of statements evaluates
    as the first list followed by the second, through some intermediate
    store. *)
Theorem Compound_app :
  forall E G F M ss1 ss2 S S'',
  EvalStmt S E G F M (Compound (ss1 ++ ss2)) S'' <->
  exists S',
    EvalStmt S E G F M (Compound ss1) S' /\
    EvalStmt S' E G F M (Compound ss2) S''.
Proof.
  intros E G F M ss1 ss2. induction ss1 as [| s ss1 IH]; intros S S''; simpl.
  - split.
    + intros H. exists S. split; [constructor; reflexivity | exact H].
    + intros (S' & H1 & H2). inversion H1; subst.
      apply S_Equal_EvalStmt with S'; [exact H2 |].
      symmetry. assumption.
  - split.
    + intros H. inversion H; subst.
      match goal with
      | Hs : EvalStmt S E G F M s ?S1,
        Hr : EvalStmt ?S1 E G F M (Compound (ss1 ++ ss2)) S'' |- _ =>
          apply IH in Hr; destruct Hr as (Sm & Hr1 & Hr2);
          exists Sm; split; [apply E_CompoundStmt_cons with S1 |]; assumption
      end.
    + intros (S' & H1 & H2). inversion H1; subst.
      match goal with
      | Hs : EvalStmt S E G F M s ?S1 |- _ =>
          apply E_CompoundStmt_cons with S1; [exact Hs |]
      end.
      apply IH. exists S'. split; assumption.
Qed.

(** X17. A loop is its own unrolling: [while (c) s] evaluates as
    [if (c) { s; while (c) s } else skip]. *)
Theorem While_unroll :
  forall S E G F M cond s0 S',
  EvalStmt S E G F M (While cond s0) S' <->
  EvalStmt S E G F M
    (IfElse cond (Compound (s0 :: While cond s0 :: nil)) Skip) S'.
Proof.
  intros S E G F M cond s0 S'. split; intros H; inversion H; subst.
  - eapply E_IfElseFalse; [eassumption | reflexivity |].
    constructor. reflexivity.
  - eapply E_IfElseTrue; [eassumption | assumption |].
    eapply E_CompoundStmt_cons; [eassumption |].
    eapply E_CompoundStmt_cons; [eassumption |].
    constructor. reflexivity.
  - match goal with
    | Hs : EvalStmt _ E G F M Skip S' |- _ => inversion Hs; subst
    end.
    eapply E_WhileFalse; [| reflexivity].
    eapply S'_Equal_EvalExpr; eassumption.
  - match goal with
    | Hs : EvalStmt _ E G F M (Compound (_ :: _)) S' |- _ =>
        inversion Hs; subst
    end.
    match goal with
    | Hs : EvalStmt _ E G F M (Compound (_ :: nil)) S' |- _ =>
        inversion Hs; subst
    end.
    match goal with
    | Hs : EvalStmt _ E G F M (Compound nil) S' |- _ =>
        inversion Hs; subst
    end.
    eapply E_WhileTrue; [eassumption | assumption | eassumption |].
    eapply S'_Equal_EvalStmt; eassumption.
Qed.

(** X18. A loop whose condition is a non-zero numeral never terminates:
    there is no final store. *)
Theorem While_nonzero_numeral_never_terminates :
  forall S E G F M z s0 S',
  z <> 0%Z ->
  ~ EvalStmt S E G F M (While (Num z) s0) S'.
Proof.
  intros S E G F M z s0 S' Hz H.
  remember (While (Num z) s0) as w eqn:Hw.
  induction H; try discriminate Hw.
  - injection Hw as -> ->.
    match goal with
    | Hc : EvalExpr _ _ _ _ _ (Num z) _ _ |- _ => inversion Hc; subst
    end.
    contradiction.
  - auto.
Qed.

(** X19. Statements are deterministic: two evaluations of a statement from
    the same store end in stores that are equal as maps. *)
Theorem EvalStmt_deterministic :
  forall S E G F M s S1 S2,
  EvalStmt S E G F M s S1 ->
  EvalStmt S E G F M s S2 ->
  NatMap.Equal S1 S2.
Proof.
  intros S E G F M s S1 S2 H1 H2.
  destruct Eval_deterministic_mut as [_ [Hs _]].
  eapply Hs; [exact H1 | reflexivity | exact H2].
Qed.

(** X20. Expressions are evaluated up to equality of maps: an evaluation
    can be moved to an equal initial store, an equal local environment and
    an equal final store ([S_Equal_EvalExpr], [S'_Equal_EvalExpr],
    [E_Equal_EvalExpr]). *)
Theorem EvalExpr_respects_Equal :
  forall S_1 E_1 G F M e v S'_1 S_2 E_2 S'_2,
  NatMap.Equal S_1 S_2 ->
  StringMap.Equal E_1 E_2 ->
  NatMap.Equal S'_1 S'_2 ->
  EvalExpr S_1 E_1 G F M e v S'_1 ->
  EvalExpr S_2 E_2 G F M e v S'_2.
Proof.
  intros S_1 E_1 G F M e v S'_1 S_2 E_2 S'_2 HS HE HS' Hev.
  apply (proj1 Eval_E_Equal) with E_1; [| exact HE].
  exact (proj1 Eval_store_Equal _ _ _ _ _ _ _ _ Hev _ _ HS HS').
Qed.

(** X21. Statements are evaluated up to equality of maps, in the same way
    ([S_Equal_EvalStmt], [S'_Equal_EvalStmt], [E_Equal_EvalStmt]). *)
Theorem EvalStmt_respects_Equal :
  forall S_1 E_1 G F M st S'_1 S_2 E_2 S'_2,
  NatMap.Equal S_1 S_2 ->
  StringMap.Equal E_1 E_2 ->
  NatMap.Equal S'_1 S'_2 ->
  EvalStmt S_1 E_1 G F M st S'_1 ->
  EvalStmt S_2 E_2 G F M st S'_2.
Proof.
  intros S_1 E_1 G F M st S'_1 S_2 E_2 S'_2 HS HE HS' Hev.
  apply (proj1 (proj2 Eval_E_Equal)) with E_1; [| exact HE].
  exact (proj1 (proj2 Eval_store_Equal) _ _ _ _ _ _ _ Hev _ _ HS HS').
Qed.

(** X22. Functions are statically scoped.  A call without arguments has the
    same value and the same final store under every local environment of
    the caller: the body runs in the callee's own environment. *)
Theorem nullary_call_ignores_caller_environment :
  forall S E G F M x v S' E2,
  ~ StringMap.In x M ->
  EvalExpr S E G F M (CallOrInvocation x nil) v S' ->
  EvalExpr S E2 G F M (CallOrInvocation x nil) v S'.
Proof.
  intros S E G F M x v S' E2 HninM Hev.
  inversion Hev; subst; functional_maps.
  match goal with
  | Hargs : EvalExprList _ _ _ _ _ _ nil _ _ _ _ _ _ |- _ =>
      inversion Hargs; subst
  end.
  match goal with
  | HF : StringMap.MapsTo x (nil, ?fstmt, ?fexpr) F,
    HS2 : NatMap.Equal ?S2 (NatMapProperties.update ?S1 _),
    Hst : EvalStmt ?S2 _ G F M ?fstmt ?S3,
    Hex : EvalExpr ?S3 _ G F M ?fexpr v ?S4 |- _ =>
      apply E_FunctionCall with
        (params := nil) (fstmt := fstmt) (fexpr := fexpr) (l := 1)
        (ls := 0 :: nil) (Ef := StringMap.empty nat)
        (Sargs := NatMap.empty Z) (S' := S1) (S'' := S2) (S''' := S3)
        (S'''' := S4) (vs := nil)
  end; try assumption.
  constructor. assumption.
Qed.

(** X23. Taking out of the function table definitions that were not in it
    changes nothing: if an expression evaluates under a function table, it
    evaluates to the same value and store under the difference of that
    table and any table disjoint from it
    ([EvalExpr_Disjoint_diff_F_EvalExpr]). *)
Theorem EvalExpr_Disjoint_diff_F_EvalExpr :
  forall S E G F M e v S' F',
  EvalExpr S E G F M e v S' ->
  StringMapProperties.Disjoint F F' ->
  EvalExpr S E G (StringMapProperties.diff F F') M e v S'.
Proof.
  intros S E G F M e v S' F' Hev Hd.
  apply (proj1 Eval_F_extends _ _ _ _ _ _ _ _ Hev).
  intros x fdef Hm. apply StringMapProperties.diff_mapsto_iff.
  split; [exact Hm |].
  intros Hin. apply (Hd x). split; [exists fdef; exact Hm | exact Hin].
Qed.

(** X24. Adding definitions to the function table never changes what a
    statement does.  If a statement terminates in a store, it terminates in
    the same store after a definition is added under a name that was not
    in the table, and after any table disjoint from the function table is
    merged into it ([EvalStmt_notin_F_add_EvalStmt],
    [EvalStmt_Disjoint_update_F_EvalStmt]). *)
Theorem EvalStmt_preserved_by_fresh_function_definitions :
  forall S E G F M s S',
  EvalStmt S E G F M s S' ->
  (forall x fdef,
    ~ StringMap.In x F ->
    EvalStmt S E G (StringMap.add x fdef F) M s S') /\
  (forall F',
    StringMapProperties.Disjoint F F' ->
    EvalStmt S E G (StringMapProperties.update F F') M s S').
Proof.
  intros S E G F M s S' Hev. split.
  - intros x fdef Hnin.
    apply (proj1 (proj2 Eval_F_extends) _ _ _ _ _ _ _ Hev).
    apply F_extends_add. exact Hnin.
  - intros F' Hd.
    apply (proj1 (proj2 Eval_F_extends) _ _ _ _ _ _ _ Hev).
    apply F_extends_update. exact Hd.
Qed.

(** X25. Adding definitions to the function table never changes what an
    argument list evaluates to: the values, the store, the callee's
    environment and the argument store are the same after a definition is
    added under a new name, and after a disjoint table is merged in
    ([EvalExprList_notin_F_add_EvalExprList],
    [EvalExprList_Disjoint_update_F_EvalExprList]). *)
Theorem EvalExprList_preserved_by_fresh_function_definitions :
  forall S E G F M ps es vs S' Ef Sargs l ls,
  EvalExprList S E G F M ps es vs S' Ef Sargs l ls ->
  (forall x fdef,
    ~ StringMap.In x F ->
    EvalExprList S E G (StringMap.add x fdef F) M ps es vs S' Ef Sargs l ls) /\
  (forall F',
    StringMapProperties.Disjoint F F' ->
    EvalExprList S E G (StringMapProperties.update F F') M
      ps es vs S' Ef Sargs l ls).
Proof.
  intros S E G F M ps es vs S' Ef Sargs l ls Hev. split.
  - intros x fdef Hnin.
    apply (proj2 (proj2 Eval_F_extends) _ _ _ _ _ _ _ _ _ _ _ _ _ Hev).
    apply F_extends_add. exact Hnin.
  - intros F' Hd.
    apply (proj2 (proj2 Eval_F_extends) _ _ _ _ _ _ _ _ _ _ _ _ _ Hev).
    apply F_extends_update. exact Hd.
Qed.

(** X26. An object-like macro without side effects, without macro
    invocations and without variables of the caller's local environment
    has the same value as a macro body, evaluated in the caller's
    environment, and as the body of a function without parameters,
    evaluated in the callee's environment after the empty argument list
    ([no_side_effects_no_shared_vars_with_caller_evalargs_macrosubst_nil]). *)
Theorem no_side_effects_no_shared_vars_with_caller_evalargs_macrosubst_nil :
  forall mexpr F M Ecaller ef S G v S''' S' Ef Sargs l ls v0 S'''0,
  ~ ExprHasSideEffects mexpr ->
  ExprNoMacroInvocations mexpr F M ->
  ExprNoVarsInEnvironment mexpr Ecaller ->
  MacroSubst nil nil mexpr ef ->
  EvalExpr S Ecaller G F M ef v S''' ->
  EvalExprList S Ecaller G F M nil nil nil S' Ef Sargs l ls ->
  NatMapProperties.Disjoint S' Sargs ->
  EvalExpr (NatMapProperties.update S' Sargs) Ef G F M mexpr v0 S'''0 ->
  v = v0.
Proof.
  intros mexpr F M Ecaller ef S G v S''' S' Ef Sargs l ls v0 S'''0
    Hno _ Hnv Hsub Hname Hargs _ Hvalue.
  inversion Hsub; subst. inversion Hargs; subst.
  assert (Hempty := EvalExpr_NoVarsInEnvironment_empty
            _ Hno _ Hnv _ _ _ _ _ _ Hname F M).
  assert (HS : NatMap.Equal S
            (NatMapProperties.update S' (NatMap.empty Z))).
  { rewrite NatMap_update_empty_Equal. assumption. }
  exact (proj1 (EvalExpr_deterministic _ _ _ _ _ _ _ _
           (S_Equal_EvalExpr _ _ _ _ _ _ _ _ Hempty _ HS) _ _ Hvalue)).
Qed.

(** X27. Soundness for statements.  If a statement terminates before it is
    transformed, and its transformation terminates from the same store,
    under the same environments and macro table, then the two final stores
    are equal as maps. *)
Theorem transform_stmt_sound :
  forall M F s F' s' S E G S'1 S'2,
  TransformStmt M F s F' s' ->
  EvalStmt S E G F M s S'1 ->
  EvalStmt S E G F' M s' S'2 ->
  NatMap.Equal S'1 S'2.
Proof.
  intros M F s F' s' S E G S'1 S'2 Ht.
  exact (proj2 (proj2 Transform_sound_mut) _ _ _ _ _ Ht S E G S'1 S'2).
Qed.

(** ** Properties of the log *)

(** X28. The kind of a record can be read off the record.  Written to the
    same stream, records of two different kinds differ, whatever the
    macros, locations and names they report: after [CPP2C:] every function
    writes a tag of its own, and no tag begins another. *)
Theorem log_records_of_different_kinds_differ :
  forall OS
    Ctx1 Expansion1 Category Reason
    MD2 SM2 LO2
    SpellingRange3 MD3 SM3 LO3
    TD4 Ctx4 SM4 LO4
    Expansion5 Ctx5 SM5 LO5,
  let untransformed :=
    emitUntransformedMessage OS Ctx1 Expansion1 Category Reason in
  let definition := emitMacroDefinitionMessage OS MD2 SM2 LO2 in
  let expansion := emitMacroExpansionMessage OS SpellingRange3 MD3 SM3 LO3 in
  let transformed_definition :=
    fst (emitTransformedDefinitionMessage OS TD4 Ctx4 SM4 LO4) in
  let transformed_expansion :=
    emitTransformedExpansionMessage OS Expansion5 Ctx5 SM5 LO5 in
  untransformed <> definition /\
  untransformed <> expansion /\
  untransformed <> transformed_definition /\
  transformed_expansion <> Some untransformed /\
  definition <> expansion /\
  definition <> transformed_definition /\
  transformed_expansion <> Some definition /\
  expansion <> transformed_definition /\
  transformed_expansion <> Some expansion /\
  transformed_expansion <> Some transformed_definition.
Proof.
  intros. subst untransformed definition expansion transformed_definition
    transformed_expansion.
  unfold emitTransformedExpansionMessage.
  repeat split; intros H;
    try (destruct (getStmtsRef Expansion5); [discriminate H |];
         injection H as H);
    revert H; unfold_stream; intros H;
    apply append_inv_head in H; apply append_inv_head in H;
    simpl in H; discriminate H.
Qed.

(** X29. A record of an expansion that was not transformed determines its
    five fields.  If the hash of the macro contains no double quote, and
    the location, the name of the enclosing declaration and the category
    contain no comma, then two records that are equal report the same
    hash, location, name, category and reason. *)
Theorem untransformed_record_determines_its_fields :
  forall OS Ctx Expansion1 Category1 Reason1 Expansion2 Category2 Reason2,
  let hash Expansion :=
    hashMacro (getMI Expansion) (getSourceManager Ctx) (getLangOpts Ctx) in
  let location Expansion :=
    printToString (getBegin (getSpellingRange Expansion))
      (getSourceManager Ctx) in
  let name Expansion :=
    getNameOfTopLevelVarOrFunctionDeclStmtExpandedIn Ctx
      (match getStmtsRef Expansion with
       | ST :: _ => Some ST
       | nil => None
       end) in
  contains double_quote (hash Expansion1) = false ->
  contains double_quote (hash Expansion2) = false ->
  contains comma (location Expansion1) = false ->
  contains comma (location Expansion2) = false ->
  contains comma (name Expansion1) = false ->
  contains comma (name Expansion2) = false ->
  contains comma Category1 = false ->
  contains comma Category2 = false ->
  emitUntransformedMessage OS Ctx Expansion1 Category1 Reason1 =
  emitUntransformedMessage OS Ctx Expansion2 Category2 Reason2 ->
  hash Expansion1 = hash Expansion2 /\
  location Expansion1 = location Expansion2 /\
  name Expansion1 = name Expansion2 /\
  Category1 = Category2 /\
  Reason1 = Reason2.
Proof.
  intros OS Ctx Expansion1 Category1 Reason1 Expansion2 Category2 Reason2
    hash location name Hh1 Hh2 Hl1 Hl2 Hn1 Hn2 Hc1 Hc2 H.
  revert H. unfold_stream. intros H.
  fold (hash Expansion1) (hash Expansion2)
       (location Expansion1) (location Expansion2)
       (name Expansion1) (name Expansion2) in H.
  do 4 apply append_inv_head in H.
  destruct (field_inv double_quote "," _ _ _ _ Hh1 Hh2 H) as [Hhash H1].
  destruct (field_inv comma "" _ _ _ _ Hl1 Hl2 H1) as [Hloc H2].
  destruct (field_inv comma "" _ _ _ _ Hn1 Hn2 H2) as [Hname H3].
  destruct (field_inv comma "" _ _ _ _ Hc1 Hc2 H3) as [Hcat H4].
  apply append_inv_tail in H4.
  repeat split; assumption.
Qed.

(** X30. The record of a transformed definition and the emitted name.  The
    function hands the definition back as it found it, and the emitted
    name is the last field of the record and appears nowhere else in it:
    the signature is printed with the name emptied, so definitions that
    differ in their emitted name only are reported with the same hash and
    the same signature. *)
Theorem transformed_definition_record_and_emitted_name :
  forall OS TD Ctx SM LO,
  snd (emitTransformedDefinitionMessage OS TD Ctx SM LO) = TD /\
  exists fields,
    forall name,
    fst (emitTransformedDefinitionMessage OS (setEmittedName TD name)
           Ctx SM LO) =
    (fields ++ name ++ String line_feed "")%string.
Proof.
  intros OS TD Ctx SM LO. split.
  - destruct TD as [name expansion rest]. reflexivity.
  - exists
      (OS << "CPP2C:"
          << "Transformed Definition,"
          << String double_quote ""
          << hashMacro (getMI (getExpansion TD)) SM LO
          << String double_quote ","
          << String double_quote ""
          << getExpansionSignatureOrDeclaration (setEmittedName TD "") Ctx true
          << String double_quote ""
          << ",")%stream.
    intros name.
    exact (append_assoc _ name (String line_feed "")).
Qed.

End Cpp2C.

(** ** A concrete instance: integer arithmetic

    The examples below run the rules on the unary operators [+], [-] and
    the binary operators [+], [-], [*], [/] over [Z]. *)

Inductive arith_unop : Type := Positive | Negative.

Inductive arith_binop : Type := Plus | Sub | Mul | Div.

Definition arith_unop_to_op (uo : arith_unop) : Z -> Z :=
  match uo with
  | Positive => id
  | Negative => Z.opp
  end.

Definition arith_binop_to_op (bo : arith_binop) : Z -> Z -> Z :=
  match bo with
  | Plus => Z.add
  | Sub => Z.sub
  | Mul => Z.mul
  | Div => Z.div
  end.

Abbreviation aexpr := (expr arith_unop arith_binop).
Abbreviation astmt := (stmt arith_unop arith_binop).
Abbreviation aEvalExpr :=
  (EvalExpr arith_unop arith_binop arith_unop_to_op arith_binop_to_op).
Abbreviation aEvalExprList :=
  (EvalExprList arith_unop arith_binop arith_unop_to_op arith_binop_to_op).
Abbreviation aMacroSubst := (MacroSubst arith_unop arith_binop).
Abbreviation aNum := (Num arith_unop arith_binop).
Abbreviation aVar := (Var arith_unop arith_binop).
Abbreviation aBinExpr := (BinExpr arith_unop).
Abbreviation aCall := (CallOrInvocation arith_unop arith_binop).
Abbreviation aSkip := (Skip arith_unop arith_binop).
Abbreviation afunction_table := (function_table arith_unop arith_binop).
Abbreviation amacro_table := (macro_table arith_unop arith_binop).

(** A store with the global [g] at location 5, holding 40. *)
Definition S_g : store := NatMap.add 5%nat 40%Z (NatMap.empty Z).
Definition G_g : environment :=
  StringMap.add "g"%string 5%nat (StringMap.empty nat).
Definition E_none : environment := StringMap.empty nat.

(** A function table with one nullary function [f] that returns 7. *)
Definition F_f : afunction_table :=
  StringMap.add "f"%string (@nil string, aSkip, aNum 7)
    (StringMap.empty _).

(** A macro table with an object-like macro [f] whose body is 2. *)
Definition M_f : amacro_table :=
  StringMap.add "f"%string (@nil string, aNum 2) (StringMap.empty _).

Definition M_none : amacro_table := StringMap.empty _.

(** *** A macro that reads its parameter twice

    [#define TWICE(a) a + a], invoked as [TWICE(x)] where [x] is a local
    variable of the caller at location 6, holding 1. *)
Abbreviation aUnExpr := (UnExpr arith_unop arith_binop).
Abbreviation aAssign := (Assign arith_unop arith_binop).
Abbreviation aParenExpr := (ParenExpr arith_unop arith_binop).

Definition S_gx : store := NatMap.add 6%nat 1%Z S_g.
Definition E_x : environment :=
  StringMap.add "x"%string 6%nat (StringMap.empty nat).
Definition twice_body : aexpr :=
  aBinExpr arith_binop Plus (aVar "a"%string) (aVar "a"%string).
Definition twice_x : aexpr :=
  aBinExpr arith_binop Plus (aVar "x"%string) (aVar "x"%string).
Definition Ef_a : environment :=
  StringMap.add "a"%string 1%nat (StringMap.empty nat).
Definition Sargs_a : store := NatMap.add 1%nat 1%Z (NatMap.empty Z).

(** *** A function-like macro: [#define ID(a) a], invoked as [ID(x)] *)

Abbreviation aTransformExpr := (TransformExpr arith_unop arith_binop
  arith_unop_to_op arith_binop_to_op).
Abbreviation adecide_transformable :=
  (decide_transformable arith_unop arith_binop).

Definition M_id : amacro_table :=
  StringMap.add "ID"%string ("a"%string :: nil, aVar "a"%string)
    (StringMap.empty _).

Definition F_id : afunction_table :=
  StringMap.add "cpp2c_ID"%string
    ("a"%string :: nil, aSkip, aVar "a"%string) F_f.

(** *** An object-like macro: [#define TEN 10] *)

Definition M_ten : amacro_table :=
  StringMap.add "TEN"%string (@nil string, aNum 10) (StringMap.empty _).

Definition F_ten : afunction_table :=
  StringMap.add "cpp2c_TEN"%string (@nil string, aSkip, aNum 10) F_f.

(** *** A sum of a macro invocation and a call: [TEN + f()] *)

Definition TEN_plus_f : aexpr :=
  aBinExpr arith_binop Plus (aCall "TEN"%string nil) (aCall "f"%string nil).

Definition cpp2c_TEN_plus_f : aexpr :=
  aBinExpr arith_binop Plus
    (aCall "cpp2c_TEN"%string nil) (aCall "f"%string nil).

Definition F_ten_f : afunction_table :=
  StringMapProperties.update F_ten
    (StringMap.add "f"%string (@nil string, aSkip, aNum 7)
       (StringMap.empty _)).

(** *** Capture: [#define X x] and [#define F(a) x], with a global [x] at
    location 5 next to the local [x] at location 6 *)
Definition G_x : environment :=
  StringMap.add "x"%string 5%nat (StringMap.empty nat).

Definition M_X : amacro_table :=
  StringMap.add "X"%string (@nil string, aVar "x"%string) (StringMap.empty _).

Definition F_X : afunction_table :=
  StringMap.add "cpp2c_X"%string (@nil string, aSkip, aVar "x"%string) F_f.

Definition M_F : amacro_table :=
  StringMap.add "F"%string ("a"%string :: nil, aVar "x"%string)
    (StringMap.empty _).

Definition F_F : afunction_table :=
  StringMap.add "cpp2c_F"%string
    (generated_definition arith_unop arith_binop
       ("a"%string :: nil, aVar "x"%string)) F_f.

Definition Sargs_0 : store := NatMap.add 1%nat 0%Z (NatMap.empty Z).

(** ** A concrete instance: conditional evaluation

    [tests] of the implementation hold macros whose expansion evaluates an
    argument conditionally.  The analyzers and the transformation never
    look at the meaning of an operator. *)

Inductive c_unop : Type := Dereference | LogicalNot.

Inductive c_binop : Type := LogicalAnd | LogicalOr.



Abbreviation cexpr := (expr c_unop c_binop).
Abbreviation cVar := (Var c_unop c_binop).
Abbreviation cNum := (Num c_unop c_binop).

(** [#define A_THEN_B(a, b) ((a) && (b))] *)
Definition A_THEN_B : macro_definition c_unop c_binop :=
  ("a"%string :: "b"%string :: nil,
   ParenExpr c_unop c_binop
     (BinExpr c_unop c_binop LogicalAnd
        (ParenExpr c_unop c_binop (cVar "a"%string))
        (ParenExpr c_unop c_binop (cVar "b"%string)))).

(** The arguments of [A_THEN_B(p, *p)] *)
Definition args_p_deref_p : list cexpr :=
  cVar "p"%string :: UnExpr c_unop c_binop Dereference (cVar "p"%string) :: nil.

(** The arguments of [A_THEN_B(1, 2)] *)
Definition args_1_2 : list cexpr := cNum 1 :: cNum 2 :: nil.

(** The site of the test program: [p] is a local variable of [main], and
    [A_THEN_B] is the one macro. *)
Definition E_p : environment :=
  StringMap.add "p"%string 6%nat (StringMap.empty nat).

Definition M_A_THEN_B : macro_table c_unop c_binop :=
  StringMap.add "A_THEN_B"%string A_THEN_B (StringMap.empty _).

(** *** A function that writes a global: [set_g() { g = 1; return g; }] *)
Abbreviation aExpr := (Expr arith_unop arith_binop).
Abbreviation aWhile := (While arith_unop arith_binop).
Abbreviation aEvalStmt :=
  (EvalStmt arith_unop arith_binop arith_unop_to_op arith_binop_to_op).
Abbreviation aTransformStmt := (TransformStmt arith_unop arith_binop
  arith_unop_to_op arith_binop_to_op).

Definition F_set_g : afunction_table :=
  StringMap.add "set_g"%string
    (@nil string, aExpr (aAssign "g"%string (aNum 1)), aVar "g"%string)
    (StringMap.empty _).

(** The store in which [set_g()] starts its body, the store it leaves it
    in, and the store it returns to the caller from [S_gx]. *)
Definition S_set_g_enter : store :=
  NatMapProperties.update S_gx (NatMap.empty Z).
Definition S_set_g_leave : store :=
  NatMapProperties.update S_set_g_enter
    (NatMap.add 5%nat 1%Z (NatMap.empty Z)).
Definition S_set_g_return : store :=
  NatMapProperties.restrict S_set_g_leave S_gx.

(** *** A nested assignment: [x = (g = 3)] *)
Definition x_gets_g_gets_3 : aexpr :=
  aAssign "x"%string (aAssign "g"%string (aNum 3)).
Definition S_x_3 : store :=
  NatMapProperties.update S_gx (NatMap.add 6%nat 3%Z (NatMap.empty Z)).

(** *** A macro that assigns to its parameter: [#define SET(a) a = 1] *)
Definition M_set : amacro_table :=
  StringMap.add "SET"%string
    ("a"%string :: nil, aAssign "a"%string (aNum 1)) (StringMap.empty _).
Definition S_x_1 : store :=
  NatMapProperties.update S_gx (NatMap.add 6%nat 1%Z (NatMap.empty Z)).

(** *** A function table with another function, [h] *)
Definition F_h : afunction_table :=
  StringMap.add "h"%string (@nil string, aSkip, aNum 0) (StringMap.empty _).

(** *** The store and the environment of [x], written another way *)
Definition S_gx_again : store := NatMap.add 6%nat 1%Z (NatMap.add 6%nat 0%Z S_g).
Definition E_x_again : environment :=
  StringMap.add "x"%string 6%nat
    (StringMap.add "x"%string 0%nat (StringMap.empty nat)).

(** The store that [cpp2c_ID(x)] returns to the caller from [S_gx]. *)
Definition S_ID_return : store :=
  NatMapProperties.restrict (NatMapProperties.update S_gx Sargs_a) S_gx.

(** ** A concrete instance: a log

    A macro is known by the text of its hash, a location by its printed
    form and a statement by the name of the declaration it stands in; the
    context, the source manager and the language options carry nothing. *)
Definition log_hashMacro (MI : string) (SM LO : unit) : string := MI.
Definition log_printToString (Loc : string) (SM : unit) : string := Loc.
Definition log_getName (Ctx : unit) (ST : option string) : string :=
  match ST with
  | Some name => name
  | None => EmptyString
  end.

(** Two expansions of [FOO] at the same place of [main]: they differ in
    where they end and in the statements after the first. *)
Definition FOO_in_main : MacroExpansionNode string string string :=
  {| getMI := "FOO"%string;
     getSpellingRange :=
       {| getBegin := "a.c:3:5"%string; getEnd := "a.c:3:8"%string |};
     getStmtsRef := "main"%string :: nil |}.

Definition FOO_in_main_again : MacroExpansionNode string string string :=
  {| getMI := "FOO"%string;
     getSpellingRange :=
       {| getBegin := "a.c:3:5"%string; getEnd := "a.c:3:9"%string |};
     getStmtsRef := "main"%string :: "main"%string :: nil |}.

(** ** Examples *)

(** *** A function and a macro of the same name *)

Lemma F_f_maps_f :
  StringMap.MapsTo "f"%string (@nil string, aSkip, aNum 7) F_f.
Proof. apply StringMap.add_1. reflexivity. Qed.

Lemma M_f_maps_f :
  StringMap.MapsTo "f"%string (@nil string, aNum 2) M_f.
Proof. apply StringMap.add_1. reflexivity. Qed.

Lemma M_none_empty : forall x, ~ StringMap.In x M_none.
Proof. intros x Hin. apply StringMapFacts.empty_in_iff in Hin. exact Hin. Qed.

(** With no macro of that name, [f()] is a call and returns 7. *)
Lemma call_f_evaluates :
  aEvalExpr S_g E_none G_g F_f M_none (aCall "f"%string nil) 7 S_g.
Proof.
  apply EvalExpr_nullary_call with (fexpr := aNum 7).
  - apply M_none_empty.
  - exact F_f_maps_f.
  - constructor. reflexivity.
Qed.

(** With the macro [f] defined, [f()] expands the macro and yields 2, though
    the function [f] is still in the function table. *)
Lemma macro_f_evaluates :
  aEvalExpr S_g E_none G_g F_f M_f (aCall "f"%string nil) 2 S_g.
Proof.
  apply E_MacroInvocation with
    (params := nil) (mexpr := aNum 2)
    (M' := StringMap.remove "f"%string M_f) (ef := aNum 2).
  - exact M_f_maps_f.
  - reflexivity.
  - constructor.
  - constructor.
  - constructor. reflexivity.
Qed.

Lemma evaluation_and_macro_substitution_deterministic_witness :
  (7%Z = 7%Z /\ NatMap.Equal S_g S_g) /\ aNum 2 = aNum 2.
Proof.
  split.
  - exact (proj1 (evaluation_and_macro_substitution_deterministic
                    arith_unop arith_binop arith_unop_to_op arith_binop_to_op)
             _ _ _ _ _ _ _ _ _ _ call_f_evaluates call_f_evaluates).
  - exact (proj2 (evaluation_and_macro_substitution_deterministic
                    arith_unop arith_binop arith_unop_to_op arith_binop_to_op)
             nil nil (aNum 2) (aNum 2) (aNum 2)
             (MacroSubst_nil _ _ (aNum 2)) (MacroSubst_nil _ _ (aNum 2))).
Defined.

Lemma macro_definitions_shadow_function_definitions_witness :
  (exists params mexpr ef,
    StringMap.MapsTo "f"%string (params, mexpr) M_f /\
    NoDup params /\
    aMacroSubst params nil mexpr ef /\
    aEvalExpr S_g E_none G_g F_f (StringMap.remove "f"%string M_f) ef 2 S_g) /\
  (exists params fstmt fexpr,
    StringMap.MapsTo "f"%string (params, fstmt, fexpr) F_f).
Proof.
  split.
  - apply (proj1 (macro_definitions_shadow_function_definitions
                    _ _ _ _ _ _ _ _ _ _ _ _ _ macro_f_evaluates)).
    exists (@nil string, aNum 2). exact M_f_maps_f.
  - destruct (proj2 (macro_definitions_shadow_function_definitions
                       _ _ _ _ _ _ _ _ _ _ _ _ _ call_f_evaluates)
                (M_none_empty "f"%string))
      as (params & fstmt & fexpr & _ & _ & _ & _ & _ & _ & _ & _ & _ & Hf & _).
    exists params, fstmt, fexpr. exact Hf.
Defined.

Lemma macro_body_evaluated_without_its_own_macro_witness :
  exists params mexpr ef,
    StringMap.MapsTo "f"%string (params, mexpr) M_f /\
    aMacroSubst params nil mexpr ef /\
    aEvalExpr S_g E_none G_g F_f (StringMap.remove "f"%string M_f) ef 2 S_g.
Proof.
  destruct (macro_body_evaluated_without_its_own_macro
              _ _ _ _ _ _ _ _ _ _ _ _ _
              (ex_intro _ (@nil string, aNum 2) M_f_maps_f)
              macro_f_evaluates)
    as (params & mexpr & ef & Hm & Hs & He & _).
  exists params, mexpr, ef. repeat split; assumption.
Defined.

Lemma EvalExpr_preserved_by_fresh_function_definitions_witness :
  aEvalExpr S_g E_none G_g
    (StringMap.add "cpp2c_0"%string (@nil string, aSkip, aNum 2) F_f)
    M_none (aCall "f"%string nil) 7 S_g /\
  aEvalExpr S_g E_none G_g
    (StringMapProperties.update F_f (StringMap.empty _))
    M_none (aCall "f"%string nil) 7 S_g.
Proof.
  destruct (EvalExpr_preserved_by_fresh_function_definitions
              _ _ _ _ _ _ _ _ _ _ _ _ call_f_evaluates) as [Hadd Hupd].
  split.
  - apply Hadd. intros Hin. apply StringMapFacts.add_in_iff in Hin.
    destruct Hin as [Heq | Hin]; [discriminate Heq |].
    apply StringMapFacts.empty_in_iff in Hin. exact Hin.
  - apply Hupd. intros k [_ Hin].
    apply StringMapFacts.empty_in_iff in Hin. exact Hin.
Defined.

(** *** A macro that reads its parameter twice: [TWICE(x)] *)

Lemma twice_subst :
  aMacroSubst ("a"%string :: nil) (aVar "x"%string :: nil) twice_body twice_x.
Proof.
  apply MacroSubst_cons with (ef := twice_x).
  - apply MS_BinExpr; apply MS_Var_Replace; reflexivity.
  - apply MacroSubst_nil.
Qed.

Lemma x_evaluates :
  forall G F M, aEvalExpr S_gx E_x G F M (aVar "x"%string) 1 S_gx.
Proof.
  intros G F M. apply E_LocalVar with (l := 6%nat).
  - reflexivity.
  - apply StringMap.add_1. reflexivity.
  - apply NatMap.add_1. reflexivity.
Qed.

(** Call-by-name: [x + x] in the caller's environment. *)
Lemma twice_call_by_name :
  aEvalExpr S_gx E_x G_g F_f M_none twice_x 2 S_gx.
Proof.
  change 2%Z with (arith_binop_to_op Plus 1 1).
  apply E_BinExpr with (S' := S_gx); apply x_evaluates.
Qed.

(** Call-by-value: the argument list [x] binds [a] to location 1. *)
Lemma twice_args :
  aEvalExprList S_gx E_x G_g F_f M_none
    ("a"%string :: nil) (aVar "x"%string :: nil) (1%Z :: nil)
    S_gx Ef_a Sargs_a 1%nat (1%nat :: 0%nat :: nil).
Proof.
  apply E_ExprList_cons with (Snext := S_gx).
  - apply x_evaluates.
  - apply E_ExprList_nil. reflexivity.
  - intros Hin. apply NatMapFacts.empty_in_iff in Hin. exact Hin.
  - constructor; [intros [] | constructor].
  - intros Hin. apply StringMapFacts.empty_in_iff in Hin. exact Hin.
Qed.

Lemma S_gx_Sargs_a_Disjoint : NatMapProperties.Disjoint S_gx Sargs_a.
Proof.
  intros k [Hs Ha].
  apply NatMapFacts.add_in_iff in Ha. destruct Ha as [Hk | Ha].
  - subst k. apply NatMapFacts.add_in_iff in Hs.
    destruct Hs as [Hk | Hs]; [discriminate Hk |].
    apply NatMapFacts.add_in_iff in Hs.
    destruct Hs as [Hk | Hs]; [discriminate Hk |].
    apply NatMapFacts.empty_in_iff in Hs. exact Hs.
  - apply NatMapFacts.empty_in_iff in Ha. exact Ha.
Qed.

(** ... and the body [a + a] runs in the callee's environment. *)
Lemma twice_call_by_value :
  aEvalExpr (NatMapProperties.update S_gx Sargs_a) Ef_a G_g F_f M_none
    twice_body 2 (NatMapProperties.update S_gx Sargs_a).
Proof.
  assert (Ha : aEvalExpr (NatMapProperties.update S_gx Sargs_a) Ef_a G_g
                 F_f M_none (aVar "a"%string) 1
                 (NatMapProperties.update S_gx Sargs_a)).
  { apply E_LocalVar with (l := 1%nat).
    - reflexivity.
    - apply StringMap.add_1. reflexivity.
    - apply NatMapProperties.update_mapsto_iff. left.
      apply NatMap.add_1. reflexivity. }
  change 2%Z with (arith_binop_to_op Plus 1 1).
  apply E_BinExpr with (S' := NatMapProperties.update S_gx Sargs_a);
    exact Ha.
Qed.

Lemma twice_body_analyses :
  ~ ExprHasSideEffects arith_unop arith_binop twice_body /\
  ExprNoMacroInvocations arith_unop arith_binop twice_body F_f M_none /\
  ExprNoVarsInEnvironment arith_unop arith_binop twice_body E_x.
Proof.
  split; [| split].
  - apply (proj1 (has_side_effects_false_iff _ _ twice_body)). reflexivity.
  - apply (proj1 (no_macro_invocations_iff _ _ twice_body F_f M_none)).
    reflexivity.
  - apply (proj1 (no_vars_in_environment_iff _ _ twice_body E_x)).
    vm_compute. reflexivity.
Qed.

Lemma x_analyses :
  ~ ExprHasSideEffects arith_unop arith_binop (aVar "x"%string) /\
  ExprNoMacroInvocations arith_unop arith_binop (aVar "x"%string) F_f M_none.
Proof.
  split.
  - apply (proj1 (has_side_effects_false_iff _ _ (aVar "x"%string))).
    reflexivity.
  - apply (proj1 (no_macro_invocations_iff _ _ (aVar "x"%string) F_f M_none)).
    reflexivity.
Qed.

Lemma no_side_effects_no_shared_vars_with_caller_evalargs_macrosubst_1_witness :
  2%Z = 2%Z.
Proof.
  exact (no_side_effects_no_shared_vars_with_caller_evalargs_macrosubst_1
           arith_unop arith_binop arith_unop_to_op arith_binop_to_op
           twice_body (proj1 twice_body_analyses)
           F_f M_none (proj1 (proj2 twice_body_analyses))
           E_x (proj2 (proj2 twice_body_analyses))
           (aVar "x"%string) (proj1 x_analyses) (proj2 x_analyses)
           twice_x "a"%string twice_subst
           S_gx G_g 2%Z S_gx twice_call_by_name
           1%Z S_gx Ef_a Sargs_a 1%nat (1%nat :: 0%nat :: nil) twice_args
           S_gx_Sargs_a_Disjoint
           2%Z (NatMapProperties.update S_gx Sargs_a) twice_call_by_value).
Defined.

Lemma side_effect_analyzer_sound_and_flags_assignments_witness :
  NatMap.Equal S_gx S_gx /\
  has_side_effects arith_unop arith_binop
    (aParenExpr (aAssign "x"%string (aNum 3))) = true.
Proof.
  split.
  - exact (proj1 (side_effect_analyzer_sound_and_flags_assignments
                    arith_unop arith_binop arith_unop_to_op arith_binop_to_op)
             twice_x eq_refl S_gx E_x G_g F_f M_none 2%Z S_gx
             twice_call_by_name).
  - apply (proj2 (side_effect_analyzer_sound_and_flags_assignments
                    arith_unop arith_binop arith_unop_to_op arith_binop_to_op)).
    apply CA_ParenExpr. apply CA_Assign.
Defined.

(** *** A function-like macro: [ID(x)] becomes [cpp2c_ID(x)] *)

Lemma not_in_singleton :
  forall (A : Type) (k k' : string) (v : A),
  k <> k' -> ~ StringMap.In k' (StringMap.add k v (StringMap.empty A)).
Proof.
  intros A k k' v Hne Hin. apply StringMapFacts.add_in_iff in Hin.
  destruct Hin as [Heq | Hin]; [contradiction |].
  apply StringMapFacts.empty_in_iff in Hin. exact Hin.
Qed.

Lemma transform_ID :
  aTransformExpr M_id F_f (aCall "ID"%string (aVar "x"%string :: nil))
    F_id (aCall "cpp2c_ID"%string (aVar "x"%string :: nil)).
Proof.
  apply Transform_FunctionLikeMacro1ArgNoSideEffectsBodyVar with
    (p := "a"%string) (y := "a"%string)
    (newdef := ("a"%string :: nil, aSkip, aVar "a"%string)).
  - apply StringMap.add_1. reflexivity.
  - simpl. intros H. exact H.
  - intros S E G v S' _. constructor. intros Hin.
    apply StringMapFacts.remove_in_iff in Hin. destruct Hin as [Hne _].
    apply Hne. reflexivity.
  - apply not_in_singleton. discriminate.
  - apply not_in_singleton. discriminate.
  - reflexivity.
  - reflexivity.
Qed.

(** The invocation [ID(x)] yields the value of [x] ... *)
Lemma ID_x_evaluates :
  aEvalExpr S_gx E_x G_g F_f M_id
    (aCall "ID"%string (aVar "x"%string :: nil)) 1 S_gx.
Proof.
  apply E_MacroInvocation with
    (params := "a"%string :: nil) (mexpr := aVar "a"%string)
    (M' := StringMap.remove "ID"%string M_id) (ef := aVar "x"%string).
  - apply StringMap.add_1. reflexivity.
  - reflexivity.
  - constructor; [intros [] | constructor].
  - apply MacroSubst_cons with (ef := aVar "x"%string).
    + apply MS_Var_Replace. reflexivity.
    + apply MacroSubst_nil.
  - apply x_evaluates.
Qed.

Lemma x_as_argument :
  forall F M,
  aEvalExprList S_gx E_x G_g F M
    ("a"%string :: nil) (aVar "x"%string :: nil) (1%Z :: nil)
    S_gx Ef_a Sargs_a 1%nat (1%nat :: 0%nat :: nil).
Proof.
  intros F M. apply E_ExprList_cons with (Snext := S_gx).
  - apply x_evaluates.
  - apply E_ExprList_nil. reflexivity.
  - intros Hin. apply NatMapFacts.empty_in_iff in Hin. exact Hin.
  - constructor; [intros [] | constructor].
  - intros Hin. apply StringMapFacts.empty_in_iff in Hin. exact Hin.
Qed.

(** ... and so does the call [cpp2c_ID(x)] of the generated function. *)
Lemma cpp2c_ID_x_evaluates :
  aEvalExpr S_gx E_x G_g F_id M_id
    (aCall "cpp2c_ID"%string (aVar "x"%string :: nil)) 1 S_gx.
Proof.
  apply E_FunctionCall with
    (params := "a"%string :: nil) (fstmt := aSkip)
    (fexpr := aVar "a"%string) (l := 1%nat) (ls := 1%nat :: 0%nat :: nil)
    (Ef := Ef_a) (Sargs := Sargs_a) (S' := S_gx)
    (S'' := NatMapProperties.update S_gx Sargs_a)
    (S''' := NatMapProperties.update S_gx Sargs_a)
    (S'''' := NatMapProperties.update S_gx Sargs_a) (vs := 1%Z :: nil).
  - apply not_in_singleton. discriminate.
  - apply StringMap.add_1. reflexivity.
  - constructor; [intros [] | constructor].
  - apply x_as_argument.
  - reflexivity.
  - reflexivity.
  - exact S_gx_Sargs_a_Disjoint.
  - reflexivity.
  - constructor. reflexivity.
  - apply E_LocalVar with (l := 1%nat).
    + reflexivity.
    + apply StringMap.add_1. reflexivity.
    + apply NatMapProperties.update_mapsto_iff. left.
      apply NatMap.add_1. reflexivity.
  - symmetry. apply NatMap_disjoint_restrict_Equal.
    exact S_gx_Sargs_a_Disjoint.
Qed.

(** *** An object-like macro: [TEN] becomes [cpp2c_TEN()] *)

Lemma transform_TEN :
  aTransformExpr M_ten F_f (aCall "TEN"%string nil)
    F_ten (aCall "cpp2c_TEN"%string nil).
Proof.
  apply Transform_ObjectLikeMacroNoSideEffectsNoSharedVarsNoNestedMacros with
    (mexpr := aNum 10) (newdef := (@nil string, aSkip, aNum 10)).
  - apply StringMap.add_1. reflexivity.
  - simpl. intros H. exact H.
  - intros S E G v S' _. constructor.
  - constructor.
  - apply not_in_singleton. discriminate.
  - apply not_in_singleton. discriminate.
  - reflexivity.
  - reflexivity.
Qed.

Lemma transformable_macro_generated_definition_witness :
  ((F_ten = F_f /\ aCall "cpp2c_TEN"%string nil = aCall "TEN"%string nil) \/
   (exists fname,
     ~ StringMap.In fname M_ten /\
     ~ StringMap.In fname F_f /\
     aCall "cpp2c_TEN"%string nil = aCall fname nil /\
     F_ten = StringMap.add fname
               (generated_definition arith_unop arith_binop
                  (@nil string, aNum 10)) F_f /\
     generated_definition arith_unop arith_binop (@nil string, aNum 10) =
       (@nil string, aSkip, aNum 10) /\
     StringMap.MapsTo fname (@nil string, aSkip, aNum 10) F_ten /\
     List.length (@nil aexpr) = List.length (@nil string) /\
     (@nil string = nil \/
      exists p y, @nil string = p :: nil /\ aNum 10 = aVar y))) /\
  ((F_id = F_f /\
    aCall "cpp2c_ID"%string (aVar "x"%string :: nil) =
    aCall "ID"%string (aVar "x"%string :: nil)) \/
   (exists fname,
     ~ StringMap.In fname M_id /\
     ~ StringMap.In fname F_f /\
     aCall "cpp2c_ID"%string (aVar "x"%string :: nil) =
       aCall fname (aVar "x"%string :: nil) /\
     F_id = StringMap.add fname
              (generated_definition arith_unop arith_binop
                 ("a"%string :: nil, aVar "a"%string)) F_f /\
     generated_definition arith_unop arith_binop
       ("a"%string :: nil, aVar "a"%string) =
       ("a"%string :: nil, aSkip, aVar "a"%string) /\
     StringMap.MapsTo fname ("a"%string :: nil, aSkip, aVar "a"%string) F_id /\
     List.length (aVar "x"%string :: nil) = List.length ("a"%string :: nil) /\
     ("a"%string :: nil = nil \/
      exists p y, "a"%string :: nil = p :: nil /\ aVar "a"%string = aVar y))).
Proof.
  split.
  - apply (transformable_macro_generated_definition
             arith_unop arith_binop arith_unop_to_op arith_binop_to_op
             M_ten F_f "TEN"%string nil F_ten (aCall "cpp2c_TEN"%string nil)
             nil (aNum 10)).
    + apply StringMap.add_1. reflexivity.
    + exact transform_TEN.
  - apply (transformable_macro_generated_definition
             arith_unop arith_binop arith_unop_to_op arith_binop_to_op
             M_id F_f "ID"%string (aVar "x"%string :: nil) F_id
             (aCall "cpp2c_ID"%string (aVar "x"%string :: nil))
             ("a"%string :: nil) (aVar "a"%string)).
    + apply StringMap.add_1. reflexivity.
    + exact transform_ID.
Defined.

(** *** A sum: [TEN + f()] becomes [cpp2c_TEN() + f()] *)

Lemma F_ten_maps_f :
  StringMap.MapsTo "f"%string (@nil string, aSkip, aNum 7) F_ten.
Proof. apply StringMap.add_2; [discriminate | exact F_f_maps_f]. Qed.

(** The call [f()] is transformed with its callee, which holds no macro
    invocation and stays as it is. *)
Lemma transform_f_call :
  aTransformExpr M_ten F_ten (aCall "f"%string nil)
    F_ten_f (aCall "f"%string nil).
Proof.
  apply Transform_FunctionCall with
    (F' := F_ten) (F'' := F_ten) (F''' := F_ten)
    (newdef := (@nil string, aSkip, aNum 7))
    (params := nil) (fstmt := aSkip) (fexpr := aNum 7)
    (fstmt' := aSkip) (fexpr' := aNum 7)
    (Fesresult := StringMap.empty _) (Fstmtresult := StringMap.empty _)
    (Fexprresult := StringMap.empty _);
    try reflexivity; try (now constructor).
  - apply not_in_singleton. discriminate.
  - exact F_ten_maps_f.
Qed.

Lemma transform_TEN_plus_f :
  aTransformExpr M_ten F_f TEN_plus_f F_ten_f cpp2c_TEN_plus_f.
Proof.
  apply Transform_BinExpr with
    (F' := F_ten)
    (F1result := StringMap.add "cpp2c_TEN"%string
                   (@nil string, aSkip, aNum 10) (StringMap.empty _))
    (F2result := StringMap.add "f"%string
                   (@nil string, aSkip, aNum 7) (StringMap.empty _)).
  - exact transform_TEN.
  - reflexivity.
  - exact transform_f_call.
  - reflexivity.
  - apply NC_FunctionCall with
      (params := nil) (fstmt := aSkip) (fexpr := aNum 7);
      first [ exact F_f_maps_f
            | apply not_in_singleton; discriminate
            | constructor ].
  - apply NC_FunctionCall with
      (params := nil) (fstmt := aSkip) (fexpr := aNum 10);
      first [ apply StringMap.add_1; reflexivity
            | apply not_in_singleton; discriminate
            | constructor ].
Qed.

Lemma TEN_plus_f_evaluates :
  aEvalExpr S_g E_none G_g F_f M_ten TEN_plus_f 17 S_g.
Proof.
  change 17%Z with (arith_binop_to_op Plus 10 7).
  apply E_BinExpr with (S' := S_g).
  - apply E_MacroInvocation with
      (params := nil) (mexpr := aNum 10)
      (M' := StringMap.remove "TEN"%string M_ten) (ef := aNum 10).
    + apply StringMap.add_1. reflexivity.
    + reflexivity.
    + constructor.
    + constructor.
    + constructor. reflexivity.
  - apply EvalExpr_nullary_call with (fexpr := aNum 7).
    + apply not_in_singleton. discriminate.
    + exact F_f_maps_f.
    + constructor. reflexivity.
Qed.

Lemma cpp2c_TEN_plus_f_evaluates :
  aEvalExpr S_g E_none G_g F_ten_f M_ten cpp2c_TEN_plus_f 17 S_g.
Proof.
  change 17%Z with (arith_binop_to_op Plus 10 7).
  apply E_BinExpr with (S' := S_g).
  - apply EvalExpr_nullary_call with (fexpr := aNum 10).
    + apply not_in_singleton. discriminate.
    + apply StringMapProperties.update_mapsto_iff. right. split.
      * apply StringMap.add_1. reflexivity.
      * apply not_in_singleton. discriminate.
    + constructor. reflexivity.
  - apply EvalExpr_nullary_call with (fexpr := aNum 7).
    + apply not_in_singleton. discriminate.
    + apply StringMapProperties.update_mapsto_iff. left.
      apply StringMap.add_1. reflexivity.
    + constructor. reflexivity.
Qed.

Lemma transform_expr_sound_mut_v_s_witness :
  (1%Z = 1%Z /\ NatMap.Equal S_gx S_gx) /\
  (17%Z = 17%Z /\ NatMap.Equal S_g S_g).
Proof.
  split.
  - exact (transform_expr_sound_mut_v_s
             arith_unop arith_binop arith_unop_to_op arith_binop_to_op
             M_id F_f (aCall "ID"%string (aVar "x"%string :: nil))
             F_id (aCall "cpp2c_ID"%string (aVar "x"%string :: nil))
             transform_ID S_gx E_x G_g 1%Z 1%Z S_gx S_gx
             ID_x_evaluates cpp2c_ID_x_evaluates).
  - exact (transform_expr_sound_mut_v_s
             arith_unop arith_binop arith_unop_to_op arith_binop_to_op
             M_ten F_f TEN_plus_f F_ten_f cpp2c_TEN_plus_f
             transform_TEN_plus_f S_g E_none G_g 17%Z 17%Z S_g S_g
             TEN_plus_f_evaluates cpp2c_TEN_plus_f_evaluates).
Defined.

(** *** Hygiene: [#define X x] ([tests/local_var.c]) *)


Lemma E_none_binds_nothing : forall x, ~ StringMap.In x E_none.
Proof.
  intros x Hin. apply StringMapFacts.empty_in_iff in Hin. exact Hin.
Qed.


(** Why the local case must be rejected: with a local [x] holding 1 and a
    global [x] holding 40, the macro [X] reads the local, and a function
    that returns [x] reads the global. *)
Lemma captured_local_changes_the_value :
  aEvalExpr S_gx E_x G_x F_f M_X (aCall "X"%string nil) 1 S_gx /\
  aEvalExpr S_gx E_x G_x F_X M_X (aCall "cpp2c_X"%string nil) 40 S_gx.
Proof.
  split.
  - apply E_MacroInvocation with
      (params := nil) (mexpr := aVar "x"%string)
      (M' := StringMap.remove "X"%string M_X) (ef := aVar "x"%string).
    + apply StringMap.add_1. reflexivity.
    + reflexivity.
    + constructor.
    + constructor.
    + apply E_LocalVar with (l := 6%nat).
      * reflexivity.
      * apply StringMap.add_1. reflexivity.
      * apply NatMap.add_1. reflexivity.
  - apply EvalExpr_nullary_call with (fexpr := aVar "x"%string).
    + apply not_in_singleton. discriminate.
    + apply StringMap.add_1. reflexivity.
    + apply E_GlobalVar with (l := 5%nat).
      * reflexivity.
      * apply E_none_binds_nothing.
      * apply StringMap.add_1. reflexivity.
      * apply NatMap.add_2; [discriminate |]. apply NatMap.add_1. reflexivity.
Qed.

Lemma S_gx_Sargs_0_Disjoint : NatMapProperties.Disjoint S_gx Sargs_0.
Proof.
  intros k [Hs Ha].
  apply NatMapFacts.add_in_iff in Ha. destruct Ha as [Hk | Ha].
  - subst k. apply NatMapFacts.add_in_iff in Hs.
    destruct Hs as [Hk | Hs]; [discriminate Hk |].
    apply NatMapFacts.add_in_iff in Hs.
    destruct Hs as [Hk | Hs]; [discriminate Hk |].
    apply NatMapFacts.empty_in_iff in Hs. exact Hs.
  - apply NatMapFacts.empty_in_iff in Ha. exact Ha.
Qed.

(** Why a function-like macro must be rejected in the local case too:
    with a local [x] holding 1 and a global [x] holding 40, the invocation
    [F(0)] of [#define F(a) x] reads the local, and a call of the function
    generated from it reads the global. *)
Lemma function_like_capture_changes_the_value :
  aEvalExpr S_gx E_x G_x F_f M_F (aCall "F"%string (aNum 0 :: nil)) 1 S_gx /\
  aEvalExpr S_gx E_x G_x F_F M_F
    (aCall "cpp2c_F"%string (aNum 0 :: nil)) 40 S_gx.
Proof.
  split.
  - apply E_MacroInvocation with
      (params := "a"%string :: nil) (mexpr := aVar "x"%string)
      (M' := StringMap.remove "F"%string M_F) (ef := aVar "x"%string).
    + apply StringMap.add_1. reflexivity.
    + reflexivity.
    + constructor; [intros [] | constructor].
    + apply MacroSubst_cons with (ef := aVar "x"%string).
      * apply MS_Var_No_Replace. discriminate.
      * apply MacroSubst_nil.
    + apply x_evaluates.
  - apply E_FunctionCall with
      (params := "a"%string :: nil) (fstmt := aSkip)
      (fexpr := aVar "x"%string) (l := 1%nat) (ls := 1%nat :: 0%nat :: nil)
      (Ef := Ef_a) (Sargs := Sargs_0) (S' := S_gx)
      (S'' := NatMapProperties.update S_gx Sargs_0)
      (S''' := NatMapProperties.update S_gx Sargs_0)
      (S'''' := NatMapProperties.update S_gx Sargs_0) (vs := 0%Z :: nil).
    + apply not_in_singleton. discriminate.
    + apply StringMap.add_1. reflexivity.
    + constructor; [intros [] | constructor].
    + apply E_ExprList_cons with (Snext := S_gx).
      * constructor. reflexivity.
      * apply E_ExprList_nil. reflexivity.
      * intros Hin. apply NatMapFacts.empty_in_iff in Hin. exact Hin.
      * constructor; [intros [] | constructor].
      * intros Hin. apply StringMapFacts.empty_in_iff in Hin. exact Hin.
    + reflexivity.
    + reflexivity.
    + exact S_gx_Sargs_0_Disjoint.
    + reflexivity.
    + constructor. reflexivity.
    + apply E_GlobalVar with (l := 5%nat).
      * reflexivity.
      * apply not_in_singleton. discriminate.
      * apply StringMap.add_1. reflexivity.
      * apply NatMapProperties.update_mapsto_iff. right. split.
        -- apply NatMap.add_2; [discriminate |].
           apply NatMap.add_1. reflexivity.
        -- intros Hin. apply NatMapFacts.add_in_iff in Hin.
           destruct Hin as [Hk | Hin]; [discriminate Hk |].
           apply NatMapFacts.empty_in_iff in Hin. exact Hin.
    + symmetry. apply NatMap_disjoint_restrict_Equal.
      exact S_gx_Sargs_0_Disjoint.
Qed.

(** *** Conditional evaluation: [A_THEN_B] *)


(** [A_THEN_B(1, 2)] is not judged transformable either: the test program
    marks it as an invocation that should be transformed, and says that
    this is left for later. *)
Lemma A_THEN_B_1_2_not_transformable :
  forall F M callerEnv,
  exists reason,
    decide_transformable c_unop c_binop F M callerEnv A_THEN_B args_1_2 =
    NotTransformable reason.
Proof.
  intros F M callerEnv.
  apply macro_of_two_parameters_is_not_transformable.
Qed.

(** At the site of the test program, where [p] is the one local variable,
    the reason is [UnsafeArgument]. *)
Lemma A_THEN_B_p_deref_p_verdict :
  decide_transformable c_unop c_binop
    (StringMap.empty _) M_A_THEN_B E_p A_THEN_B args_p_deref_p =
  NotTransformable UnsafeArgument.
Proof. reflexivity. Qed.




(** ** Examples of the further properties *)

(** *** Calls and argument lists *)

Lemma M_id_binds_only_ID :
  ~ StringMap.In "cpp2c_ID"%string M_id.
Proof. apply not_in_singleton. discriminate. Qed.

Lemma function_call_needs_definition_and_arity_witness :
  exists params fstmt fexpr,
    StringMap.MapsTo "cpp2c_ID"%string (params, fstmt, fexpr) F_id /\
    List.length (aVar "x"%string :: nil) = List.length params /\
    (List.length (aVar "x"%string :: nil) <= 1)%nat.
Proof.
  exact (function_call_needs_definition_and_arity _ _ _ _ _ _ _ _ _ _ _ _ _
           M_id_binds_only_ID cpp2c_ID_x_evaluates).
Defined.

Lemma M_id_maps_ID :
  StringMap.MapsTo "ID"%string ("a"%string :: nil, aVar "a"%string) M_id.
Proof. apply StringMap.add_1. reflexivity. Qed.

Lemma macro_invocation_needs_arity_witness :
  List.length (aVar "x"%string :: nil) = List.length ("a"%string :: nil) /\
  NoDup ("a"%string :: nil).
Proof.
  exact (macro_invocation_needs_arity _ _ _ _ _ _ _ _ _ _ _ _ _ _ _
           M_id_maps_ID ID_x_evaluates).
Defined.

Lemma one_argument_call_needs_location_1_free_witness :
  ~ StringMap.In "cpp2c_ID"%string M_id /\ ~ NatMap.In 1%nat S_gx.
Proof.
  split.
  - exact M_id_binds_only_ID.
  - exact (one_argument_call_needs_location_1_free _ _ _ _ _ _ _ _ _ _ _ _ _
             M_id_binds_only_ID cpp2c_ID_x_evaluates).
Defined.

(** [cpp2c_ID(x)] returns the store of the caller without location 1. *)
Lemma cpp2c_ID_x_returns :
  aEvalExpr S_gx E_x G_g F_id M_id
    (aCall "cpp2c_ID"%string (aVar "x"%string :: nil)) 1 S_ID_return.
Proof.
  apply S'_Equal_EvalExpr with (S'_1 := S_gx).
  - exact cpp2c_ID_x_evaluates.
  - symmetry. apply NatMap_disjoint_restrict_Equal.
    exact S_gx_Sargs_a_Disjoint.
Qed.

Lemma S_gx_has_6 : NatMap.In 6%nat S_gx.
Proof. exists 1%Z. apply NatMap.add_1. reflexivity. Qed.

Lemma evaluation_never_frees_a_location_witness :
  NatMap.In 6%nat S_ID_return.
Proof.
  exact (evaluation_never_frees_a_location _ _ _ _ _ _ _ _ _ _ _ _ _
           cpp2c_ID_x_returns S_gx_has_6).
Defined.

Lemma function_call_preserves_store_domain_witness :
  NatMap.In 1%nat S_ID_return <-> NatMap.In 1%nat S_gx.
Proof.
  exact (function_call_preserves_store_domain _ _ _ _ _ _ _ _ _ _ _ _ _ 1%nat
           M_id_binds_only_ID cpp2c_ID_x_returns).
Defined.

(** *** A function that writes a global *)

Lemma F_set_g_maps_set_g :
  StringMap.MapsTo "set_g"%string
    (@nil string, aExpr (aAssign "g"%string (aNum 1)), aVar "g"%string)
    F_set_g.
Proof. apply StringMap.add_1. reflexivity. Qed.

Lemma G_g_maps_g : StringMap.MapsTo "g"%string 5%nat G_g.
Proof. apply StringMap.add_1. reflexivity. Qed.

(** Called where [x] is a local variable at location 6, [set_g()] returns 1
    and leaves 1 in the global [g]. *)
Lemma set_g_evaluates :
  forall E,
  aEvalExpr S_gx E G_g F_set_g M_none (aCall "set_g"%string nil) 1
    S_set_g_return.
Proof.
  intros E. apply E_FunctionCall with
    (params := nil) (fstmt := aExpr (aAssign "g"%string (aNum 1)))
    (fexpr := aVar "g"%string) (l := 1%nat) (ls := 0%nat :: nil)
    (Ef := StringMap.empty nat) (Sargs := NatMap.empty Z) (S' := S_gx)
    (S'' := S_set_g_enter) (S''' := S_set_g_leave)
    (S'''' := S_set_g_leave) (vs := nil).
  - apply M_none_empty.
  - exact F_set_g_maps_set_g.
  - constructor.
  - constructor. reflexivity.
  - reflexivity.
  - reflexivity.
  - apply NatMap_Disjoint_empty.
  - reflexivity.
  - apply E_Expr with (v := 1%Z).
    apply E_Assign_Global with (l := 5%nat) (S' := S_set_g_enter).
    + apply E_none_binds_nothing.
    + exact G_g_maps_g.
    + constructor. reflexivity.
    + reflexivity.
  - apply E_GlobalVar with (l := 5%nat).
    + reflexivity.
    + apply E_none_binds_nothing.
    + exact G_g_maps_g.
    + apply NatMapProperties.update_mapsto_iff. left.
      apply NatMap.add_1. reflexivity.
  - reflexivity.
Qed.

Lemma G_g_binds_only_5 :
  forall l y, l <> 5%nat -> ~ StringMap.MapsTo y l G_g.
Proof.
  intros l y Hne Hy. apply StringMapFacts.add_mapsto_iff in Hy.
  destruct Hy as [[_ Hl] | [_ Hy]].
  - apply Hne. symmetry. exact Hl.
  - apply StringMapFacts.empty_mapsto_iff in Hy. exact Hy.
Qed.

Lemma nullary_call_changes_only_global_locations_witness :
  NatMap.find 6%nat S_set_g_return = NatMap.find 6%nat S_gx.
Proof.
  apply (nullary_call_changes_only_global_locations _ _ _ _ _ _ _ _ _ _ _ _
           6%nat (M_none_empty "set_g"%string) (set_g_evaluates E_x)).
  intros y. apply G_g_binds_only_5. discriminate.
Defined.

Lemma nullary_call_ignores_caller_environment_witness :
  aEvalExpr S_gx E_none G_g F_set_g M_none (aCall "set_g"%string nil) 1
    S_set_g_return.
Proof.
  exact (nullary_call_ignores_caller_environment _ _ _ _ _ _ _ _ _ _ _ _
           E_none (M_none_empty "set_g"%string) (set_g_evaluates E_x)).
Defined.

(** *** A nested assignment: [x = (g = 3)] *)

Lemma E_x_maps_x : StringMap.MapsTo "x"%string 6%nat E_x.
Proof. apply StringMap.add_1. reflexivity. Qed.

Lemma E_x_binds_only_6 :
  forall l y, l <> 6%nat -> ~ StringMap.MapsTo y l E_x.
Proof.
  intros l y Hne Hy. apply StringMapFacts.add_mapsto_iff in Hy.
  destruct Hy as [[_ Hl] | [_ Hy]].
  - apply Hne. symmetry. exact Hl.
  - apply StringMapFacts.empty_mapsto_iff in Hy. exact Hy.
Qed.

Lemma E_none_maps_nothing :
  forall l y, ~ StringMap.MapsTo y l E_none.
Proof.
  intros l y Hy. apply StringMapFacts.empty_mapsto_iff in Hy. exact Hy.
Qed.

(** The inner assignment writes 3 to [g]; the outer one writes 3 to [x] in
    the store it started from. *)
Lemma x_gets_g_gets_3_evaluates :
  forall F M, aEvalExpr S_gx E_x G_g F M x_gets_g_gets_3 3 S_x_3.
Proof.
  intros F M.
  apply E_Assign_Local with
    (l := 6%nat)
    (S' := NatMapProperties.update S_gx
             (NatMap.add 5%nat 3%Z (NatMap.empty Z))).
  - exact E_x_maps_x.
  - apply E_Assign_Global with (l := 5%nat) (S' := S_gx).
    + intros Hin. apply StringMapFacts.add_in_iff in Hin.
      destruct Hin as [Heq | Hin]; [discriminate Heq |].
      apply StringMapFacts.empty_in_iff in Hin. exact Hin.
    + exact G_g_maps_g.
    + constructor. reflexivity.
    + reflexivity.
  - reflexivity.
Qed.

(** After [x = (g = 3)] the global [g] still holds 40. *)
Lemma nested_assignment_is_not_kept :
  NatMap.find 5%nat S_x_3 = Some 40%Z.
Proof. reflexivity. Qed.

Lemma assignment_updates_the_initial_store_witness :
  exists l,
    (StringMap.MapsTo "x"%string l E_x \/
     (~ StringMap.In "x"%string E_x /\ StringMap.MapsTo "x"%string l G_g)) /\
    NatMap.Equal S_x_3 (NatMap.add l 3%Z S_gx).
Proof.
  exact (assignment_updates_the_initial_store _ _ _ _ _ _ _ _ _ _ _ _ _
           (x_gets_g_gets_3_evaluates F_f M_none)).
Defined.

(** The assignment changes nothing at location 7, which no variable is
    at. *)
Lemma evaluation_changes_only_bound_locations_witness :
  NatMap.find 7%nat S_x_3 = NatMap.find 7%nat S_gx.
Proof.
  apply (evaluation_changes_only_bound_locations _ _ _ _ _ _ _ _ _ _ _ _
           7%nat (x_gets_g_gets_3_evaluates F_f M_none)).
  - intros y. apply E_x_binds_only_6. discriminate.
  - intros y. apply G_g_binds_only_5. discriminate.
Defined.

(** *** Variables *)

Lemma local_variable_shadows_global_witness :
  NatMap.MapsTo 6%nat 1%Z S_gx /\ NatMap.Equal S_gx S_gx.
Proof.
  exact (local_variable_shadows_global _ _ _ _ _ _ _ _ _ _ _ _ _
           E_x_maps_x (x_evaluates G_x F_f M_none)).
Defined.

Lemma EvalExpr_Var_x_in_E_or_G_witness :
  StringMap.In "x"%string E_x \/ StringMap.In "x"%string G_g.
Proof.
  exact (EvalExpr_Var_x_in_E_or_G _ _ _ _ _ _ _ _ _ _ _ _
           (x_evaluates G_g F_f M_none)).
Defined.

(** *** Macro substitution *)

Lemma ten_subst :
  aMacroSubst ("a"%string :: nil) (aVar "x"%string :: nil)
    (aNum 10) (aNum 10).
Proof.
  apply MacroSubst_cons with (ef := aNum 10); constructor.
Qed.

Lemma MacroSubst_mexpr_Num_ef_Num_witness : aNum 10 = aNum 10.
Proof.
  exact (MacroSubst_mexpr_Num_ef_Num _ _ _ _ _ _ ten_subst).
Defined.

Lemma M_set_maps_SET :
  StringMap.MapsTo "SET"%string
    ("a"%string :: nil, aAssign "a"%string (aNum 1)) M_set.
Proof. apply StringMap.add_1. reflexivity. Qed.

(** [SET(x)] expands to [x = 1]. *)
Lemma SET_x_evaluates :
  aEvalExpr S_gx E_x G_g F_f M_set
    (aCall "SET"%string (aVar "x"%string :: nil)) 1 S_x_1.
Proof.
  apply E_MacroInvocation with
    (params := "a"%string :: nil) (mexpr := aAssign "a"%string (aNum 1))
    (M' := StringMap.remove "SET"%string M_set)
    (ef := aAssign "x"%string (aNum 1)).
  - exact M_set_maps_SET.
  - reflexivity.
  - constructor; [intros [] | constructor].
  - apply MacroSubst_cons with (ef := aAssign "x"%string (aNum 1)).
    + apply MS_Assign_Replace; [reflexivity | reflexivity | constructor].
    + apply MacroSubst_nil.
  - apply E_Assign_Local with (l := 6%nat) (S' := S_gx).
    + exact E_x_maps_x.
    + constructor. reflexivity.
    + reflexivity.
Qed.

Lemma macro_assigning_its_parameter_needs_variable_argument_witness :
  exists y, aVar "x"%string = aVar y.
Proof.
  exact (macro_assigning_its_parameter_needs_variable_argument
           _ _ _ _ _ _ _ _ _ _ _ _ _ _ _ M_set_maps_SET SET_x_evaluates).
Defined.

Lemma twice_body_has_no_assignment :
  ~ ContainsAssign arith_unop arith_binop twice_body.
Proof.
  intros H. inversion H; subst;
    match goal with
    | Hc : ContainsAssign _ _ (Var _ _ _) |- _ => inversion Hc
    end.
Qed.

Lemma x_has_no_assignment :
  forall e, In e (aVar "x"%string :: nil) ->
  ~ ContainsAssign arith_unop arith_binop e.
Proof.
  intros e [<- | []] H. inversion H.
Qed.

Lemma MacroSubst_total_without_assignments_witness :
  exists ef,
    aMacroSubst ("a"%string :: nil) (aVar "x"%string :: nil) twice_body ef.
Proof.
  exact (MacroSubst_total_without_assignments _ _
           ("a"%string :: nil) (aVar "x"%string :: nil) twice_body
           eq_refl twice_body_has_no_assignment x_has_no_assignment).
Defined.

(** *** Statements *)

Lemma one_is_not_zero : (1 <> 0)%Z.
Proof. discriminate. Qed.

Lemma While_nonzero_numeral_never_terminates_witness :
  (1 <> 0)%Z /\
  ~ aEvalStmt S_g E_none G_g F_f M_none (aWhile (aNum 1) aSkip) S_g.
Proof.
  split.
  - exact one_is_not_zero.
  - exact (While_nonzero_numeral_never_terminates _ _ _ _
             S_g E_none G_g F_f M_none 1%Z aSkip S_g one_is_not_zero).
Defined.

(** The statement [f();] *)
Lemma call_f_statement_evaluates :
  aEvalStmt S_g E_none G_g F_f M_none (aExpr (aCall "f"%string nil)) S_g.
Proof. apply E_Expr with (v := 7%Z). exact call_f_evaluates. Qed.

Lemma EvalStmt_deterministic_witness : NatMap.Equal S_g S_g.
Proof.
  exact (EvalStmt_deterministic _ _ _ _ _ _ _ _ _ _ _ _
           call_f_statement_evaluates call_f_statement_evaluates).
Defined.

(** *** Equal maps *)

Lemma S_gx_again_Equal : NatMap.Equal S_gx S_gx_again.
Proof.
  intros k. unfold S_gx_again, S_gx.
  rewrite !NatMapFacts.add_o.
  destruct (NatMapFacts.eq_dec 6%nat k); reflexivity.
Qed.

Lemma E_x_again_Equal : StringMap.Equal E_x E_x_again.
Proof.
  intros k. unfold E_x_again, E_x.
  rewrite !StringMapFacts.add_o.
  destruct (StringMapFacts.eq_dec "x"%string k); reflexivity.
Qed.

Lemma EvalExpr_respects_Equal_witness :
  aEvalExpr S_gx_again E_x_again G_g F_f M_none (aVar "x"%string) 1
    S_gx_again.
Proof.
  exact (EvalExpr_respects_Equal _ _ _ _ _ _ _ _ _ _ _ _ _ _ _
           S_gx_again_Equal E_x_again_Equal S_gx_again_Equal
           (x_evaluates G_g F_f M_none)).
Defined.

Lemma x_statement_evaluates :
  aEvalStmt S_gx E_x G_g F_f M_none (aExpr (aVar "x"%string)) S_gx.
Proof. apply E_Expr with (v := 1%Z). apply x_evaluates. Qed.

Lemma EvalStmt_respects_Equal_witness :
  aEvalStmt S_gx_again E_x_again G_g F_f M_none (aExpr (aVar "x"%string))
    S_gx_again.
Proof.
  exact (EvalStmt_respects_Equal _ _ _ _ _ _ _ _ _ _ _ _ _ _
           S_gx_again_Equal E_x_again_Equal S_gx_again_Equal
           x_statement_evaluates).
Defined.

(** *** The function table *)

Lemma F_f_F_h_Disjoint : StringMapProperties.Disjoint F_f F_h.
Proof.
  intros k [Hf Hh].
  apply StringMapFacts.add_in_iff in Hf.
  apply StringMapFacts.add_in_iff in Hh.
  destruct Hf as [Hf | Hf].
  - destruct Hh as [Hh | Hh].
    + subst k. discriminate Hh.
    + apply StringMapFacts.empty_in_iff in Hh. exact Hh.
  - apply StringMapFacts.empty_in_iff in Hf. exact Hf.
Qed.

Lemma h_not_in_F_f : ~ StringMap.In "h"%string F_f.
Proof. apply not_in_singleton. discriminate. Qed.

Lemma EvalExpr_Disjoint_diff_F_EvalExpr_witness :
  aEvalExpr S_g E_none G_g (StringMapProperties.diff F_f F_h) M_none
    (aCall "f"%string nil) 7 S_g.
Proof.
  exact (EvalExpr_Disjoint_diff_F_EvalExpr _ _ _ _ _ _ _ _ _ _ _ _ _
           call_f_evaluates F_f_F_h_Disjoint).
Defined.

Lemma EvalStmt_preserved_by_fresh_function_definitions_witness :
  aEvalStmt S_g E_none G_g
    (StringMap.add "h"%string (@nil string, aSkip, aNum 0) F_f) M_none
    (aExpr (aCall "f"%string nil)) S_g /\
  aEvalStmt S_g E_none G_g (StringMapProperties.update F_f F_h) M_none
    (aExpr (aCall "f"%string nil)) S_g.
Proof.
  destruct (EvalStmt_preserved_by_fresh_function_definitions
              _ _ _ _ _ _ _ _ _ _ _ call_f_statement_evaluates)
    as [Hadd Hupd].
  split.
  - apply Hadd. exact h_not_in_F_f.
  - apply Hupd. exact F_f_F_h_Disjoint.
Defined.

Lemma EvalExprList_preserved_by_fresh_function_definitions_witness :
  aEvalExprList S_gx E_x G_g
    (StringMap.add "h"%string (@nil string, aSkip, aNum 0) F_f) M_none
    ("a"%string :: nil) (aVar "x"%string :: nil) (1%Z :: nil)
    S_gx Ef_a Sargs_a 1%nat (1%nat :: 0%nat :: nil) /\
  aEvalExprList S_gx E_x G_g (StringMapProperties.update F_f F_h) M_none
    ("a"%string :: nil) (aVar "x"%string :: nil) (1%Z :: nil)
    S_gx Ef_a Sargs_a 1%nat (1%nat :: 0%nat :: nil).
Proof.
  destruct (EvalExprList_preserved_by_fresh_function_definitions
              _ _ _ _ _ _ _ _ _ _ _ _ _ _ _ _ _
              (x_as_argument F_f M_none))
    as [Hadd Hupd].
  split.
  - apply Hadd. exact h_not_in_F_f.
  - apply Hupd. exact F_f_F_h_Disjoint.
Defined.

(** *** An object-like macro as a macro body and as a function body *)

Lemma g_evaluates :
  forall S E, ~ StringMap.In "g"%string E ->
  NatMap.MapsTo 5%nat 40%Z S ->
  aEvalExpr S E G_g F_f M_none (aVar "g"%string) 40 S.
Proof.
  intros S E HE HS. apply E_GlobalVar with (l := 5%nat).
  - reflexivity.
  - exact HE.
  - exact G_g_maps_g.
  - exact HS.
Qed.

Lemma g_not_in_E_x : ~ StringMap.In "g"%string E_x.
Proof. apply not_in_singleton. discriminate. Qed.

Lemma no_side_effects_no_shared_vars_with_caller_evalargs_macrosubst_nil_witness :
  40%Z = 40%Z.
Proof.
  apply (no_side_effects_no_shared_vars_with_caller_evalargs_macrosubst_nil
           arith_unop arith_binop arith_unop_to_op arith_binop_to_op
           (aVar "g"%string) F_f M_none E_x (aVar "g"%string)
           S_gx G_g 40%Z S_gx S_gx (StringMap.empty nat) (NatMap.empty Z)
           1%nat (0%nat :: nil) 40%Z
           (NatMapProperties.update S_gx (NatMap.empty Z))).
  - simpl. intros H. exact H.
  - constructor.
  - constructor. exact g_not_in_E_x.
  - constructor.
  - apply g_evaluates; [exact g_not_in_E_x |].
    apply NatMap.find_2. reflexivity.
  - constructor. reflexivity.
  - apply NatMap_Disjoint_empty.
  - apply g_evaluates; [apply E_none_binds_nothing |].
    apply NatMap.find_2. reflexivity.
Defined.

(** *** A statement: [TEN;] becomes [cpp2c_TEN();] *)

Lemma transform_TEN_statement :
  aTransformStmt M_ten F_f (aExpr (aCall "TEN"%string nil))
    F_ten (aExpr (aCall "cpp2c_TEN"%string nil)).
Proof. apply Transform_Expr. exact transform_TEN. Qed.

Lemma TEN_statement_evaluates :
  aEvalStmt S_g E_none G_g F_f M_ten (aExpr (aCall "TEN"%string nil)) S_g.
Proof.
  apply E_Expr with (v := 10%Z).
  apply E_MacroInvocation with
    (params := nil) (mexpr := aNum 10)
    (M' := StringMap.remove "TEN"%string M_ten) (ef := aNum 10).
  - apply StringMap.add_1. reflexivity.
  - reflexivity.
  - constructor.
  - constructor.
  - constructor. reflexivity.
Qed.

Lemma cpp2c_TEN_statement_evaluates :
  aEvalStmt S_g E_none G_g F_ten M_ten
    (aExpr (aCall "cpp2c_TEN"%string nil)) S_g.
Proof.
  apply E_Expr with (v := 10%Z).
  apply EvalExpr_nullary_call with (fexpr := aNum 10).
  - apply not_in_singleton. discriminate.
  - apply StringMap.add_1. reflexivity.
  - constructor. reflexivity.
Qed.

Lemma transform_stmt_sound_witness : NatMap.Equal S_g S_g.
Proof.
  exact (transform_stmt_sound _ _ _ _ _ _ _ _ _ _ _ _ _ _
           transform_TEN_statement TEN_statement_evaluates
           cpp2c_TEN_statement_evaluates).
Defined.

(** *** The log *)

Lemma untransformed_record_determines_its_fields_witness :
  "FOO"%string = "FOO"%string /\
  "a.c:3:5"%string = "a.c:3:5"%string /\
  "main"%string = "main"%string /\
  "Syntactic"%string = "Syntactic"%string /\
  "Expansion has side effects"%string = "Expansion has side effects"%string.
Proof.
  exact (untransformed_record_determines_its_fields
           unit unit unit string string string
           (fun _ => tt) (fun _ => tt)
           log_printToString log_hashMacro log_getName
           EmptyString tt
           FOO_in_main "Syntactic"%string
           "Expansion has side effects"%string
           FOO_in_main_again "Syntactic"%string
           "Expansion has side effects"%string
           eq_refl eq_refl eq_refl eq_refl eq_refl eq_refl eq_refl eq_refl
           eq_refl).
Defined.
